(** * XPS IRF simulator: physics kernels, forward simulator, optimizers and
      fitters, embedded over the real numbers.

    JavaScript [number]s are modelled as real numbers [R] (no rounding, no
    NaN, no infinities); array indices, loop counters and the 32-bit words of
    the Mulberry32 generator are modelled as [Z] / [nat] with the wrap-around
    written out.  An array read outside its range ([undefined] in JavaScript)
    is a read with default [0]. *)

From Stdlib Require Import String Reals Lra Lia ZArith List Bool Psatz.
Import ListNotations.

Open Scope R_scope.

(** ** JavaScript numeric helpers *)

Definition Math_floor (x : R) : Z := (up x - 1)%Z.

Definition Math_ceil (x : R) : Z := (- Math_floor (- x))%Z.

(** [Math.max(...l)]; the value on the empty array ([-Infinity] in
    JavaScript) is never used by the callers below with an empty array other
    than inside a [map] over that same empty array. *)
Definition Math_max_list (l : list R) : R :=
  match l with
  | [] => 0
  | x :: t => fold_left Rmax t x
  end.

(** Array read [a[i]] with an integer index. *)
Definition get (a : list R) (i : nat) : R := nth i a 0.

Definition get2 (a : list (list R)) (i j : nat) : R := nth j (nth i a []) 0.

(** Array write [a[i] = v] (inside the array's range). *)
Fixpoint set_nth {A : Type} (i : nat) (v : A) (a : list A) : list A :=
  match a, i with
  | [], _ => []
  | _ :: t, O => v :: t
  | x :: t, S i' => x :: set_nth i' v t
  end.

(** [map] with the element's index, as [Array.prototype.map((v, j) => ...)]. *)
Fixpoint mapi_from {A B : Type} (k : nat) (f : A -> nat -> B) (l : list A) : list B :=
  match l with
  | [] => []
  | x :: t => f x k :: mapi_from (S k) f t
  end.

Definition mapi {A B : Type} (f : A -> nat -> B) (l : list A) : list B :=
  mapi_from 0 f l.

(** The integers [lo, lo+1, ..., hi]. *)
Definition zrange (lo hi : Z) : list Z :=
  map (fun k => (lo + Z.of_nat k)%Z) (seq 0 (Z.to_nat (hi - lo + 1))).

Definition Rsum (l : list R) : R := fold_left Rplus l 0.

(** ** Mulberry32 (optimization.ts, [createRandom]) *)

Definition two32 : Z := 4294967296%Z.

Definition toUint32 (z : Z) : Z := (z mod two32)%Z.

Definition toInt32 (z : Z) : Z :=
  let u := (z mod two32)%Z in
  if (u <? 2147483648)%Z then u else (u - two32)%Z.

(** [Math.imul]. *)
Definition imul (a b : Z) : Z := toInt32 (toInt32 a * toInt32 b).

(** [a ^ b], [a | b] and [a >>> n] on numbers. *)
Definition xor32 (a b : Z) : Z := Z.lxor (toInt32 a) (toInt32 b).
Definition or32 (a b : Z) : Z := Z.lor (toInt32 a) (toInt32 b).
Definition ushr (a n : Z) : Z := Z.shiftr (toUint32 a) n.

(** The closure variable [seed] is a JavaScript number that is never
    truncated: [seed += 0x6D2B79F5] is a double-precision addition, exact
    below 2^53 and rounded to the nearest double (ties to even) above. *)
Definition roundDouble (z : Z) : Z :=
  let a := Z.abs z in
  if (a <? 2 ^ 53)%Z then z
  else
    let ulp := (2 ^ (Z.log2 a - 52))%Z in
    let q := (a / ulp)%Z in
    let r := (a mod ulp)%Z in
    let q' := if (2 * r <? ulp)%Z then q
              else if (ulp <? 2 * r)%Z then (q + 1)%Z
              else if Z.even q then q else (q + 1)%Z in
    (Z.sgn z * (q' * ulp))%Z.

(** One call of the closure returned by [createRandom]: the new value of
    [seed] and the 32-bit numerator of the result. *)
Definition random_word (seed : Z) : Z * Z :=
  let seed := roundDouble (seed + 1831565813) in
  let t := seed in
  let t := imul (xor32 t (ushr t 15)) (or32 t 1) in
  let t := xor32 t (t + imul (xor32 t (ushr t 7)) (or32 t 61)) in
  (seed, toUint32 (xor32 t (ushr t 14))).

Definition random (seed : Z) : R * Z :=
  let (seed', w) := random_word seed in (IZR w / 4294967296, seed').

(** The stream of the first [n] results of a generator created with [seed]. *)
Fixpoint random_stream (n : nat) (seed : Z) : list R :=
  match n with
  | O => []
  | S n' => let (u, seed') := random seed in u :: random_stream n' seed'
  end.

(** ** Physics kernels (physics.ts) *)

Definition KB : R := 8.617333262e-5.

Definition erf (x : R) : R :=
  let a1 := 0.254829592 in
  let a2 := -0.284496736 in
  let a3 := 1.421413741 in
  let a4 := -1.453152027 in
  let a5 := 1.061405429 in
  let p := 0.3275911 in
  let sign := if Rlt_dec x 0 then -1 else 1 in
  let x := Rabs x in
  let t := 1 / (1 + p * x) in
  let y := 1 - ((((a5 * t + a4) * t + a3) * t + a2) * t + a1) * t * exp (- x * x) in
  sign * y.

(** Over the reals the second branch lies strictly between 0 and 1 and
    strictly decreases where the clamp is idle.  In double precision
    [exp val + 1] rounds to 1 for [val] below about -36.7 and the function
    returns exactly 1 there: of the program only [0 < f <= 1] and the
    non-strict monotonicity hold. *)
Definition fermiDirac (energy : list R) (temp : R) (ef : R) : list R :=
  if Rlt_dec temp 0.1 then
    map (fun e => if Rle_dec e ef then 1 else 0) energy
  else
    map (fun e =>
           let val := Rmax (-100) (Rmin 100 ((e - ef) / (KB * temp))) in
           1 / (exp val + 1)) energy.

(** For [sigma = 0] the source divides 0 by 0 (not a number) at every point
    other than 0; statements about [skewGaussian] assume [sigma <> 0]. *)
Definition skewGaussian (x : list R) (sigma gamma : R) : list R :=
  let sqrt2pi := sqrt (2 * PI) in
  let sqrt2 := sqrt 2 in
  map (fun xi =>
         let phi := exp (- xi * xi / (2 * sigma * sigma)) / (sigma * sqrt2pi) in
         let cdf := 0.5 * (1 + erf (gamma * xi / (sigma * sqrt2))) in
         2 * phi * cdf) x.

(** For [de = 0] and a positive [sigma] the source has an infinite [width]
    and its loop never ends; statements about [gaussianKernel] assume
    [de <> 0]. *)
Definition gaussianKernel (sigma de : R) : list R :=
  let width := Math_ceil (5 * sigma / de) in
  if (width <=? 0)%Z then [1]
  else
    let kernel :=
      map (fun i => let x := IZR i * de in exp (- x * x / (2 * sigma * sigma)))
          (zrange (- width) width) in
    let sum := Rsum kernel in
    map (fun v => v / sum) kernel.

(** The source reads [E[0].length], which raises on an empty [E], and with
    [sigmaX = 0] or [sigmaY = 0] its cells are not numbers; statements about
    [ellipticalGaussian2D] assume a non-empty rectangular [E], a [Y] of the
    same shape and non-zero widths. *)
Definition ellipticalGaussian2D (E Y : list (list R))
    (sigmaX sigmaY gammaX gammaY rotation : R) : list (list R) :=
  let theta := rotation * PI / 180 in
  let cosTheta := cos theta in
  let sinTheta := sin theta in
  let sqrt2 := sqrt 2 in
  let rows := length E in
  let cols := length (nth 0 E []) in
  let cell (i j : nat) : R :=
    let x := get2 E i j in
    let y := get2 Y i j in
    let xRot := x * cosTheta - y * sinTheta in
    let yRot := x * sinTheta + y * cosTheta in
    let phiX := exp (- xRot * xRot / (2 * sigmaX * sigmaX)) in
    let cdfX := 0.5 * (1 + erf (gammaX * xRot / (sigmaX * sqrt2))) in
    let distX := 2 * phiX * cdfX in
    let phiY := exp (- yRot * yRot / (2 * sigmaY * sigmaY)) in
    let cdfY := 0.5 * (1 + erf (gammaY * yRot / (sigmaY * sqrt2))) in
    let distY := 2 * phiY * cdfY in
    distX * distY in
  let result := map (fun i => map (fun j => cell i j) (seq 0 cols)) (seq 0 rows) in
  let sum := Rsum (concat result) in
  if Rlt_dec 1e-12 sum then map (map (fun v => v / sum)) result else result.

(** The binary search of [interp]: [hi - lo] shrinks at every turn, so
    [length xOld] turns are more than the loop ever takes. *)
Fixpoint interp_search (fuel : nat) (xOld : list R) (x : R) (lo hi : nat) : nat * nat :=
  match fuel with
  | O => (lo, hi)
  | S fuel' =>
      if (1 <? hi - lo)%nat then
        let mid := ((lo + hi) / 2)%nat in
        if Rle_dec (get xOld mid) x then interp_search fuel' xOld x mid hi
        else interp_search fuel' xOld x lo mid
      else (lo, hi)
  end.

Definition interp (xNew xOld yOld : list R) (leftVal rightVal : option R) : list R :=
  let left := match leftVal with Some v => v | None => get yOld 0 end in
  let right := match rightVal with Some v => v | None => get yOld (length yOld - 1) end in
  map (fun x =>
         if Rle_dec x (get xOld 0) then left
         else if Rge_dec x (get xOld (length xOld - 1)) then right
         else
           let (lo, hi) := interp_search (length xOld) xOld x 0 (length xOld - 1) in
           let t := (x - get xOld lo) / (get xOld hi - get xOld lo) in
           get yOld lo + t * (get yOld hi - get yOld lo)) xNew.

Definition convolve (data kernel : list R) : list R :=
  let padSize := (length kernel / 2)%nat in
  let n := length data in
  let padded := repeat (get data 0) padSize ++ data ++ repeat (get data (n - 1)) padSize in
  map (fun i => Rsum (mapi (fun kv k => get padded (i + k) * kv) kernel)) (seq 0 n).

Definition linspace (start stop : R) (num : nat) : list R :=
  let step := (stop - start) / (INR num - 1) in
  map (fun i => start + INR i * step) (seq 0 num).

Definition meshgrid (xAxis yAxis : list R) : list (list R) * list (list R) :=
  let rows := length yAxis in
  let cols := length xAxis in
  (map (fun i => map (fun j => get xAxis j) (seq 0 cols)) (seq 0 rows),
   map (fun i => map (fun j => get yAxis i) (seq 0 cols)) (seq 0 rows)).

(** ** Forward simulator (simulator.ts) *)

Record SimulatorParams := {
  sigmaX : R;
  sigmaY : R;
  alpha : R;
  gammaX : R;
  gammaY : R;
  kappa : R;
  theta : R;
  sigmaRes : R;
  temp : R;
  poissonNoise : option R;
  gaussianNoise : option R
}.

Record SimulationResult := {
  energy : list R;
  spectrum : list R;
  spectrumClean : list R;
  idealFD : list R;
  irf : list R;
  image2D : list (list R);
  spotProfile : list (list R);
  yAxis : list R;
  sigmaSource : R;
  sigmaDetector : R;
  sigmaCombined : R
}.

Record Grid := {
  g_eAxis : list R;
  g_yAxis : list R;
  g_E : list (list R);
  g_Y : list (list R);
  g_de : R
}.

Definition createGrid (eStart eEnd : R) (eSteps : nat) (yStart yEnd : R) (ySteps : nat) : Grid :=
  let eAxis := linspace eStart eEnd eSteps in
  let yAxis := linspace yStart yEnd ySteps in
  let (E, Y) := meshgrid eAxis yAxis in
  let de := get eAxis 1 - get eAxis 0 in
  {| g_eAxis := eAxis; g_yAxis := yAxis; g_E := E; g_Y := Y; g_de := de |}.

Definition generate2DEmission (grid : Grid) (trueSpectrum : list R)
    (sigmaY gammaY alpha : R) : list (list R) :=
  let yDistribution := skewGaussian (g_yAxis grid) sigmaY gammaY in
  let rows := length (g_yAxis grid) in
  let cols := length (g_eAxis grid) in
  map (fun i =>
         let yVal := get (g_yAxis grid) i in
         let shift := alpha * yVal in
         let shiftedEnergy := map (fun e => e - shift) (g_eAxis grid) in
         let shiftedSpec :=
           interp shiftedEnergy (g_eAxis grid) trueSpectrum
                  (Some (get trueSpectrum 0)) (Some 0) in
         map (fun j => get shiftedSpec j * get yDistribution i) (seq 0 cols))
      (seq 0 rows).

Definition get2DSpotProfile (grid : Grid) (sigmaX sigmaY gammaX gammaY : R) : list (list R) :=
  ellipticalGaussian2D (g_E grid) (g_Y grid) sigmaX sigmaY gammaX gammaY 0.

(** [data[y0]?.[x0] ?? 0] for integer indices. *)
Definition getZ2 (data : list (list R)) (y0 x0 : Z) : R :=
  if ((y0 <? 0) || (x0 <? 0))%Z%bool then 0
  else get2 data (Z.to_nat y0) (Z.to_nat x0).

Definition bilinearInterp (yAxis xAxis : list R) (data : list (list R)) (y x : R) : R :=
  let yMin := get yAxis 0 in
  let yMax := get yAxis (length yAxis - 1) in
  let xMin := get xAxis 0 in
  let xMax := get xAxis (length xAxis - 1) in
  if Rlt_dec y yMin then 0
  else if Rgt_dec y yMax then 0
  else if Rlt_dec x xMin then 0
  else if Rgt_dec x xMax then 0
  else
    let yStep := (yMax - yMin) / (INR (length yAxis) - 1) in
    let xStep := (xMax - xMin) / (INR (length xAxis) - 1) in
    let yi := (y - yMin) / yStep in
    let xi := (x - xMin) / xStep in
    let y0 := Math_floor yi in
    let x0 := Math_floor xi in
    let y1 := Z.min (y0 + 1) (Z.of_nat (length yAxis) - 1) in
    let x1 := Z.min (x0 + 1) (Z.of_nat (length xAxis) - 1) in
    let yt := yi - IZR y0 in
    let xt := xi - IZR x0 in
    let v00 := getZ2 data y0 x0 in
    let v01 := getZ2 data y0 x1 in
    let v10 := getZ2 data y1 x0 in
    let v11 := getZ2 data y1 x1 in
    v00 * (1 - xt) * (1 - yt) + v01 * xt * (1 - yt) + v10 * (1 - xt) * yt + v11 * xt * yt.

Definition projectTo1D (grid : Grid) (image2D : list (list R))
    (kappa theta sigmaSource sigmaDetector : R) : list R :=
  let thetaRad := theta * PI / 180 in
  let cosTheta := cos thetaRad in
  let sinTheta := sin thetaRad in
  let rows := length (g_yAxis grid) in
  let cols := length (g_eAxis grid) in
  let yMax := Math_max_list (map Rabs (g_yAxis grid)) in
  let distortedImg :=
    map (fun i =>
           map (fun j =>
                  let e := get2 (g_E grid) i j in
                  let y := get2 (g_Y grid) i j in
                  let yNorm := y / yMax in
                  let eSrc := e * cosTheta + y * sinTheta in
                  let ySrc := - e * sinTheta + y * cosTheta in
                  let eSrcCurved := eSrc - kappa * (yNorm * yNorm) in
                  bilinearInterp (g_yAxis grid) (g_eAxis grid) image2D ySrc eSrcCurved)
               (seq 0 cols))
        (seq 0 rows) in
  let spec1D :=
    map (fun j => Rsum (map (fun i => get2 distortedImg i j) (seq 0 rows))) (seq 0 cols) in
  let spec1D :=
    if Rgt_dec sigmaSource 0
    then convolve spec1D (gaussianKernel sigmaSource (g_de grid)) else spec1D in
  let spec1D :=
    if Rgt_dec sigmaDetector 0
    then convolve spec1D (gaussianKernel sigmaDetector (g_de grid)) else spec1D in
  spec1D.

(** [gradient]; every use has [data.length >= 2]. *)
Definition gradient (data : list R) (dx : R) : list R :=
  let n := length data in
  map (fun i =>
         if (i =? n - 1)%nat then (get data (n - 1) - get data (n - 2)) / dx
         else if (i =? 0)%nat then (get data 1 - get data 0) / dx
         else (get data (i + 1) - get data (i - 1)) / (2 * dx))
      (seq 0 n).

(** [Array.prototype.map] whose callback also advances a state (a random
    generator): the elements are visited from left to right. *)
Fixpoint mapi_st {A B St : Type} (k : nat) (f : A -> nat -> St -> B * St)
    (l : list A) (st : St) : list B * St :=
  match l with
  | [] => ([], st)
  | x :: t =>
      let (y, st) := f x k st in
      let (ys, st) := mapi_st (S k) f t st in
      (y :: ys, st)
  end.

Section MathRandom.

(** [Math.random]: the engine's generator, of unknown state and law. *)
Variable RandState : Type.
Variable Math_random : RandState -> R * RandState.

Definition addNoise (spectrum : list R) (poissonLevel gaussianLevel : R)
    (rs : RandState) : list R * RandState :=
  mapi_st 0
    (fun val (_ : nat) rs =>
       let noisy := val in
       let (noisy, rs) :=
         if Rgt_dec poissonLevel 1e-5 then
           let scaleFactor := 1000.0 / poissonLevel in
           let lambda := val * scaleFactor in
           let (u1, rs) := Math_random rs in
           let (u2, rs) := Math_random rs in
           let z := sqrt (-2 * ln u1) * cos (2 * PI * u2) in
           ((lambda + z * sqrt (Rmax lambda 0)) / scaleFactor, rs)
         else (noisy, rs) in
       let (noisy, rs) :=
         if Rgt_dec gaussianLevel 0 then
           let (u1, rs) := Math_random rs in
           let (u2, rs) := Math_random rs in
           let z := sqrt (-2 * ln u1) * cos (2 * PI * u2) in
           (noisy + z * (gaussianLevel / 100), rs)
         else (noisy, rs) in
       (Rmax 0 noisy, rs))
    spectrum rs.

Definition simulate (params : SimulatorParams) (rs : RandState)
    : SimulationResult * RandState :=
  let gridExtended := createGrid (-0.15) 0.15 750 (-10) 10 200 in
  let grid := createGrid (-0.1) 0.1 500 (-10) 10 200 in
  let sigmaSourceEV := sigmaX params / 1000 in
  let sigmaDetectorEV := sigmaRes params / 1000 in
  let sigmaCombinedMeV := sqrt (sigmaX params ^ 2 + sigmaRes params ^ 2) in
  let idealFDExtended := fermiDirac (g_eAxis gridExtended) (temp params) 0 in
  let image2DExtended :=
    generate2DEmission gridExtended idealFDExtended
      (sigmaY params) (gammaY params) (alpha params) in
  let spotProfile :=
    get2DSpotProfile grid sigmaSourceEV (sigmaY params) (gammaX params) (gammaY params) in
  let spectrumRawExtended :=
    projectTo1D gridExtended image2DExtended (kappa params) (theta params)
      sigmaSourceEV sigmaDetectorEV in
  let spectrumRaw :=
    interp (g_eAxis grid) (g_eAxis gridExtended) spectrumRawExtended None None in
  let maxVal := Math_max_list spectrumRaw in
  let spectrumClean := map (fun v => v / (maxVal + 1e-12)) spectrumRaw in
  let (spectrum, rs) :=
    addNoise spectrumClean
      (match poissonNoise params with Some v => v | None => 0 end)
      (match gaussianNoise params with Some v => v | None => 0 end) rs in
  let idealFD := fermiDirac (g_eAxis grid) (temp params) 0 in
  let stepFD := fermiDirac (g_eAxis gridExtended) 0.01 0 in
  let stepImage :=
    generate2DEmission gridExtended stepFD (sigmaY params) (gammaY params) (alpha params) in
  let stepSpectrumExtended :=
    projectTo1D gridExtended stepImage (kappa params) (theta params)
      sigmaSourceEV sigmaDetectorEV in
  let stepSpectrum :=
    interp (g_eAxis grid) (g_eAxis gridExtended) stepSpectrumExtended None None in
  let irfRaw := gradient stepSpectrum (g_de grid) in
  let irfMax := Math_max_list (map Rabs irfRaw) in
  let irf := map (fun v => - v / (irfMax + 1e-12)) irfRaw in
  let image2D :=
    generate2DEmission grid idealFD (sigmaY params) (gammaY params) (alpha params) in
  ({| energy := map (fun e => e * 1000) (g_eAxis grid);
      spectrum := spectrum;
      spectrumClean := spectrumClean;
      idealFD := idealFD;
      irf := irf;
      image2D := image2D;
      spotProfile := spotProfile;
      yAxis := g_yAxis grid;
      sigmaSource := sigmaX params;
      sigmaDetector := sigmaRes params;
      sigmaCombined := sigmaCombinedMeV |}, rs).

End MathRandom.

Arguments addNoise {RandState} Math_random spectrum poissonLevel gaussianLevel rs.
Arguments simulate {RandState} Math_random params rs.



Definition defaultParams : SimulatorParams :=
  {| sigmaX := 0.5; sigmaY := 0.5; alpha := 0.002; gammaX := 0.0; gammaY := 0.0;
     kappa := 0.01; theta := 0.08; sigmaRes := 1.5; temp := 5.0;
     poissonNoise := Some 2.0; gaussianNoise := Some 1.0 |}.

(** ** Optimizers (optimization.ts) *)

Record OptimizationBounds := {
  lower : list R;
  upper : list R
}.

(** The objective and the progress callback are JavaScript closures: they
    may read and write state of their own (an evaluation counter, a message
    queue).  [W] is that state; a pure objective returns it unchanged. *)
(** [maxIterations] is a count of iterations and is modelled as an integer. *)
Record DEOptions (W : Type) := {
  de_maxIterations : option Z;
  de_populationSize : option nat;
  de_mutationFactor : option R;
  de_crossoverRate : option R;
  de_tolerance : option R;
  de_seed : option Z;
  de_onProgress : option (nat -> R -> W -> W)
}.

Arguments de_maxIterations {W} _.
Arguments de_populationSize {W} _.
Arguments de_mutationFactor {W} _.
Arguments de_crossoverRate {W} _.
Arguments de_tolerance {W} _.
Arguments de_seed {W} _.
Arguments de_onProgress {W} _.

Record DEResult := {
  de_x : list R;
  de_fitness : R;
  de_iterations : nat;
  de_converged : bool
}.

Definition orDefault {A : Type} (o : option A) (d : A) : A :=
  match o with Some v => v | None => d end.

(** The variables of [differentialEvolution] that its loops update. *)
Record DEState (W : Type) := {
  population : list (list R);
  fitness : list R;
  bestIdx : nat;
  bestFitness : R;
  bestIndividual : list R;
  rng : Z;
  world : W
}.

Arguments population {W} _.
Arguments fitness {W} _.
Arguments bestIdx {W} _.
Arguments bestFitness {W} _.
Arguments bestIndividual {W} _.
Arguments rng {W} _.
Arguments world {W} _.

(** The [while (candidates.length < 3)] loop.  Nothing in the source bounds
    the number of draws it takes (with fewer than four individuals it never
    ends), so the model counts them down from [fuel]. *)
Fixpoint selectCandidates (fuel : nat) (populationSize : nat) (i : nat)
    (candidates : list Z) (seed : Z) : option (list Z * Z) :=
  match fuel with
  | O => if (3 <=? length candidates)%nat then Some (candidates, seed) else None
  | S fuel' =>
      if (3 <=? length candidates)%nat then Some (candidates, seed)
      else
        let (u, seed) := random seed in
        let idx := Math_floor (u * INR populationSize) in
        if (negb (idx =? Z.of_nat i)%Z && negb (existsb (Z.eqb idx) candidates))%bool
        then selectCandidates fuel' populationSize i (candidates ++ [idx]) seed
        else selectCandidates fuel' populationSize i candidates seed
  end.

(** Crossover: the callback of [population[i].map] that builds the trial. *)
Definition crossover (crossoverRate : R) (dim : nat) (donor : list R)
    (val : R) (j : nat) (seed : Z) : R * Z :=
  let (u, seed) := random seed in
  if Rlt_dec u crossoverRate then (get donor j, seed)
  else
    let (u', seed) := random seed in
    if (Z.of_nat j =? Math_floor (u' * INR dim))%Z then (get donor j, seed)
    else (val, seed).

Definition makeTrial (crossoverRate : R) (dim : nat) (donor target : list R)
    (seed : Z) : list R * Z :=
  mapi_st 0 (crossover crossoverRate dim donor) target seed.

Definition makeDonor (bounds : OptimizationBounds) (mutationFactor : R) (dim : nat)
    (pa pb pc : list R) : list R :=
  let donor := mapi (fun val j => val + mutationFactor * (get pb j - get pc j)) pa in
  fold_left
    (fun donor j =>
       set_nth j (Rmax (get (lower bounds) j) (Rmin (get (upper bounds) j) (get donor j))) donor)
    (seq 0 dim) donor.

Section DifferentialEvolution.

Variable W : Type.
Variable objective : list R -> W -> R * W.
Variable bounds : OptimizationBounds.
Variable options : DEOptions W.

Let maxIterations : Z := orDefault (de_maxIterations options) 100%Z.
Let populationSize : nat := orDefault (de_populationSize options) 15%nat.
Let mutationFactor : R := orDefault (de_mutationFactor options) 0.8.
Let crossoverRate : R := orDefault (de_crossoverRate options) 0.7.
Let tolerance : R := orDefault (de_tolerance options) 1e-8.
Let seed0 : Z := orDefault (de_seed options) 42%Z.
Let dim : nat := length (lower bounds).

(** The initialisation loop, [n] individuals still to create. *)
Fixpoint initPopulation (n : nat) (seed : Z) (w : W)
    : list (list R) * list R * Z * W :=
  match n with
  | O => ([], [], seed, w)
  | S n' =>
      let (individual, seed) :=
        mapi_st 0
          (fun low j seed =>
             let high := get (upper bounds) j in
             let (u, seed) := random seed in
             (low + u * (high - low), seed))
          (lower bounds) seed in
      let (f, w) := objective individual w in
      let '(pop, fit, seed, w) := initPopulation n' seed w in
      (individual :: pop, f :: fit, seed, w)
  end.

(** The search for the best initial individual, over [i = 1 .. n-1]. *)
Definition findBest (fit : list R) : nat * R :=
  fold_left
    (fun (acc : nat * R) i =>
       if Rlt_dec (get fit i) (snd acc) then (i, get fit i) else acc)
    (seq 1 (populationSize - 1)) (0%nat, get fit 0).

(** The body of the sweep [for (let i = 0; i < populationSize; i++)]. *)
Definition deStep (fuel : nat) (i : nat) (st : DEState W) : option (DEState W) :=
  match selectCandidates fuel populationSize i [] (rng st) with
  | None => None
  | Some (candidates, seed) =>
      let a := Z.to_nat (nth 0 candidates 0%Z) in
      let b := Z.to_nat (nth 1 candidates 0%Z) in
      let c := Z.to_nat (nth 2 candidates 0%Z) in
      let donor :=
        makeDonor bounds mutationFactor dim
          (nth a (population st) []) (nth b (population st) [])
          (nth c (population st) []) in
      let (trial, seed) := makeTrial crossoverRate dim donor (nth i (population st) []) seed in
      let (trialFitness, w) := objective trial (world st) in
      if Rlt_dec trialFitness (get (fitness st) i) then
        let population' := set_nth i trial (population st) in
        let fitness' := set_nth i trialFitness (fitness st) in
        if Rlt_dec trialFitness (bestFitness st) then
          Some {| population := population'; fitness := fitness';
                  bestIdx := i; bestFitness := trialFitness; bestIndividual := trial;
                  rng := seed; world := w |}
        else
          Some {| population := population'; fitness := fitness';
                  bestIdx := bestIdx st; bestFitness := bestFitness st;
                  bestIndividual := bestIndividual st;
                  rng := seed; world := w |}
      else
        Some {| population := population st; fitness := fitness st;
                bestIdx := bestIdx st; bestFitness := bestFitness st;
                bestIndividual := bestIndividual st;
                rng := seed; world := w |}
  end.

Fixpoint deSweep (fuel : nat) (targets : list nat) (st : DEState W)
    : option (DEState W) :=
  match targets with
  | [] => Some st
  | i :: rest =>
      match deStep fuel i st with
      | None => None
      | Some st' => deSweep fuel rest st'
      end
  end.

(** The main loop [while (iteration < maxIterations && !converged)], with
    [n] the number of iterations still allowed. *)
Fixpoint deLoop (fuel : nat) (n : nat) (iteration : nat) (prevBestFitness : R)
    (st : DEState W) : option (DEState W * nat * bool) :=
  match n with
  | O => Some (st, iteration, false)
  | S n' =>
      match deSweep fuel (seq 0 populationSize) st with
      | None => None
      | Some st =>
          let iteration := S iteration in
          let w := match de_onProgress options with
                   | Some onProgress => onProgress iteration (bestFitness st) (world st)
                   | None => world st
                   end in
          let st := {| population := population st; fitness := fitness st;
                       bestIdx := bestIdx st; bestFitness := bestFitness st;
                       bestIndividual := bestIndividual st;
                       rng := rng st; world := w |} in
          if Rlt_dec (Rabs (bestFitness st - prevBestFitness)) tolerance
          then Some (st, iteration, true)
          else deLoop fuel n' iteration (bestFitness st) st
      end
  end.

(** With an empty population the source raises at
    [[...population[bestIdx]]]; statements about the returned vector assume
    [1 <= populationSize]. *)
Definition deInit (w : W) : DEState W :=
  let '(pop, fit, seed, w) := initPopulation populationSize seed0 w in
  let (bestIdx0, bestFitness0) := findBest fit in
  {| population := pop; fitness := fit;
     bestIdx := bestIdx0; bestFitness := bestFitness0;
     bestIndividual := nth bestIdx0 pop [];
     rng := seed; world := w |}.

Definition differentialEvolution (fuel : nat) (w : W) : option (DEResult * W) :=
  let st := deInit w in
  match deLoop fuel (Z.to_nat maxIterations) 0 (bestFitness st) st with
  | None => None
  | Some (st, iteration, converged) =>
      Some ({| de_x := bestIndividual st; de_fitness := bestFitness st;
               de_iterations := iteration; de_converged := converged |},
            world st)
  end.

End DifferentialEvolution.

Arguments initPopulation {W} objective bounds n seed w.
Arguments findBest {W} options fit.
Arguments deStep {W} objective bounds options fuel i st.
Arguments deSweep {W} objective bounds options fuel targets st.
Arguments deLoop {W} objective bounds options fuel n iteration prevBestFitness st.
Arguments deInit {W} objective bounds options w.
Arguments differentialEvolution {W} objective bounds options fuel w.

Record LMOptions := {
  lm_maxIterations : option Z;
  lm_tolerance : option R;
  lm_lambda : option R;
  lm_lambdaUp : option R;
  lm_lambdaDown : option R
}.

Record LMResult := {
  lm_x : list R;
  lm_residuals : list R;
  lm_jacobian : list (list R);
  lm_covariance : list (list R);
  lm_iterations : nat;
  lm_converged : bool
}.

Definition computeJacobian (func : list R -> list R) (params : list R) (delta : R)
    : list (list R) :=
  let residuals := func params in
  let n := length residuals in
  let p := length params in
  map (fun i =>
         map (fun j =>
                let paramsPlus := set_nth j (get params j + delta) params in
                let residualsPlus := func paramsPlus in
                (get residualsPlus i - get residuals i) / delta)
             (seq 0 p))
      (seq 0 n).

(** One column of the elimination in [solve]. *)
Definition solveColumn (n : nat) (aug : list (list R)) (col : nat) : list (list R) :=
  let '(maxRow, _) :=
    fold_left
      (fun (acc : nat * R) row =>
         if Rgt_dec (Rabs (get2 aug row col)) (snd acc)
         then (row, Rabs (get2 aug row col)) else acc)
      (seq (col + 1) (n - (col + 1))) (col, Rabs (get2 aug col col)) in
  let rowCol := nth col aug [] in
  let rowMax := nth maxRow aug [] in
  let aug := set_nth maxRow rowCol (set_nth col rowMax aug) in
  let aug :=
    if Rlt_dec (Rabs (get2 aug col col)) 1e-12
    then set_nth col (set_nth col 1e-12 (nth col aug [])) aug else aug in
  fold_left
    (fun aug row =>
       let factor := get2 aug row col / get2 aug col col in
       set_nth row
         (mapi (fun v j =>
                  if ((col <=? j)%nat && (j <=? n)%nat)%bool
                  then v - factor * get2 aug col j else v)
               (nth row aug []))
         aug)
    (seq (col + 1) (n - (col + 1))) aug.

Definition solve (A : list (list R)) (b : list R) : list R :=
  let n := length A in
  let aug := mapi (fun row i => row ++ [get b i]) A in
  let aug := fold_left (solveColumn n) (seq 0 n) aug in
  fold_left
    (fun x i =>
       let xi :=
         fold_left (fun acc j => acc - get2 aug i j * get x j)
                   (seq (i + 1) (n - (i + 1))) (get2 aug i n) in
       set_nth i (xi / get2 aug i i) x)
    (rev (seq 0 n)) (repeat 0 n).

Definition inverse (A : list (list R)) : list (list R) :=
  let n := length A in
  map (fun j =>
         map (fun i =>
                let ei := set_nth i 1 (repeat 0 n) in
                get (solve A ei) j)
             (seq 0 n))
      (seq 0 n).

Definition sumSquares (residuals : list R) : R :=
  fold_left (fun sum r => sum + r * r) residuals 0.

(** [J'J], as both loops of [levenbergMarquardt] compute it. *)
Definition JTJ (p : nat) (jacobian : list (list R)) (residuals : list R) : list (list R) :=
  map (fun i =>
         map (fun j =>
                fold_left (fun sum k => sum + get2 jacobian k i * get2 jacobian k j)
                          (seq 0 (length residuals)) 0)
             (seq 0 p))
      (seq 0 p).

Record LMState := {
  s_params : list R;
  s_residuals : list R;
  s_cost : R;
  s_lambda : R;
  s_jacobian : list (list R);
  s_iteration : nat;
  s_converged : bool
}.

Section LevenbergMarquardt.

Variable func : list R -> list R.
Variable initialParams : list R.
Variable options : LMOptions.

Let maxIterations : Z := orDefault (lm_maxIterations options) 100%Z.
Let tolerance : R := orDefault (lm_tolerance options) 1e-8.
Let initialLambda : R := orDefault (lm_lambda options) 0.001.
Let lambdaUp : R := orDefault (lm_lambdaUp options) 10.
Let lambdaDown : R := orDefault (lm_lambdaDown options) 0.1.
Let p : nat := length initialParams.

(** One turn of [while (iteration < maxIterations && !converged)]. *)
Definition lmStep (st : LMState) : LMState :=
  let JTJ_proper := JTJ p (s_jacobian st) (s_residuals st) in
  let JTr :=
    map (fun i =>
           fold_left (fun acc k => acc + get2 (s_jacobian st) k i * get (s_residuals st) k)
                     (seq 0 (length (s_residuals st))) 0)
        (seq 0 p) in
  let damped :=
    mapi (fun row i =>
            mapi (fun val j =>
                    if (i =? j)%nat then val + s_lambda st * (val + 1e-10) else val) row)
         JTJ_proper in
  let negJTr := map (fun v => - v) JTr in
  let delta := solve damped negJTr in
  let newParams := mapi (fun p i => p + get delta i) (s_params st) in
  let newResiduals := func newParams in
  let newCost := sumSquares newResiduals in
  if Rlt_dec newCost (s_cost st) then
    let improvement := s_cost st - newCost in
    let cost := newCost in
    {| s_params := newParams;
       s_residuals := newResiduals;
       s_cost := cost;
       s_lambda := s_lambda st * lambdaDown;
       s_jacobian := computeJacobian func newParams 1e-7;
       s_iteration := S (s_iteration st);
       s_converged :=
         if Rlt_dec improvement (tolerance * cost) then true
         else if Rlt_dec (Math_max_list (map Rabs delta)) tolerance then true
         else false |}
  else
    {| s_params := s_params st;
       s_residuals := s_residuals st;
       s_cost := s_cost st;
       s_lambda := s_lambda st * lambdaUp;
       s_jacobian := s_jacobian st;
       s_iteration := S (s_iteration st);
       s_converged := s_converged st |}.

Fixpoint lmLoop (n : nat) (st : LMState) : LMState :=
  match n with
  | O => st
  | S n' =>
      if s_converged st then st else lmLoop n' (lmStep st)
  end.

Definition levenbergMarquardt : LMResult :=
  let residuals := func initialParams in
  let st :=
    lmLoop (Z.to_nat maxIterations)
      {| s_params := initialParams;
         s_residuals := residuals;
         s_cost := sumSquares residuals;
         s_lambda := initialLambda;
         s_jacobian := computeJacobian func initialParams 1e-7;
         s_iteration := 0;
         s_converged := false |} in
  let JTJ_final :=
    mapi (fun row i => mapi (fun v j => if (i =? j)%nat then v + 1e-10 else v) row)
         (JTJ p (s_jacobian st) (s_residuals st)) in
  let variance :=
    s_cost st / Rmax 1 (IZR (Z.of_nat (length (s_residuals st)) - Z.of_nat p)) in
  let invJTJ := inverse JTJ_final in
  let maxVal := Math_max_list (map Rabs (concat invJTJ)) in
  let covariance :=
    if Rgt_dec maxVal 1e10 then
      let scale :=
        s_cost st / Rmax 1 (IZR (Z.of_nat (length (s_residuals st)) - Z.of_nat p)) in
      map (fun i => map (fun j => if (i =? j)%nat then scale * 0.01 else 0) (seq 0 p))
          (seq 0 p)
    else map (map (fun v => v * variance)) invJTJ in
  {| lm_x := s_params st;
     lm_residuals := s_residuals st;
     lm_jacobian := s_jacobian st;
     lm_covariance := covariance;
     lm_iterations := s_iteration st;
     lm_converged := s_converged st |}.

End LevenbergMarquardt.

Record CurveFitOptions (W : Type) := {
  useGlobalOpt : option bool;
  deOptions : option (DEOptions W);
  lmOptions : option LMOptions
}.

Arguments useGlobalOpt {W} _.
Arguments deOptions {W} _.
Arguments lmOptions {W} _.

(** [paramErrors] holds [None] for the not-a-number marker. *)
Record CurveFitResult := {
  cf_params : list R;
  cf_paramErrors : list (option R);
  cf_covariance : list (list R);
  cf_residuals : list R;
  cf_rSquared : R;
  cf_converged : bool
}.

Definition noDEOptions (W : Type) : DEOptions W :=
  {| de_maxIterations := None; de_populationSize := None; de_mutationFactor := None;
     de_crossoverRate := None; de_tolerance := None; de_seed := None;
     de_onProgress := None |}.

Definition noLMOptions : LMOptions :=
  {| lm_maxIterations := None; lm_tolerance := None; lm_lambda := None;
     lm_lambdaUp := None; lm_lambdaDown := None |}.

(** The parameter errors of [curveFit], from the covariance diagonal. *)
Definition paramErrorsOf (covariance : list (list R)) (finalParams : list R)
    : list (option R) :=
  mapi (fun row i =>
          let err := sqrt (Rabs (get row i)) in
          let paramValue := Rabs (get finalParams i) + 1e-10 in
          if Rgt_dec err 1e6 then None
          else if Rgt_dec err (paramValue * 100) then None
          else Some err)
       covariance.

Definition curveFit {W : Type} (model : list R -> list R -> list R)
    (xData yData initialParams : list R) (bounds : OptimizationBounds)
    (options : CurveFitOptions W) (fuel : nat) (w : W)
    : option (CurveFitResult * W) :=
  let useGlobalOpt' := orDefault (useGlobalOpt options) true in
  let deOptions' := orDefault (deOptions options) (noDEOptions W) in
  let lmOptions' := orDefault (lmOptions options) noLMOptions in
  let residualFunc := fun params =>
    let predicted := model xData params in
    mapi (fun y i => y - get predicted i) yData in
  let objective := fun params (w : W) => (sumSquares (residualFunc params), w) in
  let globalStep :=
    if useGlobalOpt' then
      match
        differentialEvolution objective bounds
          {| de_maxIterations := Some (orDefault (de_maxIterations deOptions') 100%Z);
             de_populationSize := Some (orDefault (de_populationSize deOptions') 15%nat);
             de_mutationFactor := de_mutationFactor deOptions';
             de_crossoverRate := de_crossoverRate deOptions';
             de_tolerance := de_tolerance deOptions';
             de_seed := de_seed deOptions';
             de_onProgress := de_onProgress deOptions' |} fuel w
      with
      | None => None
      | Some (deResult, w) => Some (de_x deResult, w)
      end
    else Some (initialParams, w) in
  match globalStep with
  | None => None
  | Some (optimizedParams, w) =>
      let lmResult := levenbergMarquardt residualFunc optimizedParams lmOptions' in
      let finalParams :=
        mapi (fun p i => Rmax (get (lower bounds) i) (Rmin (get (upper bounds) i) p))
             (lm_x lmResult) in
      let yMean := fold_left Rplus yData 0 / INR (length yData) in
      let ssTot := fold_left (fun sum y => sum + (y - yMean) ^ 2) yData 0 in
      let ssRes := sumSquares (lm_residuals lmResult) in
      let rSquared := 1 - ssRes / ssTot in
      let paramErrors := paramErrorsOf (lm_covariance lmResult) finalParams in
      Some ({| cf_params := finalParams;
               cf_paramErrors := paramErrors;
               cf_covariance := lm_covariance lmResult;
               cf_residuals := lm_residuals lmResult;
               cf_rSquared := rSquared;
               cf_converged := lm_converged lmResult |}, w)
  end.

(** ** Fitting (fitting.ts) *)

(** The spacing [de] is read off the first two energies.  With
    [energy[0] = energy[1]] the source never returns (see [gaussianKernel]),
    and on an axis of fewer than two points its [de] is not a number;
    statements about [fermiDiracConvolved] assume at least two points, the
    first two distinct. *)
Definition fermiDiracConvolved (energy : list R) (efShift temp sigmaTotal : R) : list R :=
  let de := Rabs (get energy 1 - get energy 0) in
  let nPad := Z.to_nat (Z.max 10 (Z.min 1000 (Math_ceil (10 * sigmaTotal / de)))) in
  let ePadLeft := map (fun i => get energy 0 - INR i * de) (rev (seq 1 nPad)) in
  let ePadRight :=
    map (fun i => get energy (length energy - 1) + INR i * de) (seq 1 nPad) in
  let energyPadded := ePadLeft ++ energy ++ ePadRight in
  let fdPadded :=
    map (fun e =>
           if Rlt_dec temp 0.1 then (if Rle_dec e efShift then 1.0 else 0.0)
           else
             let val := Rmax (-100) (Rmin 100 ((e - efShift) / (KB * temp))) in
             1.0 / (exp val + 1.0))
        energyPadded in
  let kernel := gaussianKernel sigmaTotal de in
  let convolvedFull := convolve fdPadded kernel in
  firstn (length energy) (skipn nPad convolvedFull).

Definition fermiEdgeModelWithTemp (energy params : list R) : list R :=
  let efShift := get params 0 in
  let sigmaTotal := get params 1 in
  let temp := get params 2 in
  let amplitude := get params 3 in
  let offset := get params 4 in
  let conv := fermiDiracConvolved energy efShift temp sigmaTotal in
  map (fun v => amplitude * v + offset) conv.

Definition createFermiEdgeModelFixedTemp (fixedTemp : R) (energy params : list R) : list R :=
  let efShift := get params 0 in
  let sigmaTotal := get params 1 in
  let amplitude := get params 2 in
  let offset := get params 3 in
  let conv := fermiDiracConvolved energy efShift fixedTemp sigmaTotal in
  map (fun v => amplitude * v + offset) conv.

Record FermiEdgeFitResult := {
  fe_success : bool;
  fe_efShift : R;
  fe_efShiftError : option R;
  fe_sigmaTotal : R;
  fe_sigmaTotalError : option R;
  fe_tempFit : R;
  fe_tempError : option R;
  fe_amplitude : R;
  fe_offset : R;
  fe_fittedSpectrum : list R;
  fe_rSquared : R;
  fe_residuals : list R;
  fe_errorMessage : option string
}.

(** The result built by the [catch] block of [fitFermiEdge].  It is returned
    only when [curveFit] or the model raises an exception; the source holds
    no check of its inputs, and no operation of this model raises. *)
Definition fitFailure (temp : R) (message : string) : FermiEdgeFitResult :=
  {| fe_success := false;
     fe_efShift := 0; fe_efShiftError := Some 0;
     fe_sigmaTotal := 0; fe_sigmaTotalError := Some 0;
     fe_tempFit := temp; fe_tempError := Some 0;
     fe_amplitude := 0; fe_offset := 0;
     fe_fittedSpectrum := []; fe_rSquared := 0; fe_residuals := [];
     fe_errorMessage := Some message |}.

(** [paramErrors[i]]; an index outside the array is [undefined]. *)
Definition getErr (l : list (option R)) (i : nat) : option R := nth i l None.

Definition fitFermiEdge {W : Type} (energy observedSpectrum : list R) (temp : R)
    (fitTemp useGlobalOpt : bool) (onProgress : option (nat -> R -> W -> W))
    (fuel : nat) (w : W) : option (FermiEdgeFitResult * W) :=
  let options :=
    {| useGlobalOpt := Some useGlobalOpt;
       deOptions :=
         Some {| de_maxIterations := Some 100%Z; de_populationSize := Some 15%nat;
                 de_mutationFactor := None; de_crossoverRate := None;
                 de_tolerance := None; de_seed := None;
                 de_onProgress := onProgress |};
       lmOptions := None |} in
  if fitTemp then
    let bounds :=
      {| lower := [-0.05; 0.0001; 0.1; 0.5; -0.5];
         upper := [0.05; 0.05; 300.0; 2.0; 0.5] |} in
    let initialParams := [0.0; 0.005; temp; 1.0; 0.0] in
    match
      curveFit fermiEdgeModelWithTemp energy observedSpectrum initialParams bounds
               options fuel w
    with
    | None => None
    | Some (result, w) =>
        let efShift := get (cf_params result) 0 in
        let sigmaTotal := get (cf_params result) 1 in
        let tempFit := get (cf_params result) 2 in
        let amplitude := get (cf_params result) 3 in
        let offset := get (cf_params result) 4 in
        let fittedSpectrum := fermiEdgeModelWithTemp energy (cf_params result) in
        Some ({| fe_success := true;
                 fe_efShift := efShift;
                 fe_efShiftError := getErr (cf_paramErrors result) 0;
                 fe_sigmaTotal := sigmaTotal;
                 fe_sigmaTotalError := getErr (cf_paramErrors result) 1;
                 fe_tempFit := tempFit;
                 fe_tempError := getErr (cf_paramErrors result) 2;
                 fe_amplitude := amplitude;
                 fe_offset := offset;
                 fe_fittedSpectrum := fittedSpectrum;
                 fe_rSquared := cf_rSquared result;
                 fe_residuals := cf_residuals result;
                 fe_errorMessage := None |}, w)
    end
  else
    let model := createFermiEdgeModelFixedTemp temp in
    let bounds :=
      {| lower := [-0.05; 0.0001; 0.5; -0.5];
         upper := [0.05; 0.05; 2.0; 0.5] |} in
    let initialParams := [0.0; 0.005; 1.0; 0.0] in
    match
      curveFit model energy observedSpectrum initialParams bounds options fuel w
    with
    | None => None
    | Some (result, w) =>
        let efShift := get (cf_params result) 0 in
        let sigmaTotal := get (cf_params result) 1 in
        let amplitude := get (cf_params result) 2 in
        let offset := get (cf_params result) 3 in
        let fittedSpectrum := model energy (cf_params result) in
        Some ({| fe_success := true;
                 fe_efShift := efShift;
                 fe_efShiftError := getErr (cf_paramErrors result) 0;
                 fe_sigmaTotal := sigmaTotal;
                 fe_sigmaTotalError := getErr (cf_paramErrors result) 1;
                 fe_tempFit := temp;
                 fe_tempError := Some 0;
                 fe_amplitude := amplitude;
                 fe_offset := offset;
                 fe_fittedSpectrum := fittedSpectrum;
                 fe_rSquared := cf_rSquared result;
                 fe_residuals := cf_residuals result;
                 fe_errorMessage := None |}, w)
    end.

Record IRFParameters := {
  p_kappa : R;
  p_theta : R;
  p_sigmaRes : R;
  p_alpha : R;
  p_sigmaX : R;
  p_sigmaY : R;
  p_gammaX : R;
  p_gammaY : R
}.

Record IRFEstimationResult := {
  ir_success : bool;
  ir_parameters : IRFParameters;
  ir_fittedSpectrum : list R;
  ir_estimatedIRF : list R;
  ir_finalLoss : R;
  ir_iterations : nat;
  ir_evaluations : nat;
  ir_message : string
}.

Record IRFBounds := {
  b_kappa : R * R;
  b_theta : R * R;
  b_sigmaRes : R * R;
  b_alpha : R * R;
  b_sigmaX : R * R;
  b_sigmaY : R * R;
  b_gammaX : R * R;
  b_gammaY : R * R
}.

Definition defaultIRFBounds : IRFBounds :=
  {| b_kappa := (0.0, 0.1);
     b_theta := (-0.5, 0.5);
     b_sigmaRes := (0.1, 10.0);
     b_alpha := (-0.01, 0.01);
     b_sigmaX := (0.01, 5.0);
     b_sigmaY := (0.01, 5.0);
     b_gammaX := (-5.0, 5.0);
     b_gammaY := (-10.0, 10.0) |}.

Definition paramNames : list (IRFBounds -> R * R) :=
  [b_kappa; b_theta; b_sigmaRes; b_alpha; b_sigmaX; b_sigmaY; b_gammaX; b_gammaY].

(** The [SimulatorParams] both the objective and the final simulation of
    [estimateIRFParameters] build from a parameter vector. *)
Definition simParamsOf (params : list R) (temp : R) : SimulatorParams :=
  {| kappa := get params 0;
     theta := get params 1;
     sigmaRes := get params 2;
     alpha := get params 3;
     sigmaX := get params 4;
     sigmaY := get params 5;
     gammaX := get params 6;
     gammaY := get params 7;
     temp := temp;
     poissonNoise := Some 0;
     gaussianNoise := Some 0 |}.

(** What the closures of [estimateIRFParameters] can change: the counter
    [evaluationCount], the state of [Math.random], and the state [W] of the
    caller's progress callback. *)
Record EstWorld (RandState W : Type) := {
  evaluationCount : nat;
  randState : RandState;
  progressState : W
}.

Arguments evaluationCount {RandState W} _.
Arguments randState {RandState W} _.
Arguments progressState {RandState W} _.

Section EstimateIRF.

Variable RandState : Type.
Variable Math_random : RandState -> R * RandState.
Variable W : Type.

(** On an empty observed spectrum the source's mean is 0 / 0 (not a
    number); what is proved of the objective's values assumes a non-empty
    one.  The evaluation counter and the generator do not depend on it. *)
Definition irfObjective (observedSpectrum : list R) (temp : R) (params : list R)
    (ew : EstWorld RandState W) : R * EstWorld RandState W :=
  let count := S (evaluationCount ew) in
  let simParams := simParamsOf params temp in
  let (result, rs) := simulate Math_random simParams (randState ew) in
  let maxSim := Math_max_list (spectrumClean result) in
  let simNorm := map (fun v => v / (maxSim + 1e-12)) (spectrumClean result) in
  let maxObs := Math_max_list observedSpectrum in
  let obsNorm := map (fun v => v / (maxObs + 1e-12)) observedSpectrum in
  let n := Nat.min (length simNorm) (length obsNorm) in
  let mse :=
    fold_left (fun mse i => mse + (get obsNorm i - get simNorm i) ^ 2) (seq 0 n) 0 in
  let mse := mse / INR n in
  (mse, {| evaluationCount := count; randState := rs;
           progressState := progressState ew |}).

Definition estimateIRFParameters (observedSpectrum : list R) (temp : R)
    (bounds : IRFBounds) (maxIterations : Z)
    (onProgress : option (nat -> R -> W -> W))
    (fuel : nat) (rs : RandState) (w : W)
    : option (IRFEstimationResult * RandState * W) :=
  let boundsArray :=
    {| lower := map (fun name => fst (name bounds)) paramNames;
       upper := map (fun name => snd (name bounds)) paramNames |} in
  let objective := irfObjective observedSpectrum temp in
  let progress :=
    match onProgress with
    | Some cb =>
        Some (fun iteration loss (ew : EstWorld RandState W) =>
                {| evaluationCount := evaluationCount ew;
                   randState := randState ew;
                   progressState := cb iteration loss (progressState ew) |})
    | None => None
    end in
  match
    differentialEvolution objective boundsArray
      {| de_maxIterations := Some maxIterations;
         de_populationSize := Some 15%nat;
         de_mutationFactor := None; de_crossoverRate := None; de_tolerance := None;
         de_seed := Some 42%Z;
         de_onProgress := progress |}
      fuel {| evaluationCount := 0; randState := rs; progressState := w |}
  with
  | None => None
  | Some (deResult, ew) =>
      let optimalParams := simParamsOf (de_x deResult) temp in
      let (fittedResult, rs) := simulate Math_random optimalParams (randState ew) in
      let maxFitted := Math_max_list (spectrumClean fittedResult) in
      let fittedSpectrum :=
        map (fun v => v / (maxFitted + 1e-12)) (spectrumClean fittedResult) in
      let estimatedIRF := irf fittedResult in
      Some ({| ir_success := de_converged deResult;
               ir_parameters :=
                 {| p_kappa := get (de_x deResult) 0;
                    p_theta := get (de_x deResult) 1;
                    p_sigmaRes := get (de_x deResult) 2;
                    p_alpha := get (de_x deResult) 3;
                    p_sigmaX := get (de_x deResult) 4;
                    p_sigmaY := get (de_x deResult) 5;
                    p_gammaX := get (de_x deResult) 6;
                    p_gammaY := get (de_x deResult) 7 |};
               ir_fittedSpectrum := fittedSpectrum;
               ir_estimatedIRF := estimatedIRF;
               ir_finalLoss := de_fitness deResult;
               ir_iterations := de_iterations deResult;
               ir_evaluations := evaluationCount ew;
               ir_message :=
                 if de_converged deResult then "Optimization converged"%string
                 else "Maximum iterations reached"%string |},
            rs, progressState ew)
  end.

End EstimateIRF.

Arguments irfObjective {RandState} Math_random {W} observedSpectrum temp params ew.
Arguments estimateIRFParameters {RandState} Math_random {W} observedSpectrum temp
  bounds maxIterations onProgress fuel rs w.



(** ** Fitting worker (fitting.worker.ts) *)

(** Messages into the worker; [OtherMessage] stands for a message whose
    [type] is neither of the two the worker serves. *)
Inductive WorkerIncomingMessage :=
| FitFermiEdgeMessage (id : string) (energyAxis observedSpectrum : list R) (temperature : R)
    (fitTemp useGlobal : bool)
| EstimateIRFMessage (id : string) (observedSpectrum : list R) (temperature : R)
    (bounds : option IRFBounds) (maxIterations : option Z)
| OtherMessage (id : string).

Inductive WorkerOutgoingMessage :=
| ProgressMessage (id : string) (iteration : nat) (fitnessValue : R) (progress : R)
| FermiResultMessage (id : string) (result : FermiEdgeFitResult)
| IRFResultMessage (id : string) (result : IRFEstimationResult)
| ErrorMessage (id : string) (error : string).

(** [ctx.postMessage]: the messages posted so far, oldest first. *)
Definition postMessage (message : WorkerOutgoingMessage)
    (outbox : list WorkerOutgoingMessage) : list WorkerOutgoingMessage :=
  outbox ++ [message].

(** The progress callback both handlers pass to the fitters. *)
Definition reportProgress (id : string) (maxIterations : Z) (iteration : nat)
    (fitnessValue : R) (outbox : list WorkerOutgoingMessage) : list WorkerOutgoingMessage :=
  postMessage
    (ProgressMessage id iteration fitnessValue
       (Rmin 100 (INR iteration / IZR maxIterations * 100)))
    outbox.

(** The [catch] blocks of the handlers post an [error] message; no operation
    of this model raises, so they are not reached. *)
Definition handleFitFermiEdge (id : string) (energyAxis observedSpectrum : list R)
    (temperature : R) (fitTemp useGlobal : bool)
    (fuel : nat) (outbox : list WorkerOutgoingMessage)
    : option (list WorkerOutgoingMessage) :=
  let maxIterations := 100%Z in
  match
    fitFermiEdge energyAxis observedSpectrum temperature fitTemp useGlobal
      (Some (reportProgress id maxIterations)) fuel outbox
  with
  | None => None
  | Some (result, outbox) => Some (postMessage (FermiResultMessage id result) outbox)
  end.

Section Worker.

Variable RandState : Type.
Variable Math_random : RandState -> R * RandState.

Definition handleEstimateIRF (id : string) (observedSpectrum : list R) (temperature : R)
    (bounds : option IRFBounds) (maxIterations : option Z)
    (fuel : nat) (rs : RandState) (outbox : list WorkerOutgoingMessage)
    : option (list WorkerOutgoingMessage * RandState) :=
  let maxIterations := orDefault maxIterations 50%Z in
  match
    estimateIRFParameters Math_random observedSpectrum temperature
      (orDefault bounds defaultIRFBounds) maxIterations
      (Some (reportProgress id maxIterations)) fuel rs outbox
  with
  | None => None
  | Some (result, rs, outbox) => Some (postMessage (IRFResultMessage id result) outbox, rs)
  end.

Definition onmessage (message : WorkerIncomingMessage)
    (fuel : nat) (rs : RandState) (outbox : list WorkerOutgoingMessage)
    : option (list WorkerOutgoingMessage * RandState) :=
  match message with
  | FitFermiEdgeMessage id energyAxis observedSpectrum temperature fitTemp useGlobal =>
      match
        handleFitFermiEdge id energyAxis observedSpectrum temperature fitTemp useGlobal
          fuel outbox
      with
      | None => None
      | Some outbox => Some (outbox, rs)
      end
  | EstimateIRFMessage id observedSpectrum temperature bounds maxIterations =>
      handleEstimateIRF id observedSpectrum temperature bounds maxIterations
        fuel rs outbox
  | OtherMessage id =>
      Some (postMessage (ErrorMessage id "Unknown message type") outbox, rs)
  end.

End Worker.

Arguments handleEstimateIRF {RandState} Math_random id observedSpectrum temperature
  bounds maxIterations fuel rs outbox.
Arguments onmessage {RandState} Math_random message fuel rs outbox.

(** ** Auxiliary definitions used in the statements below *)

(** The polynomial factor of [erf], in [t = 1 / (1 + p |x|)]. *)
Definition erfPoly (t : R) : R :=
  ((((1.061405429 * t + -1.453152027) * t + 1.421413741) * t + -0.284496736) * t
   + 0.254829592) * t.

(** The clamped exponent of [fermiDirac] with [ef = 0]. *)
Definition fdClamp (e temp : R) : R := Rmax (-100) (Rmin 100 ((e - 0) / (KB * temp))).

(** The unnormalised value of [gaussianKernel] at offset [i]. *)
Definition gaussianValue (sigma de : R) (i : Z) : R :=
  let x := IZR i * de in exp (- x * x / (2 * sigma * sigma)).


(** Two parameter sets that agree on every field but the two noise levels. *)
Definition sameExceptNoise (p1 p2 : SimulatorParams) : Prop :=
  sigmaX p1 = sigmaX p2 /\ sigmaY p1 = sigmaY p2 /\ alpha p1 = alpha p2 /\
  gammaX p1 = gammaX p2 /\ gammaY p1 = gammaY p2 /\ kappa p1 = kappa p2 /\
  theta p1 = theta p2 /\ sigmaRes p1 = sigmaRes p2 /\ temp p1 = temp p2.

(** A stand-in for [Math.random] used to instantiate the simulator at
    concrete inputs: every draw is one half. *)
Definition halfRandom (n : nat) : R * nat := (0.5, S n).

(** An objective is pure when its value does not depend on the state of the
    world it runs in. *)
Definition pureObjective {W : Type} (objective : list R -> W -> R * W) : Prop :=
  forall x w1 w2, fst (objective x w1) = fst (objective x w2).

(** Two states of a run that differ at most in the world. *)
Definition sameRun {W : Type} (s1 s2 : DEState W) : Prop :=
  population s1 = population s2 /\ fitness s1 = fitness s2 /\
  bestIdx s1 = bestIdx s2 /\ bestFitness s1 = bestFitness s2 /\
  bestIndividual s1 = bestIndividual s2 /\ rng s1 = rng s2.

(** Two optional outcomes: both missing, or both present and related. *)
Definition optRel {A : Type} (rel : A -> A -> Prop) (o1 o2 : option A) : Prop :=
  match o1, o2 with
  | Some a1, Some a2 => rel a1 a2
  | None, None => True
  | _, _ => False
  end.

(** A pure objective that also counts its calls, as the objective of
    [estimateIRFParameters] does: the square of the first component. *)
Definition countingSquare (x : list R) (calls : nat) : R * nat :=
  (get x 0 * get x 0, S calls).

Definition unitBounds : OptimizationBounds := {| lower := [0]; upper := [1] |}.

(** *** The generator's path through a run

    Which draws [differentialEvolution] takes depends on the draws alone,
    never on the objective.  The definitions below follow the seed through a
    run with integer arithmetic only (crossover rate 0.7, the default), so
    that they can be evaluated. *)

(** [Math.floor(random() * n)] from the 32-bit numerator of the draw. *)
Definition idxOf (word : Z) (n : nat) : Z := (word * Z.of_nat n / two32)%Z.

(** [random() < 0.7] from the 32-bit numerator of the draw. *)
Definition belowDefaultCR (word : Z) : bool := (10 * word <? 7 * two32)%Z.

Fixpoint selectCandidatesZ (fuel : nat) (populationSize : nat) (i : nat)
    (candidates : list Z) (seed : Z) : option (list Z * Z) :=
  match fuel with
  | O => if (3 <=? length candidates)%nat then Some (candidates, seed) else None
  | S fuel' =>
      if (3 <=? length candidates)%nat then Some (candidates, seed)
      else
        let (seed, word) := random_word seed in
        let idx := idxOf word populationSize in
        if (negb (idx =? Z.of_nat i)%Z && negb (existsb (Z.eqb idx) candidates))%bool
        then selectCandidatesZ fuel' populationSize i (candidates ++ [idx]) seed
        else selectCandidatesZ fuel' populationSize i candidates seed
  end.

(** The seed after the crossover of a target of [len] components. *)
Fixpoint trialSeed (len : nat) (seed : Z) : Z :=
  match len with
  | O => seed
  | S len' =>
      let (seed, word) := random_word seed in
      if belowDefaultCR word then trialSeed len' seed
      else trialSeed len' (fst (random_word seed))
  end.

(** The seed after [k] draws. *)
Fixpoint drawSeed (k : nat) (seed : Z) : Z :=
  match k with
  | O => seed
  | S k' => drawSeed k' (fst (random_word seed))
  end.

(** The seed after the initialisation of [n] individuals of [dim] components. *)
Fixpoint initSeed (n dim : nat) (seed : Z) : Z :=
  match n with
  | O => seed
  | S n' => initSeed n' dim (drawSeed dim seed)
  end.

Definition stepSeed (fuel populationSize dim i : nat) (seed : Z) : option Z :=
  match selectCandidatesZ fuel populationSize i [] seed with
  | None => None
  | Some (_, seed) => Some (trialSeed dim seed)
  end.

Fixpoint sweepSeed (fuel populationSize dim : nat) (targets : list nat) (seed : Z)
    : option Z :=
  match targets with
  | [] => Some seed
  | i :: rest =>
      match stepSeed fuel populationSize dim i seed with
      | None => None
      | Some seed => sweepSeed fuel populationSize dim rest seed
      end
  end.

(** Whether [n] sweeps in a row leave the candidate loop within [fuel] draws
    each time. *)
Fixpoint sweepsSucceed (fuel populationSize dim : nat) (n : nat) (seed : Z) : bool :=
  match n with
  | O => true
  | S n' =>
      match sweepSeed fuel populationSize dim (seq 0 populationSize) seed with
      | None => false
      | Some seed => sweepsSucceed fuel populationSize dim n' seed
      end
  end.

(** The population is a [populationSize] x [dim] array. *)
Definition populationShape {W : Type} (populationSize dim : nat) (st : DEState W) : Prop :=
  length (population st) = populationSize /\
  Forall (fun individual => length individual = dim) (population st).

Arguments random_word : simpl never.
Arguments random : simpl never.
Arguments roundDouble : simpl never.

(** A model that predicts 0 at every abscissa, whatever its parameters. *)
Definition zeroModel (x params : list R) : list R := map (fun _ => 0) x.

Definition localOnly (W : Type) : CurveFitOptions W :=
  {| useGlobalOpt := Some false; deOptions := None; lmOptions := None |}.

(** The residual function [curveFit] hands to both optimizers. *)
Definition residualsOf (model : list R -> list R -> list R) (xData yData params : list R)
    : list R :=
  let predicted := model xData params in
  mapi (fun y i => y - get predicted i) yData.

(** A vector whose existing components lie within the bounds. *)
Definition withinBounds (bounds : OptimizationBounds) (x : list R) : Prop :=
  forall j, (j < length x)%nat ->
    get (lower bounds) j <= get x j <= get (upper bounds) j.

(** Bounds whose lower entries do not exceed the upper ones. *)
Definition orderedBounds (bounds : OptimizationBounds) : Prop :=
  forall j, get (lower bounds) j <= get (upper bounds) j.

(** A progress callback that records the iteration numbers it is called with. *)
Definition recordIteration (iteration : nat) (_ : R) (log : list nat) : list nat :=
  log ++ [iteration].

(** A state with another world. *)
Definition withWorld {W : Type} (st : DEState W) (w : W) : DEState W :=
  {| population := population st; fitness := fitness st;
     bestIdx := bestIdx st; bestFitness := bestFitness st;
     bestIndividual := bestIndividual st; rng := rng st; world := w |}.

(** A state of a run whose individuals, and best individual, have one
    component per bound and lie within the bounds. *)
Definition boundedState {W : Type} (bounds : OptimizationBounds) (options : DEOptions W)
    (st : DEState W) : Prop :=
  let populationSize := orDefault (de_populationSize options) 15%nat in
  let dim := length (lower bounds) in
  length (population st) = populationSize /\
  Forall (fun x => length x = dim /\ withinBounds bounds x) (population st) /\
  withinBounds bounds (bestIndividual st) /\
  ((1 <= populationSize)%nat -> length (bestIndividual st) = dim).

(** A state of a run whose recorded fitness values are the values of [f] at
    the individuals they belong to. *)
Definition evaluatedState {W : Type} (options : DEOptions W) (f : list R -> R)
    (st : DEState W) : Prop :=
  let populationSize := orDefault (de_populationSize options) 15%nat in
  length (population st) = populationSize /\
  length (fitness st) = populationSize /\
  (forall i, (i < populationSize)%nat ->
     get (fitness st) i = f (nth i (population st) [])) /\
  bestFitness st = f (bestIndividual st).

(** The calls of [onProgress] of one run: call [k] (from 0) has iteration
    number [k + 1] and the fitness [values[k]]. *)
Definition progressCalls {E : Type} (entry : nat -> R -> E) (first : nat)
    (values : list R) : list E :=
  map (fun p => entry (fst p) (snd p)) (combine (seq first (length values)) values).

(** The bounds of [estimateIRFParameters] with [defaultIRFBounds], as arrays. *)
Definition defaultBoundsArray : OptimizationBounds :=
  {| lower := map (fun name => fst (name defaultIRFBounds)) paramNames;
     upper := map (fun name => snd (name defaultIRFBounds)) paramNames |}.

(** An objective that leaves the world alone: the square of the first
    component. *)
Definition squareObjective {W : Type} (x : list R) (w : W) : R * W :=
  (get x 0 * get x 0, w).

(** Options that set the iteration limit and the callback and leave the rest
    to the defaults. *)
Definition recordingOptions (maxIterations : Z) : DEOptions (list nat) :=
  {| de_maxIterations := Some maxIterations; de_populationSize := None;
     de_mutationFactor := None; de_crossoverRate := None; de_tolerance := None;
     de_seed := None; de_onProgress := Some recordIteration |}.

(** The progress message the handlers post for one call of the callback. *)
Definition progressOf (id : string) (maxIterations : Z) (iteration : nat)
    (fitnessValue : R) : WorkerOutgoingMessage :=
  ProgressMessage id iteration fitnessValue
    (Rmin 100 (INR iteration / IZR maxIterations * 100)).

Definition requestId (message : WorkerIncomingMessage) : string :=
  match message with
  | FitFermiEdgeMessage id _ _ _ _ _ => id
  | EstimateIRFMessage id _ _ _ _ => id
  | OtherMessage id => id
  end.

Definition replyId (message : WorkerOutgoingMessage) : string :=
  match message with
  | ProgressMessage id _ _ _ => id
  | FermiResultMessage id _ => id
  | IRFResultMessage id _ => id
  | ErrorMessage id _ => id
  end.

Definition isProgress (message : WorkerOutgoingMessage) : bool :=
  match message with
  | ProgressMessage _ _ _ _ => true
  | _ => false
  end.

(** What every turn of the loop of [levenbergMarquardt] keeps: the residuals,
    the cost and the Jacobian are those of the current parameters, the cost
    is at most [cost0], and the parameter vector keeps its length. *)
Definition lmInvariant (func : list R -> list R) (len : nat) (cost0 : R)
    (st : LMState) : Prop :=
  s_residuals st = func (s_params st) /\
  s_cost st = sumSquares (s_residuals st) /\
  s_jacobian st = computeJacobian func (s_params st) 1e-7 /\
  length (s_params st) = len /\
  s_cost st <= cost0.




(** * Verified properties *)

(** ** Lists, sums and maxima *)

Lemma nth_map_lt {A B : Type} (f : A -> B) (l : list A) (i : nat) (d : A) (d' : B) :
  (i < length l)%nat -> nth i (map f l) d' = f (nth i l d).
Proof.
  revert i. induction l as [|x l IH]; intros [|i] Hi; simpl in *; try lia.
  - reflexivity.
  - apply IH. lia.
Qed.

Lemma get_map (f : R -> R) l i : (i < length l)%nat -> get (map f l) i = f (get l i).
Proof. intros Hi. unfold get. now apply nth_map_lt. Qed.

Lemma fold_left_Rplus_acc l a : fold_left Rplus l a = a + fold_left Rplus l 0.
Proof.
  revert a. induction l as [|x l IH]; intros a; simpl.
  - lra.
  - rewrite IH, (IH (0 + x)). lra.
Qed.

Lemma Rsum_cons x l : Rsum (x :: l) = x + Rsum l.
Proof. unfold Rsum. simpl. rewrite fold_left_Rplus_acc. lra. Qed.

Lemma Rsum_scale s l : Rsum (map (fun v => v / s) l) = Rsum l / s.
Proof.
  induction l as [|x l IH].
  - unfold Rsum; simpl. lra.
  - simpl map. rewrite !Rsum_cons, IH. lra.
Qed.

Lemma Rsum_pos l : l <> [] -> Forall (fun v => 0 < v) l -> 0 < Rsum l.
Proof.
  induction l as [|x l IH]; intros Hne Hall; [congruence|].
  rewrite Rsum_cons. inversion Hall as [|? ? Hx Hl]; subst.
  destruct l as [|y l'].
  - unfold Rsum; simpl. lra.
  - assert (0 < Rsum (y :: l')) by (apply IH; [discriminate|assumption]). lra.
Qed.

Lemma zrange_length lo hi : length (zrange lo hi) = Z.to_nat (hi - lo + 1).
Proof. unfold zrange. now rewrite length_map, length_seq. Qed.

Lemma zrange_nth lo hi k d :
  (k < Z.to_nat (hi - lo + 1))%nat -> nth k (zrange lo hi) d = (lo + Z.of_nat k)%Z.
Proof.
  intros Hk. unfold zrange.
  rewrite (nth_map_lt _ _ _ 0%nat) by (now rewrite length_seq).
  rewrite seq_nth by assumption. reflexivity.
Qed.





(** ** [Math.floor] and [Math.ceil] *)

Lemma Math_floor_spec x : IZR (Math_floor x) <= x < IZR (Math_floor x) + 1.
Proof.
  unfold Math_floor. destruct (archimed x) as [H1 H2]. rewrite minus_IZR. lra.
Qed.

Lemma Math_floor_unique x z : IZR z <= x < IZR z + 1 -> Math_floor x = z.
Proof.
  intros [H1 H2]. pose proof (Math_floor_spec x) as [H3 H4].
  assert (Ha : (Math_floor x < z + 1)%Z).
  { apply lt_IZR. rewrite plus_IZR. lra. }
  assert (Hb : (z < Math_floor x + 1)%Z).
  { apply lt_IZR. rewrite plus_IZR. lra. }
  lia.
Qed.

Lemma Math_floor_IZR z : Math_floor (IZR z) = z.
Proof. apply Math_floor_unique. lra. Qed.

Lemma Math_ceil_IZR z : Math_ceil (IZR z) = z.
Proof. unfold Math_ceil. rewrite <- opp_IZR, Math_floor_IZR. lia. Qed.

Lemma Math_ceil_spec x : IZR (Math_ceil x) - 1 < x <= IZR (Math_ceil x).
Proof.
  unfold Math_ceil. pose proof (Math_floor_spec (- x)). rewrite opp_IZR. lra.
Qed.

(** ** The error function *)

Lemma erfPoly_bounds t : 0 < t <= 1 -> 0 <= erfPoly t <= 2.
Proof.
  intros [H0 H1]. unfold erfPoly. split.
  - assert (0 <= (((1.061405429 * t + -1.453152027) * t + 1.421413741) * t
                  + -0.284496736) * t + 0.254829592) by nra.
    nra.
  - nra.
Qed.

Lemma inv_ge1_bounds d : 1 <= d -> 0 < 1 / d <= 1.
Proof.
  intros Hd. unfold Rdiv. rewrite Rmult_1_l. split.
  - apply Rinv_0_lt_compat. lra.
  - rewrite <- Rinv_1. apply Rinv_le_contravar; lra.
Qed.

Lemma erf_nonneg_arg x : 0 <= x ->
  erf x = 1 - erfPoly (1 / (1 + 0.3275911 * x)) * exp (- x * x).
Proof.
  intros Hx. unfold erf, erfPoly.
  destruct (Rlt_dec x 0) as [H|H]; [lra|].
  rewrite (Rabs_pos_eq x Hx). lra.
Qed.

Lemma erf_neg_arg x : x < 0 ->
  erf x = - (1 - erfPoly (1 / (1 - 0.3275911 * x)) * exp (- x * x)).
Proof.
  intros Hx. unfold erf, erfPoly.
  destruct (Rlt_dec x 0) as [H|H]; [|lra].
  rewrite (Rabs_left x Hx).
  replace (1 + 0.3275911 * - x) with (1 - 0.3275911 * x) by lra.
  replace (- - x * - x) with (- x * x) by lra. lra.
Qed.

Lemma erf_zero : erf 0 = 1e-9.
Proof.
  rewrite erf_nonneg_arg by lra. unfold erfPoly.
  replace (- 0 * 0) with 0 by lra. rewrite exp_0.
  replace (1 / (1 + 0.3275911 * 0)) with 1 by (field_simplify; lra). lra.
Qed.

Lemma erf_odd x : x <> 0 -> erf (- x) = - erf x.
Proof.
  intros Hx. destruct (Rlt_dec x 0) as [H|H].
  - rewrite (erf_neg_arg x H). rewrite erf_nonneg_arg by lra.
    replace (1 + 0.3275911 * - x) with (1 - 0.3275911 * x) by lra.
    replace (- - x * - x) with (- x * x) by lra. lra.
  - assert (0 < x) by lra.
    rewrite (erf_nonneg_arg x) by lra. rewrite erf_neg_arg by lra.
    replace (1 - 0.3275911 * - x) with (1 + 0.3275911 * x) by lra.
    replace (- - x * - x) with (- x * x) by lra. lra.
Qed.

Lemma exp_neg_sq_bounds x : 0 < exp (- x * x) <= 1.
Proof.
  split; [apply exp_pos|].
  rewrite <- exp_0. destruct (Req_dec x 0) as [->|Hx].
  - replace (- 0 * 0) with 0 by lra. lra.
  - left. apply exp_increasing. nra.
Qed.

Lemma erf_core_bounds t E : 0 < t <= 1 -> 0 < E <= 1 -> -1 <= 1 - erfPoly t * E <= 1.
Proof.
  intros Ht HE. pose proof (erfPoly_bounds t Ht). nra.
Qed.

Lemma erf_abs_le_1 x : Rabs (erf x) <= 1.
Proof.
  apply Rabs_le.
  destruct (Rlt_dec x 0) as [H|H].
  - rewrite erf_neg_arg by assumption.
    assert (Ht : 0 < 1 / (1 - 0.3275911 * x) <= 1) by (apply inv_ge1_bounds; lra).
    pose proof (erf_core_bounds _ _ Ht (exp_neg_sq_bounds x)). lra.
  - rewrite erf_nonneg_arg by lra.
    assert (Ht : 0 < 1 / (1 + 0.3275911 * x) <= 1) by (apply inv_ge1_bounds; lra).
    pose proof (erf_core_bounds _ _ Ht (exp_neg_sq_bounds x)). lra.
Qed.

(** C7, as the code has it: [erf 0] is [1e-9] (the five coefficients sum to
    [0.999999999]), [erf] is odd away from the origin, and its magnitude
    never exceeds 1. *)
Theorem erf_properties :
  erf 0 = 1e-9 /\
  (forall x, x <> 0 -> erf (- x) = - erf x) /\
  (forall x, Rabs (erf x) <= 1).
Proof.
  split; [exact erf_zero|]. split; [exact erf_odd|exact erf_abs_le_1].
Qed.

Lemma erf_properties_witness : erf (- 1) = - erf 1.
Proof.
  apply (proj1 (proj2 erf_properties) 1). lra.
Defined.

(** C7 as stated fails at the origin: [erf 0] is not [0], and [erf (-0)] is
    not [- erf 0]. *)
Lemma erf_origin_counterexample : erf 0 <> 0 /\ erf (- 0) <> - erf 0.
Proof.
  replace (- 0) with 0 by lra. rewrite erf_zero. split; lra.
Qed.

(** ** Fermi-Dirac distribution *)

Lemma fermiDirac_cold energy temp ef i :
  temp < 0.1 -> (i < length energy)%nat ->
  get (fermiDirac energy temp ef) i = if Rle_dec (get energy i) ef then 1 else 0.
Proof.
  intros HT Hi. unfold fermiDirac. destruct (Rlt_dec temp 0.1); [|lra].
  now rewrite get_map.
Qed.

Lemma fermiDirac_warm energy temp i :
  0.1 <= temp -> (i < length energy)%nat ->
  get (fermiDirac energy temp 0) i = 1 / (exp (fdClamp (get energy i) temp) + 1).
Proof.
  intros HT Hi. unfold fermiDirac. destruct (Rlt_dec temp 0.1); [lra|].
  now rewrite get_map.
Qed.

Lemma KB_pos : 0 < KB.
Proof. unfold KB. lra. Qed.

Lemma clamp_cases q :
  (q <= -100 /\ Rmax (-100) (Rmin 100 q) = -100) \/
  (-100 <= q <= 100 /\ Rmax (-100) (Rmin 100 q) = q) \/
  (100 <= q /\ Rmax (-100) (Rmin 100 q) = 100).
Proof.
  unfold Rmax, Rmin. destruct (Rle_dec 100 q) as [H|H].
  - destruct (Rle_dec (-100) 100); [right; right; lra|lra].
  - destruct (Rle_dec (-100) q); [right; left; lra|left; lra].
Qed.

Lemma quotient_lt a b k : 0 < k -> a < b * k -> a / k < b.
Proof.
  intros Hk H. apply Rmult_lt_reg_r with k; [assumption|].
  unfold Rdiv. rewrite Rmult_assoc, Rinv_l by lra. lra.
Qed.

Lemma quotient_gt a b k : 0 < k -> b * k < a -> b < a / k.
Proof.
  intros Hk H. apply Rmult_lt_reg_r with k; [assumption|].
  unfold Rdiv. rewrite Rmult_assoc, Rinv_l by lra. lra.
Qed.

Lemma fdClamp_mono e1 e2 temp : 0 < temp -> e1 <= e2 -> fdClamp e1 temp <= fdClamp e2 temp.
Proof.
  intros HT He. unfold fdClamp.
  assert (Hk : 0 < KB * temp) by (apply Rmult_lt_0_compat; [apply KB_pos|assumption]).
  assert (Hq : (e1 - 0) / (KB * temp) <= (e2 - 0) / (KB * temp)).
  { unfold Rdiv. apply Rmult_le_compat_r; [left; now apply Rinv_0_lt_compat|lra]. }
  apply Rle_max_compat_l. now apply Rle_min_compat_l.
Qed.

Lemma fdClamp_strict e1 e2 temp :
  0 < temp -> e1 < e2 -> e1 < 100 * (KB * temp) -> -100 * (KB * temp) < e2 ->
  fdClamp e1 temp < fdClamp e2 temp.
Proof.
  intros HT He H1 H2.
  assert (Hk : 0 < KB * temp) by (apply Rmult_lt_0_compat; [apply KB_pos|assumption]).
  assert (Hq : (e1 - 0) / (KB * temp) < (e2 - 0) / (KB * temp)).
  { unfold Rdiv. apply Rmult_lt_compat_r; [now apply Rinv_0_lt_compat|lra]. }
  assert (Hq1 : (e1 - 0) / (KB * temp) < 100) by (apply quotient_lt; lra).
  assert (Hq2 : -100 < (e2 - 0) / (KB * temp)) by (apply quotient_gt; lra).
  unfold fdClamp in *.
  destruct (clamp_cases ((e1 - 0) / (KB * temp))) as [[? ->]|[[? ->]|[? ->]]];
  destruct (clamp_cases ((e2 - 0) / (KB * temp))) as [[? ->]|[[? ->]|[? ->]]]; lra.
Qed.

Lemma logistic_bounds v : 0 < 1 / (exp v + 1) < 1.
Proof.
  pose proof (exp_pos v) as Hv. split.
  - apply Rdiv_lt_0_compat; lra.
  - apply quotient_lt; lra.
Qed.

Lemma logistic_anti v1 v2 : v1 <= v2 -> 1 / (exp v2 + 1) <= 1 / (exp v1 + 1).
Proof.
  intros Hv. pose proof (exp_pos v1). pose proof (exp_pos v2).
  unfold Rdiv. rewrite !Rmult_1_l. apply Rinv_le_contravar; [lra|].
  destruct Hv as [Hv| ->]; [|lra]. pose proof (exp_increasing _ _ Hv). lra.
Qed.

Lemma logistic_strict v1 v2 : v1 < v2 -> 1 / (exp v2 + 1) < 1 / (exp v1 + 1).
Proof.
  intros Hv. pose proof (exp_pos v1). pose proof (exp_pos v2).
  unfold Rdiv. rewrite !Rmult_1_l. apply Rinv_lt_contravar.
  - apply Rmult_lt_0_compat; lra.
  - pose proof (exp_increasing _ _ Hv). lra.
Qed.

(** C2, as the code has it.  Below 0.1 K [fermiDirac] is the step function
    (values 1 and 0).  From 0.1 K on, every value is above 0 and at most 1,
    and the values never increase with the energy.  Neither bound on the
    right is strict in the program: beyond [100 KB T] in size the clamp
    makes the function constant, and in double precision the value 1 is
    reached well inside that range. *)
Theorem fermiDirac_range_and_monotone (energy : list R) (temp : R) :
  (temp < 0.1 ->
   forall i, (i < length energy)%nat ->
     (get energy i <= 0 -> get (fermiDirac energy temp 0) i = 1) /\
     (0 < get energy i -> get (fermiDirac energy temp 0) i = 0)) /\
  (0.1 <= temp ->
   (forall i, (i < length energy)%nat -> 0 < get (fermiDirac energy temp 0) i <= 1) /\
   (forall i j, (i < length energy)%nat -> (j < length energy)%nat ->
      get energy i <= get energy j ->
      get (fermiDirac energy temp 0) j <= get (fermiDirac energy temp 0) i)).
Proof.
  split.
  - intros HT i Hi. rewrite fermiDirac_cold by assumption.
    destruct (Rle_dec (get energy i) 0); split; intros; lra.
  - intros HT. assert (0 < temp) by lra. split.
    + intros i Hi. rewrite fermiDirac_warm by assumption.
      pose proof (logistic_bounds (fdClamp (get energy i) temp)). lra.
    + intros i j Hi Hj He. rewrite !fermiDirac_warm by assumption.
      apply logistic_anti. now apply fdClamp_mono.
Qed.

Lemma fermiDirac_range_and_monotone_witness :
  0 < get (fermiDirac [-0.01; 0.01] 5 0) 0 <= 1 /\
  get (fermiDirac [-0.01; 0.01] 5 0) 1 <= get (fermiDirac [-0.01; 0.01] 5 0) 0 /\
  get (fermiDirac [-0.01; 0.01] 0.05 0) 0 = 1.
Proof.
  pose proof (fermiDirac_range_and_monotone [-0.01; 0.01] 5) as [_ Hwarm].
  pose proof (fermiDirac_range_and_monotone [-0.01; 0.01] 0.05) as [Hcold _].
  assert (H5 : 0.1 <= 5) by lra.
  destruct (Hwarm H5) as (Hr & Hm).
  split; [apply Hr; simpl; lia|]. split.
  - apply Hm; simpl; try lia; unfold get; simpl; lra.
  - apply (Hcold ltac:(lra) 0%nat ltac:(simpl; lia)). unfold get; simpl; lra.
Defined.

(** C2 as stated fails twice: at T = 0.05 K > 0 the value at e = 0 is 1, not
    below 1; and at T = 1 K the energies 1 < 2 eV give the same value. *)
Lemma fermiDirac_counterexample :
  0 < 0.05 /\ get (fermiDirac [0] 0.05 0) 0 = 1 /\
  0 < 1 /\ 1 < 2 /\ get (fermiDirac [1; 2] 1 0) 1 = get (fermiDirac [1; 2] 1 0) 0.
Proof.
  split; [lra|]. split.
  - rewrite fermiDirac_cold by first [lra | simpl; lia]. unfold get; cbn [nth].
    destruct (Rle_dec 0 0); lra.
  - split; [lra|]. split; [lra|].
    rewrite !fermiDirac_warm by first [lra | simpl; lia].
    unfold get; cbn [nth]. f_equal. f_equal. f_equal.
    unfold fdClamp.
    assert (Hk : 0 < KB * 1) by (unfold KB; lra).
    assert (H1 : 100 < (1 - 0) / (KB * 1)) by (apply quotient_gt; unfold KB; lra).
    assert (H2 : 100 < (2 - 0) / (KB * 1)) by (apply quotient_gt; unfold KB; lra).
    rewrite (Rmin_left 100 ((2 - 0) / (KB * 1))) by lra.
    rewrite (Rmin_left 100 ((1 - 0) / (KB * 1))) by lra. reflexivity.
Qed.

(** ** Gaussian kernel *)

Lemma gaussianValue_even sigma de i : gaussianValue sigma de (- i) = gaussianValue sigma de i.
Proof.
  unfold gaussianValue; cbv zeta. rewrite opp_IZR. f_equal. unfold Rdiv. f_equal. ring.
Qed.

Lemma gaussianKernel_wide sigma de :
  (0 < Math_ceil (5 * sigma / de))%Z ->
  gaussianKernel sigma de =
    let width := Math_ceil (5 * sigma / de) in
    let kernel := map (gaussianValue sigma de) (zrange (- width) width) in
    map (fun v => v / Rsum kernel) kernel.
Proof.
  intros Hw. unfold gaussianKernel.
  destruct (Z.leb_spec (Math_ceil (5 * sigma / de)) 0); [lia|reflexivity].
Qed.

(** C6: with [w = ceil (5 sigma / de)] and a non-zero spacing [de], a
    positive [w] gives a kernel of [2w + 1] entries that sum to 1 and read
    the same from both ends; [w <= 0] gives the identity kernel [[1]]. *)
Theorem gaussianKernel_normalised_symmetric (sigma de : R) (Hde : de <> 0) :
  let w := Math_ceil (5 * sigma / de) in
  ((0 < w)%Z ->
     length (gaussianKernel sigma de) = Z.to_nat (2 * w + 1) /\
     Rsum (gaussianKernel sigma de) = 1 /\
     forall k, (k <= 2 * Z.to_nat w)%nat ->
       get (gaussianKernel sigma de) k = get (gaussianKernel sigma de) (2 * Z.to_nat w - k)) /\
  ((w <= 0)%Z -> gaussianKernel sigma de = [1]).
Proof.
  intros w. split.
  - intros Hw. rewrite gaussianKernel_wide by exact Hw. cbv zeta. fold w.
    set (raw := map (gaussianValue sigma de) (zrange (- w) w)).
    assert (Hlen : length raw = Z.to_nat (2 * w + 1)).
    { unfold raw. rewrite length_map, zrange_length. f_equal. lia. }
    assert (Hpos : 0 < Rsum raw).
    { apply Rsum_pos.
      - intros Heq. rewrite Heq in Hlen. cbn [length] in Hlen. lia.
      - unfold raw. apply Forall_forall. intros v Hv.
        apply in_map_iff in Hv. destruct Hv as (i & <- & _). apply exp_pos. }
    split; [now rewrite length_map|]. split.
    + rewrite Rsum_scale. field. lra.
    + intros k Hk.
      assert (Hraw : forall j, (j <= 2 * Z.to_nat w)%nat ->
                get raw j = gaussianValue sigma de (- w + Z.of_nat j)).
      { intros j Hj. unfold raw, get.
        rewrite (nth_map_lt _ _ _ 0%Z) by (rewrite zrange_length; lia).
        f_equal. apply zrange_nth. lia. }
      rewrite !get_map by lia. rewrite !Hraw by lia. f_equal.
      rewrite <- gaussianValue_even. f_equal. lia.
  - intros Hw. unfold gaussianKernel. fold w.
    destruct (Z.leb_spec w 0); [reflexivity|lia].
Qed.

Lemma gaussianKernel_normalised_symmetric_witness :
  length (gaussianKernel 1 5) = 3%nat /\ Rsum (gaussianKernel 1 5) = 1 /\
  gaussianKernel 0 5 = [1].
Proof.
  assert (H5 : 5 <> 0) by lra.
  assert (Hw1 : Math_ceil (5 * 1 / 5) = 1%Z).
  { replace (5 * 1 / 5) with (IZR 1) by lra. apply Math_ceil_IZR. }
  assert (Hw0 : Math_ceil (5 * 0 / 5) = 0%Z).
  { replace (5 * 0 / 5) with (IZR 0) by lra. apply Math_ceil_IZR. }
  pose proof (gaussianKernel_normalised_symmetric 1 5 H5) as [Hwide _].
  pose proof (gaussianKernel_normalised_symmetric 0 5 H5) as [_ Hid].
  rewrite Hw1 in Hwide. rewrite Hw0 in Hid.
  destruct (Hwide ltac:(lia)) as (Hl & Hs & _).
  split; [exact Hl|]. split; [exact Hs|]. apply Hid. lia.
Defined.

(** ** Forward simulator *)





Lemma length_linspace a b n : length (linspace a b n) = n.
Proof. unfold linspace. now rewrite length_map, length_seq. Qed.



Lemma g_eAxis_createGrid a b n c d m : g_eAxis (createGrid a b n c d m) = linspace a b n.
Proof. unfold createGrid. destruct (meshgrid _ _). reflexivity. Qed.

Lemma g_yAxis_createGrid a b n c d m : g_yAxis (createGrid a b n c d m) = linspace c d m.
Proof. unfold createGrid. destruct (meshgrid _ _). reflexivity. Qed.






(** C9: two runs of [simulate] whose parameters differ only in the noise
    levels, whatever the state of [Math.random], agree on every field of the
    result but [spectrum]. *)
Theorem simulate_noise_noninterference (RandState : Type)
    (Math_random : RandState -> R * RandState)
    (p1 p2 : SimulatorParams) (rs1 rs2 : RandState) :
  sameExceptNoise p1 p2 ->
  let r1 := fst (simulate Math_random p1 rs1) in
  let r2 := fst (simulate Math_random p2 rs2) in
  energy r1 = energy r2 /\ spectrumClean r1 = spectrumClean r2 /\
  idealFD r1 = idealFD r2 /\ irf r1 = irf r2 /\ image2D r1 = image2D r2 /\
  spotProfile r1 = spotProfile r2 /\ yAxis r1 = yAxis r2 /\
  sigmaSource r1 = sigmaSource r2 /\ sigmaDetector r1 = sigmaDetector r2 /\
  sigmaCombined r1 = sigmaCombined r2.
Proof.
  intros (HsX & HsY & Ha & HgX & HgY & Hk & Ht & HsR & HT).
  unfold simulate. cbv zeta.
  rewrite HsX, HsY, Ha, HgX, HgY, Hk, Ht, HsR, HT.
  repeat match goal with |- context [addNoise ?a ?b ?c ?d ?e] =>
    destruct (addNoise a b c d e) end.
  cbn [fst energy spectrumClean idealFD irf image2D spotProfile yAxis
       sigmaSource sigmaDetector sigmaCombined].
  repeat split; reflexivity.
Qed.

Lemma simulate_noise_noninterference_witness :
  spectrumClean (fst (simulate halfRandom defaultParams 0%nat)) =
  spectrumClean (fst (simulate halfRandom
    {| sigmaX := 0.5; sigmaY := 0.5; alpha := 0.002; gammaX := 0.0; gammaY := 0.0;
       kappa := 0.01; theta := 0.08; sigmaRes := 1.5; temp := 5.0;
       poissonNoise := None; gaussianNoise := Some 0 |} 7%nat)).
Proof.
  apply (simulate_noise_noninterference nat halfRandom).
  unfold sameExceptNoise, defaultParams.
  cbn [sigmaX sigmaY alpha gammaX gammaY kappa theta sigmaRes temp].
  repeat split; reflexivity.
Defined.

(** ** Mulberry32 *)

Lemma toUint32_mod z : toUint32 z = (z mod two32)%Z.
Proof. reflexivity. Qed.

Lemma random_word_range seed : (0 <= snd (random_word seed) < two32)%Z.
Proof.
  unfold random_word. cbv zeta. cbn [snd]. rewrite toUint32_mod.
  apply Z.mod_pos_bound. reflexivity.
Qed.

Lemma random_eq seed :
  random seed = (IZR (snd (random_word seed)) / 4294967296, fst (random_word seed)).
Proof. unfold random. destruct (random_word seed). reflexivity. Qed.

Lemma random_range seed : 0 <= fst (random seed) < 1.
Proof.
  rewrite random_eq. cbn [fst].
  pose proof (random_word_range seed) as [H0 H1]. unfold two32 in H1.
  apply IZR_le in H0. apply IZR_lt in H1. split.
  - apply Rmult_le_pos; [assumption|]. left. apply Rinv_0_lt_compat. lra.
  - apply quotient_lt; lra.
Qed.

(** ** Maps that thread a state *)

Lemma mapi_st_length {A B St : Type} (f : A -> nat -> St -> B * St) l k st :
  length (fst (mapi_st k f l st)) = length l.
Proof.
  revert k st. induction l as [|x l IH]; intros k st; simpl; [reflexivity|].
  destruct (f x k st) as [y st1]. specialize (IH (S k) st1).
  destruct (mapi_st (S k) f l st1) as [ys st2]. simpl in *. now rewrite IH.
Qed.

Lemma mapi_st_nth {A B St : Type} (f : A -> nat -> St -> B * St)
    (P : A -> nat -> B -> Prop) (d : A) (d' : B) :
  (forall x k st, P x k (fst (f x k st))) ->
  forall l k st j, (j < length l)%nat ->
    P (nth j l d) (k + j)%nat (nth j (fst (mapi_st k f l st)) d').
Proof.
  intros Hf. induction l as [|x l IH]; intros k st j Hj; simpl in Hj; [lia|].
  simpl. pose proof (Hf x k st) as Hx.
  destruct (f x k st) as [y st1]. specialize (IH (S k) st1).
  destruct (mapi_st (S k) f l st1) as [ys st2]. simpl in *.
  destruct j as [|j].
  - now rewrite Nat.add_0_r.
  - replace (k + S j)%nat with (S k + j)%nat by lia. apply IH. lia.
Qed.

(** ** Differential Evolution: crossover *)

Lemma crossover_cases CR dim donor val j seed :
  fst (crossover CR dim donor val j seed) = get donor j \/
  fst (crossover CR dim donor val j seed) = val.
Proof.
  unfold crossover. destruct (random seed) as [u s1].
  destruct (Rlt_dec u CR); [now left|].
  destruct (random s1) as [u' s2].
  destruct (Z.of_nat j =? Math_floor (u' * INR dim))%Z; [now left|now right].
Qed.

Lemma crossover_certain CR dim donor val j seed :
  1 <= CR -> fst (crossover CR dim donor val j seed) = get donor j.
Proof.
  intros HCR. unfold crossover. pose proof (random_range seed) as Hr.
  destruct (random seed) as [u s1]. cbn [fst] in Hr.
  destruct (Rlt_dec u CR); [reflexivity|lra].
Qed.

(** C5, as the code has it: the trial has the length of the target, and each
    of its components is the donor's or the target's component of the same
    index.  No component is reserved for the target: with a crossover rate
    of 1 or more the trial is the donor, component by component. *)
Theorem makeTrial_components (crossoverRate : R) (dim : nat) (donor target : list R) (seed : Z) :
  let trial := fst (makeTrial crossoverRate dim donor target seed) in
  length trial = length target /\
  (forall j, (j < length target)%nat ->
     get trial j = get donor j \/ get trial j = get target j) /\
  (1 <= crossoverRate ->
     forall j, (j < length target)%nat -> get trial j = get donor j).
Proof.
  intros trial. unfold trial, makeTrial. split; [apply mapi_st_length|]. split.
  - intros j Hj. unfold get.
    apply (mapi_st_nth (crossover crossoverRate dim donor)
             (fun x k y => y = get donor k \/ y = x) 0 0
             (fun x k st => crossover_cases crossoverRate dim donor x k st)
             target 0%nat seed j Hj).
  - intros HCR j Hj. unfold get.
    apply (mapi_st_nth (crossover crossoverRate dim donor)
             (fun x k y => y = get donor k) 0 0
             (fun x k st => crossover_certain crossoverRate dim donor x k st HCR)
             target 0%nat seed j Hj).
Qed.

Lemma makeTrial_components_witness :
  get (fst (makeTrial 1 2 [3; 4] [5; 6] 42)) 1 = get [3; 4] 1.
Proof.
  apply (proj2 (proj2 (makeTrial_components 1 2 [3; 4] [5; 6] 42))).
  - lra.
  - simpl. lia.
Defined.

Lemma random_42 : random 42 = (IZR 2581720956 / 4294967296, 1831565855%Z).
Proof.
  rewrite random_eq.
  replace (random_word 42) with (1831565855, 2581720956)%Z by (vm_compute; reflexivity).
  reflexivity.
Qed.

(** C5 as stated fails: with the default crossover rate 0.7 and a generator
    seeded with 42, the one-component target [0] crossed with the donor [1]
    gives the trial [1]; nothing of the target is left in it. *)
Lemma makeTrial_counterexample :
  (fst (makeTrial 0.7 1 [1] [0] 42) = [1]) /\
  (forall j, (j < 1)%nat -> get (fst (makeTrial 0.7 1 [1] [0] 42)) j <> get [0] j).
Proof.
  assert (H : fst (makeTrial 0.7 1 [1] [0] 42) = [1]).
  { unfold makeTrial. cbn [mapi_st]. unfold crossover. rewrite random_42.
    destruct (Rlt_dec (IZR 2581720956 / 4294967296) 0.7) as [Hlt|Hge].
    - reflexivity.
    - exfalso. apply Hge. lra. }
  split; [exact H|]. rewrite H. intros j Hj Heq.
  assert (j = 0%nat) by lia. subst j. unfold get in Heq. cbn [nth] in Heq. lra.
Qed.

Lemma random_seed_exact seed :
  (Z.abs (seed + 1831565813) < 9007199254740992)%Z ->
  snd (random seed) = (seed + 1831565813)%Z.
Proof.
  intros Hsmall. rewrite random_eq. cbn [snd]. unfold random_word. cbv zeta. cbn [fst].
  unfold roundDouble. cbv zeta. change (2 ^ 53)%Z with 9007199254740992%Z.
  destruct (Z.ltb_spec (Z.abs (seed + 1831565813)) 9007199254740992); [reflexivity|lia].
Qed.

(** ** Differential Evolution: independence from the world *)

Section DEPure.

Variable W : Type.
Variable objective : list R -> W -> R * W.
Variable bounds : OptimizationBounds.
Variable options : DEOptions W.
Hypothesis objective_pure : pureObjective objective.

Lemma initPopulation_pure n seed w1 w2 :
  fst (initPopulation objective bounds n seed w1) =
  fst (initPopulation objective bounds n seed w2).
Proof.
  revert seed w1 w2. induction n as [|n IH]; intros seed w1 w2; simpl; [reflexivity|].
  destruct (mapi_st _ _ _ _) as [individual seed1].
  pose proof (objective_pure individual w1 w2) as Hf.
  destruct (objective individual w1) as [f1 w1'].
  destruct (objective individual w2) as [f2 w2']. simpl in Hf. subst f2.
  specialize (IH seed1 w1' w2').
  destruct (initPopulation objective bounds n seed1 w1') as [[[p1 fi1] s1] x1].
  destruct (initPopulation objective bounds n seed1 w2') as [[[p2 fi2] s2] x2].
  simpl in *. now inversion IH.
Qed.

Lemma deInit_pure w1 w2 :
  sameRun (deInit objective bounds options w1) (deInit objective bounds options w2).
Proof.
  unfold deInit. cbv zeta.
  pose proof (initPopulation_pure
                (orDefault (de_populationSize options) 15%nat)
                (orDefault (de_seed options) 42%Z) w1 w2) as H.
  destruct (initPopulation objective bounds _ _ w1) as [[[p1 fi1] s1] x1].
  destruct (initPopulation objective bounds _ _ w2) as [[[p2 fi2] s2] x2].
  simpl in H. inversion H; subst.
  destruct (findBest options fi2) as [b f]. unfold sameRun; simpl.
  repeat split; reflexivity.
Qed.

Lemma deStep_pure fuel i s1 s2 :
  sameRun s1 s2 ->
  optRel sameRun (deStep objective bounds options fuel i s1)
                 (deStep objective bounds options fuel i s2).
Proof.
  intros (Hp & Hf & Hbi & Hbf & Hbx & Hr).
  unfold deStep. cbv zeta. rewrite Hp, Hf, Hbf, Hr.
  destruct (selectCandidates fuel _ i [] (rng s2)) as [[candidates seed]|];
    [|exact I].
  destruct (makeTrial _ _ _ _ seed) as [trial seed'].
  pose proof (objective_pure trial (world s1) (world s2)) as Hv.
  destruct (objective trial (world s1)) as [f1 w1'].
  destruct (objective trial (world s2)) as [f2 w2']. simpl in Hv. subst f2.
  destruct (Rlt_dec f1 (get (fitness s2) i));
    [destruct (Rlt_dec f1 (bestFitness s2))|];
    unfold optRel, sameRun; simpl; repeat split; assumption || reflexivity.
Qed.

Lemma deSweep_pure fuel targets s1 s2 :
  sameRun s1 s2 ->
  optRel sameRun (deSweep objective bounds options fuel targets s1)
                 (deSweep objective bounds options fuel targets s2).
Proof.
  revert s1 s2. induction targets as [|i rest IH]; intros s1 s2 Hs; simpl.
  - exact Hs.
  - pose proof (deStep_pure fuel i s1 s2 Hs) as H.
    destruct (deStep objective bounds options fuel i s1) as [a1|],
             (deStep objective bounds options fuel i s2) as [a2|];
      simpl in H; try contradiction; [now apply IH|exact I].
Qed.

Lemma deLoop_pure fuel n iteration prev s1 s2 :
  sameRun s1 s2 ->
  optRel (fun r1 r2 => sameRun (fst (fst r1)) (fst (fst r2)) /\
                       snd (fst r1) = snd (fst r2) /\ snd r1 = snd r2)
         (deLoop objective bounds options fuel n iteration prev s1)
         (deLoop objective bounds options fuel n iteration prev s2).
Proof.
  revert iteration prev s1 s2.
  induction n as [|n IH]; intros iteration prev s1 s2 Hs; simpl.
  - split; [exact Hs|split; reflexivity].
  - pose proof (deSweep_pure fuel (seq 0 (orDefault (de_populationSize options) 15%nat))
                  s1 s2 Hs) as H.
    destruct (deSweep objective bounds options fuel _ s1) as [a1|],
             (deSweep objective bounds options fuel _ s2) as [a2|];
      simpl in H; try contradiction; [|exact I].
    destruct H as (Hp & Hf & Hbi & Hbf & Hbx & Hr). rewrite Hbf.
    destruct (Rlt_dec _ _).
    + simpl. unfold sameRun; simpl. repeat split; assumption || reflexivity.
    + apply IH. unfold sameRun; simpl. repeat split; assumption.
Qed.

Lemma differentialEvolution_pure fuel w1 w2 :
  optRel (fun r1 r2 => fst r1 = fst r2)
         (differentialEvolution objective bounds options fuel w1)
         (differentialEvolution objective bounds options fuel w2).
Proof.
  unfold differentialEvolution. cbv zeta.
  pose proof (deInit_pure w1 w2) as Hi.
  pose proof (deLoop_pure fuel (Z.to_nat (orDefault (de_maxIterations options) 100%Z))
                0 (bestFitness (deInit objective bounds options w1)) _ _ Hi) as H.
  destruct Hi as (_ & _ & _ & Hbf & _).
  rewrite <- Hbf.
  destruct (deLoop objective bounds options fuel _ 0 _ (deInit objective bounds options w1))
    as [[[a1 i1] c1]|],
    (deLoop objective bounds options fuel _ 0 _ (deInit objective bounds options w2))
    as [[[a2 i2] c2]|]; simpl in H; try contradiction; [|exact I].
  destruct H as ((_ & _ & _ & Hf & Hx & _) & Hit & Hc). simpl in *.
  subst. now rewrite Hf, Hx.
Qed.

End DEPure.

Lemma random_stream_length n seed : length (random_stream n seed) = n.
Proof.
  revert seed. induction n as [|n IH]; intros seed; simpl; [reflexivity|].
  destruct (random seed) as [u s]. simpl. now rewrite IH.
Qed.

(** C3: for a pure objective, two runs of [differentialEvolution] on the
    same objective, bounds and options (the seed among them) return the same
    [DEResult] (or both fail to leave the candidate loop within the same
    fuel), whatever the world each run starts in; and the generator created
    from the seed gives the same stream of draws each time it is created. *)
Theorem differentialEvolution_deterministic (W : Type)
    (objective : list R -> W -> R * W) (bounds : OptimizationBounds)
    (options : DEOptions W) (fuel : nat) (w1 w2 : W) :
  pureObjective objective ->
  optRel (fun r1 r2 =>
            de_x (fst r1) = de_x (fst r2) /\ de_fitness (fst r1) = de_fitness (fst r2) /\
            de_iterations (fst r1) = de_iterations (fst r2) /\
            de_converged (fst r1) = de_converged (fst r2))
         (differentialEvolution objective bounds options fuel w1)
         (differentialEvolution objective bounds options fuel w2) /\
  (forall n seed1 seed2, seed1 = seed2 ->
     random_stream n seed1 = random_stream n seed2).
Proof.
  intros Hpure. split.
  - pose proof (differentialEvolution_pure W objective bounds options Hpure fuel w1 w2) as H.
    destruct (differentialEvolution objective bounds options fuel w1) as [[r1 x1]|],
             (differentialEvolution objective bounds options fuel w2) as [[r2 x2]|];
      simpl in *; try contradiction; [|exact I].
    subst. repeat split.
  - intros n seed1 seed2 ->. reflexivity.
Qed.

Lemma differentialEvolution_deterministic_witness :
  optRel (fun r1 r2 =>
            de_x (fst r1) = de_x (fst r2) /\ de_fitness (fst r1) = de_fitness (fst r2) /\
            de_iterations (fst r1) = de_iterations (fst r2) /\
            de_converged (fst r1) = de_converged (fst r2))
         (differentialEvolution countingSquare unitBounds (noDEOptions nat) 64 0%nat)
         (differentialEvolution countingSquare unitBounds (noDEOptions nat) 64 7%nat) /\
  (forall n seed1 seed2, seed1 = seed2 ->
     random_stream n seed1 = random_stream n seed2).
Proof.
  apply (differentialEvolution_deterministic nat countingSquare unitBounds
           (noDEOptions nat) 64 0%nat 7%nat).
  intros x w1 w2. reflexivity.
Defined.

(** ** Differential Evolution: number of objective evaluations *)

Section DECount.

Variable W : Type.
Variable objective : list R -> W -> R * W.
Variable bounds : OptimizationBounds.
Variable options : DEOptions W.
Variable count : W -> nat.
Hypothesis objective_counts : forall x w, count (snd (objective x w)) = S (count w).
Hypothesis progress_keeps :
  forall cb, de_onProgress options = Some cb ->
  forall i f w, count (cb i f w) = count w.

Let populationSize : nat := orDefault (de_populationSize options) 15%nat.







End DECount.

(** ** Differential Evolution: the generator's path and termination *)

(** From here on the generator is used through [random_eq] and
    [random_word_range] only. *)
Opaque random random_word.

Lemma floor_word_idx (w : Z) (n : nat) :
  Math_floor (IZR w / 4294967296 * INR n) = idxOf w n.
Proof.
  unfold idxOf, two32. apply Math_floor_unique. rewrite INR_IZR_INZ.
  generalize (Z.of_nat n). intros m.
  pose proof (Z.div_mod (w * m) 4294967296 ltac:(lia)) as Hdm.
  pose proof (Z.mod_pos_bound (w * m) 4294967296 ltac:(lia)) as [Hr0 Hr1].
  remember (w * m / 4294967296)%Z as q.
  remember ((w * m) mod 4294967296)%Z as r.
  assert (He : IZR w * IZR m = 4294967296 * IZR q + IZR r).
  { rewrite <- mult_IZR, Hdm, plus_IZR, mult_IZR. reflexivity. }
  apply IZR_le in Hr0. apply IZR_lt in Hr1.
  assert (Hv : IZR w / 4294967296 * IZR m = IZR q + IZR r / 4294967296).
  { unfold Rdiv. rewrite (Rmult_comm (IZR w)), Rmult_assoc, He. field. }
  rewrite Hv.
  assert (0 <= IZR r / 4294967296 < 1).
  { split; [apply Rmult_le_pos; [lra|left; apply Rinv_0_lt_compat; lra]|apply quotient_lt; lra]. }
  lra.
Qed.

Lemma floor_random_idx seed n :
  Math_floor (fst (random seed) * INR n) = idxOf (snd (random_word seed)) n.
Proof. rewrite random_eq. cbn [fst]. apply floor_word_idx. Qed.

Lemma selectCandidates_Z fuel populationSize i candidates seed :
  selectCandidates fuel populationSize i candidates seed =
  selectCandidatesZ fuel populationSize i candidates seed.
Proof.
  revert candidates seed. induction fuel as [|fuel IH]; intros candidates seed;
    cbn [selectCandidates selectCandidatesZ].
  - reflexivity.
  - destruct (3 <=? length candidates)%nat; [reflexivity|].
    rewrite random_eq.
    pose proof (floor_word_idx (snd (random_word seed)) populationSize) as Hf.
    destruct (random_word seed) as [s w]. cbn [fst snd] in *. rewrite Hf.
    destruct (negb _ && negb _)%bool; apply IH.
Qed.

Lemma belowDefaultCR_spec w :
  (if Rlt_dec (IZR w / 4294967296) 0.7 then true else false) = belowDefaultCR w.
Proof.
  unfold belowDefaultCR, two32.
  destruct (Rlt_dec (IZR w / 4294967296) 0.7) as [H|H];
    destruct (Z.ltb_spec (10 * w) (7 * 4294967296)) as [Hz|Hz]; try reflexivity; exfalso.
  - apply IZR_le in Hz. rewrite !mult_IZR in Hz.
    assert (IZR w < 0.7 * 4294967296).
    { apply Rmult_lt_reg_r with (/ 4294967296); [apply Rinv_0_lt_compat; lra|].
      rewrite Rmult_assoc, Rinv_r by lra. unfold Rdiv in H. lra. }
    lra.
  - apply H. apply IZR_lt in Hz. rewrite !mult_IZR in Hz. apply quotient_lt; lra.
Qed.

Lemma crossover_seed dim donor val j seed :
  snd (crossover 0.7 dim donor val j seed) =
  let (s, w) := random_word seed in
  if belowDefaultCR w then s else fst (random_word s).
Proof.
  unfold crossover. rewrite random_eq.
  destruct (random_word seed) as [s w]. cbn [fst snd].
  rewrite <- belowDefaultCR_spec.
  destruct (Rlt_dec (IZR w / 4294967296) 0.7); [reflexivity|].
  rewrite random_eq. destruct (random_word s) as [s' w']. cbn [fst snd].
  destruct (_ =? _)%Z; reflexivity.
Qed.

Lemma mapi_st_crossover_seed dim donor target k seed :
  snd (mapi_st k (crossover 0.7 dim donor) target seed) = trialSeed (length target) seed.
Proof.
  revert k seed. induction target as [|x l IH]; intros k seed; simpl; [reflexivity|].
  pose proof (crossover_seed dim donor x k seed) as Hc.
  destruct (crossover 0.7 dim donor x k seed) as [y s1]. cbn [snd] in Hc.
  specialize (IH (S k) s1).
  destruct (mapi_st (S k) (crossover 0.7 dim donor) l s1) as [ys s2]. cbn [snd] in *.
  destruct (random_word seed) as [s w]. rewrite IH, Hc.
  destruct (belowDefaultCR w); reflexivity.
Qed.

Lemma makeTrial_seed dim donor target seed :
  snd (makeTrial 0.7 dim donor target seed) = trialSeed (length target) seed.
Proof. apply mapi_st_crossover_seed. Qed.

Lemma makeTrial_length CR dim donor target seed :
  length (fst (makeTrial CR dim donor target seed)) = length target.
Proof. apply mapi_st_length. Qed.

Lemma set_nth_length {A : Type} i (v : A) l : length (set_nth i v l) = length l.
Proof.
  revert i. induction l as [|x l IH]; intros [|i]; simpl; auto.
Qed.

Lemma set_nth_Forall {A : Type} (P : A -> Prop) i v l :
  P v -> Forall P l -> Forall P (set_nth i v l).
Proof.
  intros Hv Hl. revert i. induction Hl as [|x l Hx Hl IH]; intros [|i]; simpl;
    constructor; auto.
Qed.

Lemma Forall_nth_default {A : Type} (P : A -> Prop) l i d :
  Forall P l -> (i < length l)%nat -> P (nth i l d).
Proof.
  intros Hl. revert i. induction Hl as [|x l Hx Hl IH]; intros [|i] Hi; simpl in *;
    try lia; auto. apply IH. lia.
Qed.

Lemma seq_below n : Forall (fun i => (i < n)%nat) (seq 0 n).
Proof. apply Forall_forall. intros i Hin. apply in_seq in Hin. lia. Qed.

Section DETermination.

Variable W : Type.
Variable objective : list R -> W -> R * W.
Variable bounds : OptimizationBounds.
Variable options : DEOptions W.
Hypothesis default_rate : orDefault (de_crossoverRate options) 0.7 = 0.7.

Let populationSize : nat := orDefault (de_populationSize options) 15%nat.
Let dim : nat := length (lower bounds).

Lemma initIndividual_seed k seed :
  let r := mapi_st k
             (fun low j seed =>
                let high := get (upper bounds) j in
                let (u, seed) := random seed in (low + u * (high - low), seed))
             (lower bounds) seed in
  length (fst r) = dim /\ snd r = drawSeed dim seed.
Proof.
  unfold dim. revert k seed.
  induction (lower bounds) as [|low l IH]; intros k seed; simpl; [auto|].
  rewrite random_eq. specialize (IH (S k) (fst (random_word seed))).
  cbv zeta in IH. destruct (mapi_st (S k) _ l _) as [ys s2]. simpl in *.
  destruct IH as [Hl Hs]. split; [now rewrite Hl|exact Hs].
Qed.

Lemma initPopulation_shape n seed w :
  let r := initPopulation objective bounds n seed w in
  length (fst (fst (fst r))) = n /\
  Forall (fun individual => length individual = dim) (fst (fst (fst r))) /\
  snd (fst r) = initSeed n dim seed.
Proof.
  revert seed w. induction n as [|n IH]; intros seed w; simpl; [auto|].
  pose proof (initIndividual_seed 0 seed) as Hi. cbv zeta in Hi.
  destruct (mapi_st 0 _ (lower bounds) seed) as [individual seed1].
  cbn [fst snd] in Hi. destruct Hi as [Hl Hs].
  destruct (objective individual w) as [f w'].
  specialize (IH seed1 w'). cbv zeta in IH.
  destruct (initPopulation objective bounds n seed1 w') as [[[p fi] s] x].
  cbn [fst snd] in *. destruct IH as (Hn & Hall & Hseed).
  split; [simpl; now rewrite Hn|]. split; [now constructor|].
  now rewrite Hseed, Hs.
Qed.

Lemma deInit_shape w :
  populationShape populationSize dim (deInit objective bounds options w) /\
  rng (deInit objective bounds options w)
    = initSeed populationSize dim (orDefault (de_seed options) 42%Z).
Proof.
  unfold deInit. cbv zeta. fold populationSize.
  pose proof (initPopulation_shape populationSize (orDefault (de_seed options) 42%Z) w) as H.
  cbv zeta in H.
  destruct (initPopulation objective bounds populationSize _ w) as [[[p fi] s] x].
  destruct (findBest options fi). cbn [fst snd] in H.
  destruct H as (Hn & Hall & Hs). unfold populationShape. simpl. auto.
Qed.

Lemma deStep_succeeds fuel i st seed' :
  populationShape populationSize dim st -> (i < populationSize)%nat ->
  stepSeed fuel populationSize dim i (rng st) = Some seed' ->
  exists st', deStep objective bounds options fuel i st = Some st' /\
              rng st' = seed' /\ populationShape populationSize dim st'.
Proof.
  intros [Hn Hall] Hi. unfold stepSeed, deStep. cbv zeta.
  fold populationSize. rewrite selectCandidates_Z.
  destruct (selectCandidatesZ fuel populationSize i [] (rng st))
    as [[candidates seed]|]; [|discriminate].
  intros H; inversion H; subst seed'. clear H.
  rewrite default_rate.
  assert (Ht : length (nth i (population st) []) = dim).
  { apply (Forall_nth_default _ _ _ _ Hall). lia. }
  match goal with |- context [makeTrial ?cr ?d ?don ?tgt ?s] =>
    pose proof (makeTrial_seed d don tgt s) as Hs;
    pose proof (makeTrial_length cr d don tgt s) as Hl;
    destruct (makeTrial cr d don tgt s) as [trial seed1] end.
  cbn [fst snd] in Hs, Hl. rewrite Ht in Hs, Hl.
  destruct (objective trial (world st)) as [f w'].
  destruct (Rlt_dec f (get (fitness st) i));
    [destruct (Rlt_dec f (bestFitness st))|];
    eexists; (split; [reflexivity|]); unfold populationShape; cbn [rng population];
    (split; [exact Hs|]); split;
    rewrite ?set_nth_length; try assumption; now apply set_nth_Forall.
Qed.

Lemma deSweep_succeeds fuel targets st seed' :
  populationShape populationSize dim st ->
  Forall (fun i => (i < populationSize)%nat) targets ->
  sweepSeed fuel populationSize dim targets (rng st) = Some seed' ->
  exists st', deSweep objective bounds options fuel targets st = Some st' /\
              rng st' = seed' /\ populationShape populationSize dim st'.
Proof.
  revert st. induction targets as [|i rest IH]; intros st Hshape Hall; simpl.
  - intros H; inversion H; subst. eauto.
  - inversion Hall as [|? ? Hi Hrest]; subst.
    destruct (stepSeed fuel populationSize dim i (rng st)) as [s1|] eqn:E; [|discriminate].
    destruct (deStep_succeeds fuel i st s1 Hshape Hi E) as (st1 & -> & Hr & Hs1).
    rewrite <- Hr. now apply IH.
Qed.

Lemma deLoop_succeeds fuel n iteration prev st :
  populationShape populationSize dim st ->
  sweepsSucceed fuel populationSize dim n (rng st) = true ->
  exists r, deLoop objective bounds options fuel n iteration prev st = Some r.
Proof.
  revert iteration prev st. induction n as [|n IH]; intros iteration prev st Hshape; simpl.
  - eauto.
  - fold populationSize.
    destruct (sweepSeed fuel populationSize dim (seq 0 populationSize) (rng st))
      as [s1|] eqn:E; [|discriminate].
    intros Hn.
    destruct (deSweep_succeeds fuel _ st s1 Hshape (seq_below populationSize) E)
      as (st1 & -> & Hr & Hs1).
    destruct (Rlt_dec _ _); [eauto|].
    apply IH; [exact Hs1|]. cbn [rng]. now rewrite Hr.
Qed.

Lemma differentialEvolution_succeeds fuel w :
  sweepsSucceed fuel populationSize dim
    (Z.to_nat (orDefault (de_maxIterations options) 100%Z))
    (initSeed populationSize dim (orDefault (de_seed options) 42%Z)) = true ->
  exists r, differentialEvolution objective bounds options fuel w = Some r.
Proof.
  intros H. unfold differentialEvolution. cbv zeta.
  destruct (deInit_shape w) as [Hshape Hrng].
  rewrite <- Hrng in H.
  destruct (deLoop_succeeds fuel _ 0 (bestFitness (deInit objective bounds options w))
              _ Hshape H) as [[[st' it] conv] ->].
  eauto.
Qed.

End DETermination.

Lemma sweepsSucceed_prefix fuel populationSize dim n m seed :
  (m <= n)%nat -> sweepsSucceed fuel populationSize dim n seed = true ->
  sweepsSucceed fuel populationSize dim m seed = true.
Proof.
  revert n seed. induction m as [|m IH]; intros n seed Hle H; simpl; [reflexivity|].
  destruct n as [|n]; [lia|]. simpl in H.
  destruct (sweepSeed fuel populationSize dim (seq 0 populationSize) seed); [|discriminate].
  apply (IH n); [lia|assumption].
Qed.

(** ** IRF parameter estimation *)

Lemma sweeps_irf_default :
  sweepsSucceed 64 15 8 50 (initSeed 15 8 42) = true.
Proof. vm_compute. reflexivity. Qed.




(** ** Levenberg-Marquardt and curve fitting *)

Lemma mapi_from_length {A B : Type} (f : A -> nat -> B) l k :
  length (mapi_from k f l) = length l.
Proof. revert k. induction l as [|x l IH]; intros k; simpl; auto. Qed.

Lemma mapi_length {A B : Type} (f : A -> nat -> B) l : length (mapi f l) = length l.
Proof. apply mapi_from_length. Qed.

Lemma mapi_from_nth {A B : Type} (f : A -> nat -> B) l k i d d' :
  (i < length l)%nat -> nth i (mapi_from k f l) d' = f (nth i l d) (k + i)%nat.
Proof.
  revert k i. induction l as [|x l IH]; intros k [|i] Hi; simpl in *; try lia.
  - now rewrite Nat.add_0_r.
  - rewrite (IH (S k) i) by lia. f_equal. lia.
Qed.

Lemma mapi_nth {A B : Type} (f : A -> nat -> B) l i d d' :
  (i < length l)%nat -> nth i (mapi f l) d' = f (nth i l d) i.
Proof. intros Hi. unfold mapi. now rewrite (mapi_from_nth f l 0 i d d'). Qed.

Lemma sumSquares_acc l a : a <= fold_left (fun sum r => sum + r * r) l a.
Proof.
  revert a. induction l as [|x l IH]; intros a; simpl; [lra|].
  eapply Rle_trans; [|apply IH]. nra.
Qed.

Lemma sumSquares_nonneg l : 0 <= sumSquares l.
Proof. apply sumSquares_acc. Qed.

Lemma clamp_within lo hi p : lo <= hi -> lo <= Rmax lo (Rmin hi p) <= hi.
Proof.
  intros H. split; [apply Rmax_l|].
  apply Rmax_lub; [assumption|apply Rmin_l].
Qed.

Lemma paramErrorsOf_length covariance finalParams :
  length (paramErrorsOf covariance finalParams) = length covariance.
Proof. apply mapi_length. Qed.

Lemma paramErrorsOf_nth covariance finalParams i :
  (i < length covariance)%nat ->
  nth i (paramErrorsOf covariance finalParams) None = None \/
  exists err,
    nth i (paramErrorsOf covariance finalParams) None = Some err /\
    err = sqrt (Rabs (get2 covariance i i)) /\
    0 <= err <= 1e6 /\ err <= 100 * (Rabs (get finalParams i) + 1e-10).
Proof.
  intros Hi. unfold paramErrorsOf. rewrite (mapi_nth _ _ _ []) by exact Hi.
  cbv zeta. change (get (nth i covariance []) i) with (get2 covariance i i).
  pose proof (sqrt_pos (Rabs (get2 covariance i i))) as Hpos.
  set (err := sqrt (Rabs (get2 covariance i i))) in *.
  destruct (Rgt_dec err 1e6) as [H1|H1]; [now left|].
  destruct (Rgt_dec err ((Rabs (get finalParams i) + 1e-10) * 100)) as [H2|H2]; [now left|].
  right. exists err. unfold Rgt in *. repeat split; try reflexivity; lra.
Qed.

(** *** A perfect fit *)

Section LMPerfectFit.

Variable func : list R -> list R.
Variable initialParams : list R.
Variable options : LMOptions.

Lemma lmStep_zero_cost st :
  s_cost st = 0 ->
  s_cost (lmStep func initialParams options st) = 0 /\
  s_params (lmStep func initialParams options st) = s_params st /\
  s_residuals (lmStep func initialParams options st) = s_residuals st /\
  s_converged (lmStep func initialParams options st) = s_converged st.
Proof.
  intros Hc. unfold lmStep. cbv zeta.
  match goal with |- context [Rlt_dec (sumSquares ?x) (s_cost st)] =>
    pose proof (sumSquares_nonneg x) as Hn;
    destruct (Rlt_dec (sumSquares x) (s_cost st)) as [Hlt|Hge] end.
  - exfalso. lra.
  - cbn [s_cost s_params s_residuals s_converged]. auto.
Qed.

Lemma lmLoop_zero_cost n st :
  s_cost st = 0 ->
  s_cost (lmLoop func initialParams options n st) = 0 /\
  s_params (lmLoop func initialParams options n st) = s_params st /\
  s_residuals (lmLoop func initialParams options n st) = s_residuals st.
Proof.
  revert st. induction n as [|n IH]; intros st Hc; simpl; [auto|].
  destruct (s_converged st); [auto|].
  destruct (lmStep_zero_cost st Hc) as (H1 & H2 & H3 & _).
  destruct (IH _ H1) as (H4 & H5 & H6).
  rewrite H4, H5, H6, H2, H3. auto.
Qed.

Lemma get2_scaled_zero (M : list (list R)) i j :
  get2 (map (map (fun v => v * 0)) M) i j = 0.
Proof.
  unfold get2. destruct (Nat.lt_ge_cases i (length M)) as [Hi|Hi].
  - rewrite (nth_map_lt _ _ _ []) by exact Hi.
    destruct (Nat.lt_ge_cases j (length (nth i M []))) as [Hj|Hj].
    + rewrite (nth_map_lt _ _ _ 0) by exact Hj. lra.
    + apply nth_overflow. now rewrite length_map.
  - rewrite (nth_overflow (map _ M)) by (now rewrite length_map).
    now destruct j.
Qed.

Lemma inverse_length A : length (inverse A) = length A.
Proof. unfold inverse. now rewrite length_map, length_seq. Qed.

Lemma JTJ_length p jacobian residuals : length (JTJ p jacobian residuals) = p.
Proof. unfold JTJ. now rewrite length_map, length_seq. Qed.

Lemma levenbergMarquardt_covariance_length :
  length (lm_covariance (levenbergMarquardt func initialParams options))
    = length initialParams.
Proof.
  unfold levenbergMarquardt. cbv zeta. cbn [lm_covariance].
  destruct (Rgt_dec _ 1e10).
  - now rewrite length_map, length_seq.
  - now rewrite length_map, inverse_length, mapi_length, JTJ_length.
Qed.

Lemma levenbergMarquardt_perfect_fit :
  sumSquares (func initialParams) = 0 ->
  lm_x (levenbergMarquardt func initialParams options) = initialParams /\
  forall i j, get2 (lm_covariance (levenbergMarquardt func initialParams options)) i j = 0.
Proof.
  intros Hc. unfold levenbergMarquardt. cbv zeta. cbn [lm_covariance lm_x].
  match goal with |- context [lmLoop func initialParams options ?n ?st] =>
    destruct (lmLoop_zero_cost n st Hc) as (H1 & H2 & _);
    set (final := lmLoop func initialParams options n st) in * end.
  cbn [s_params] in H2. split; [exact H2|].
  intros i j. rewrite H1. unfold Rdiv. rewrite !Rmult_0_l.
  destruct (Rgt_dec _ 1e10).
  - unfold get2.
    destruct (Nat.lt_ge_cases i (length initialParams)) as [Hi|Hi].
    + rewrite (nth_map_lt _ _ _ 0%nat) by (now rewrite length_seq).
      destruct (Nat.lt_ge_cases j (length initialParams)) as [Hj|Hj].
      * rewrite (nth_map_lt _ _ _ 0%nat) by (now rewrite length_seq).
        destruct (_ =? _)%nat; lra.
      * apply nth_overflow. now rewrite length_map, length_seq.
    + rewrite (nth_overflow (map _ _)) by (now rewrite length_map, length_seq).
      now destruct j.
  - apply get2_scaled_zero.
Qed.

End LMPerfectFit.

(** *** [curveFit] *)

Lemma curveFit_returns {W : Type} model xData yData initialParams bounds
    (options : CurveFitOptions W) fuel w result w' :
  curveFit model xData yData initialParams bounds options fuel w = Some (result, w') ->
  exists start,
    let lmResult :=
      levenbergMarquardt (residualsOf model xData yData) start
        (orDefault (lmOptions options) noLMOptions) in
    cf_params result =
      mapi (fun p i => Rmax (get (lower bounds) i) (Rmin (get (upper bounds) i) p))
           (lm_x lmResult) /\
    cf_covariance result = lm_covariance lmResult /\
    cf_paramErrors result = paramErrorsOf (lm_covariance lmResult) (cf_params result).
Proof.
  unfold curveFit. cbv zeta.
  match goal with |- match ?g with _ => _ end = _ -> _ =>
    destruct g as [[start w0]|]; [|discriminate] end.
  intros H; inversion H; subst. exists start. cbn [cf_params cf_covariance cf_paramErrors].
  repeat split; reflexivity.
Qed.

Lemma curveFit_local {W : Type} model xData yData initialParams bounds
    (options : CurveFitOptions W) fuel w :
  useGlobalOpt options = Some false ->
  exists result,
    curveFit model xData yData initialParams bounds options fuel w = Some (result, w) /\
    let lmResult :=
      levenbergMarquardt (residualsOf model xData yData) initialParams
        (orDefault (lmOptions options) noLMOptions) in
    cf_params result =
      mapi (fun p i => Rmax (get (lower bounds) i) (Rmin (get (upper bounds) i) p))
           (lm_x lmResult) /\
    cf_covariance result = lm_covariance lmResult /\
    cf_paramErrors result = paramErrorsOf (lm_covariance lmResult) (cf_params result).
Proof.
  intros Hopt. unfold curveFit. cbv zeta. rewrite Hopt. cbn [orDefault].
  eexists. split; [reflexivity|]. cbn [cf_params cf_covariance cf_paramErrors].
  repeat split; reflexivity.
Qed.

(** C8, as the code has it: whenever [curveFit] returns, every parameter
    lies within its bounds (where the lower bound does not exceed the upper
    one), and every parameter error is either the not-a-number marker or the
    value [sqrt |covariance[i][i]|], which is then non-negative, at most 1e6
    and at most [100 (|params[i]| + 1e-10)].  Without the global search
    [curveFit] always returns. *)
Theorem curveFit_bounds_and_errors (W : Type) (model : list R -> list R -> list R)
    (xData yData initialParams : list R) (bounds : OptimizationBounds)
    (options : CurveFitOptions W) (w : W) :
  (forall fuel result w',
     curveFit model xData yData initialParams bounds options fuel w = Some (result, w') ->
     (forall i, (i < length (cf_params result))%nat ->
        (i < length (lower bounds))%nat -> (i < length (upper bounds))%nat ->
        get (lower bounds) i <= get (upper bounds) i ->
        get (lower bounds) i <= get (cf_params result) i <= get (upper bounds) i) /\
     (forall i, (i < length (cf_paramErrors result))%nat ->
        nth i (cf_paramErrors result) None = None \/
        exists err,
          nth i (cf_paramErrors result) None = Some err /\
          err = sqrt (Rabs (get2 (cf_covariance result) i i)) /\
          0 <= err <= 1e6 /\ err <= 100 * (Rabs (get (cf_params result) i) + 1e-10))) /\
  (useGlobalOpt options = Some false ->
   forall fuel, exists result,
     curveFit model xData yData initialParams bounds options fuel w = Some (result, w)).
Proof.
  split.
  - intros fuel result w' H.
    destruct (curveFit_returns _ _ _ _ _ _ _ _ _ _ H) as (start & Hp & Hc & He).
    cbv zeta in Hp, Hc, He. split.
    + intros i Hi _ _ Hle. rewrite Hp in *. rewrite mapi_length in Hi.
      unfold get at 2 5. rewrite (mapi_nth _ _ _ 0) by exact Hi.
      now apply clamp_within.
    + intros i Hi. rewrite He in *. rewrite paramErrorsOf_length in Hi.
      rewrite Hc. now apply paramErrorsOf_nth.
  - intros Hopt fuel.
    destruct (curveFit_local model xData yData initialParams bounds options fuel w Hopt)
      as (result & H & _).
    now exists result.
Qed.

Lemma zeroModel_perfect :
  sumSquares (residualsOf zeroModel [0; 1] [0; 0] [1]) = 0.
Proof.
  unfold residualsOf, zeroModel, sumSquares, mapi, get. cbn [map mapi_from nth fold_left].
  lra.
Qed.

Lemma curveFit_bounds_and_errors_witness :
  exists result,
    curveFit zeroModel [0; 1] [0; 0] [1] {| lower := [0]; upper := [2] |}
      (localOnly unit) 0 tt = Some (result, tt) /\
    0 <= get (cf_params result) 0 <= 2.
Proof.
  destruct (curveFit_bounds_and_errors unit zeroModel [0; 1] [0; 0] [1]
              {| lower := [0]; upper := [2] |} (localOnly unit) tt) as [Hres Hret].
  destruct (Hret eq_refl 0%nat) as [result H].
  exists result. split; [exact H|].
  destruct (Hres _ _ _ H) as [Hb _].
  assert (Hlen : length (cf_params result) = 1%nat).
  { destruct (curveFit_local zeroModel [0; 1] [0; 0] [1] {| lower := [0]; upper := [2] |}
                (localOnly unit) 0 tt eq_refl) as (r & Hr & Hp & _).
    rewrite Hr in H. inversion H; subst r. cbv zeta in Hp. rewrite Hp, mapi_length.
    destruct (levenbergMarquardt_perfect_fit (residualsOf zeroModel [0; 1] [0; 0]) [1]
                (orDefault (lmOptions (localOnly unit)) noLMOptions) zeroModel_perfect)
      as [Hx _].
    now rewrite Hx. }
  apply (Hb 0%nat); cbn [lower upper length]; try lia.
  unfold get; cbn [nth]. lra.
Defined.

(** C8 as stated fails: on data the model already fits exactly, the
    parameter error is 0, which is neither positive nor the not-a-number
    marker. *)
Lemma curveFit_zero_error_counterexample :
  exists result,
    curveFit zeroModel [0; 1] [0; 0] [1] {| lower := [0]; upper := [2] |}
      (localOnly unit) 0 tt = Some (result, tt) /\
    nth 0 (cf_paramErrors result) None = Some 0.
Proof.
  destruct (curveFit_local zeroModel [0; 1] [0; 0] [1] {| lower := [0]; upper := [2] |}
              (localOnly unit) 0 tt eq_refl) as (result & Hr & Hp & Hc & He).
  exists result. split; [exact Hr|]. cbv zeta in Hp, Hc, He.
  set (lmResult := levenbergMarquardt (residualsOf zeroModel [0; 1] [0; 0]) [1]
                     (orDefault (lmOptions (localOnly unit)) noLMOptions)) in *.
  destruct (levenbergMarquardt_perfect_fit (residualsOf zeroModel [0; 1] [0; 0]) [1]
              (orDefault (lmOptions (localOnly unit)) noLMOptions) zeroModel_perfect)
    as [Hx Hzero].
  fold lmResult in Hx, Hzero.
  pose proof (levenbergMarquardt_covariance_length (residualsOf zeroModel [0; 1] [0; 0]) [1]
                (orDefault (lmOptions (localOnly unit)) noLMOptions)) as Hlen.
  fold lmResult in Hlen. cbn [length] in Hlen.
  rewrite He. unfold paramErrorsOf.
  rewrite (mapi_nth _ _ _ []) by (rewrite Hlen; lia). cbv zeta.
  change (get (nth 0 (lm_covariance lmResult) []) 0) with (get2 (lm_covariance lmResult) 0 0).
  rewrite Hzero, Rabs_R0, sqrt_0.
  destruct (Rgt_dec 0 1e6) as [H1|H1]; [unfold Rgt in H1; lra|].
  destruct (Rgt_dec 0 _) as [H2|H2]; [|reflexivity].
  exfalso. unfold Rgt in H2. pose proof (Rabs_pos (get (cf_params result) 0)). lra.
Qed.

(** ** Fermi-edge fitting *)

Lemma sweeps_fermi_with_temp :
  sweepsSucceed 64 15 5 100 (initSeed 15 5 42) = true.
Proof. vm_compute. reflexivity. Qed.

Lemma sweeps_fermi_fixed_temp :
  sweepsSucceed 64 15 4 100 (initSeed 15 4 42) = true.
Proof. vm_compute. reflexivity. Qed.

(** With the options [fitFermiEdge] passes (population 15, seed 42, at most
    100 iterations, crossover rate 0.7), [curveFit] returns for bounds of
    four or five parameters, with or without the global search. *)
Lemma curveFit_fermi_returns {W : Type} model xData yData initialParams bounds
    (useGlobal : bool) (onProgress : option (nat -> R -> W -> W)) (w : W) :
  (length (lower bounds) = 5%nat \/ length (lower bounds) = 4%nat) ->
  exists r,
    curveFit model xData yData initialParams bounds
      {| useGlobalOpt := Some useGlobal;
         deOptions :=
           Some {| de_maxIterations := Some 100%Z; de_populationSize := Some 15%nat;
                   de_mutationFactor := None; de_crossoverRate := None;
                   de_tolerance := None; de_seed := None;
                   de_onProgress := onProgress |};
         lmOptions := None |} 64 w = Some r.
Proof.
  intros Hdim. destruct useGlobal.
  - unfold curveFit. cbv zeta.
    cbn [useGlobalOpt deOptions lmOptions orDefault de_maxIterations de_populationSize
         de_mutationFactor de_crossoverRate de_tolerance de_seed de_onProgress].
    match goal with |- context [differentialEvolution ?o ?b ?op ?f ?x] =>
      pose proof (differentialEvolution_succeeds _ o b op eq_refl f x) as Hex
    end.
    assert (Hs : sweepsSucceed 64 15 (length (lower bounds)) 100
                   (initSeed 15 (length (lower bounds)) 42) = true).
    { destruct Hdim as [-> | ->];
        [exact sweeps_fermi_with_temp|exact sweeps_fermi_fixed_temp]. }
    destruct (Hex Hs) as [[deResult w'] ->]. eauto.
  - destruct (curveFit_local model xData yData initialParams bounds
                {| useGlobalOpt := Some false;
                   deOptions :=
                     Some {| de_maxIterations := Some 100%Z; de_populationSize := Some 15%nat;
                             de_mutationFactor := None; de_crossoverRate := None;
                             de_tolerance := None; de_seed := None;
                             de_onProgress := onProgress |};
                   lmOptions := None |} 64 w eq_refl) as (result & H & _).
    eauto.
Qed.

Lemma fitFermiEdge_returns {W : Type} energy observedSpectrum temp fitTemp useGlobal
    (onProgress : option (nat -> R -> W -> W)) (w : W) :
  exists result w',
    fitFermiEdge energy observedSpectrum temp fitTemp useGlobal onProgress 64 w
      = Some (result, w').
Proof.
  unfold fitFermiEdge. cbv zeta. destruct fitTemp.
  - match goal with |- context [curveFit ?m ?x ?y ?i ?b ?o 64 w] =>
      destruct (curveFit_fermi_returns m x y i b useGlobal onProgress w
                  (or_introl eq_refl)) as [[r w'] ->] end.
    eauto.
  - match goal with |- context [curveFit ?m ?x ?y ?i ?b ?o 64 w] =>
      destruct (curveFit_fermi_returns m x y i b useGlobal onProgress w
                  (or_intror eq_refl)) as [[r w'] ->] end.
    eauto.
Qed.

Lemma fitFermiEdge_success {W : Type} energy observedSpectrum temp fitTemp useGlobal
    (onProgress : option (nat -> R -> W -> W)) fuel (w : W) result w' :
  fitFermiEdge energy observedSpectrum temp fitTemp useGlobal onProgress fuel w
    = Some (result, w') ->
  fe_success result = true /\ fe_errorMessage result = None.
Proof.
  unfold fitFermiEdge. cbv zeta. destruct fitTemp;
    (match goal with |- match ?c with _ => _ end = _ -> _ =>
       destruct c as [[r w0]|]; [|discriminate] end);
    intros H; inversion H; subst; split; reflexivity.
Qed.

Lemma estimateIRFParameters_message {RandState W : Type}
    (Math_random : RandState -> R * RandState) observedSpectrum temp bounds maxIterations
    (onProgress : option (nat -> R -> W -> W)) fuel rs w result rs' w' :
  estimateIRFParameters Math_random observedSpectrum temp bounds maxIterations
    onProgress fuel rs w = Some (result, rs', w') ->
  (ir_success result = true /\ ir_message result = "Optimization converged"%string) \/
  (ir_success result = false /\ ir_message result = "Maximum iterations reached"%string).
Proof.
  unfold estimateIRFParameters. cbv zeta.
  match goal with |- match ?c with _ => _ end = _ -> _ =>
    destruct c as [[deResult ew]|]; [|discriminate] end.
  destruct (simulate Math_random _ (randState ew)) as [fitted rs2].
  intros H; inversion H; subst. cbn [ir_success ir_message].
  destruct (de_converged deResult); [left|right]; split; reflexivity.
Qed.

(** C4, as the code has it: neither fitter checks its input.  Whatever the
    arrays hold, a result that [fitFermiEdge] returns from its [try] block
    has [success = true] and no error message (the failure result comes from
    the [catch] block alone), and what [estimateIRFParameters] returns has
    [success] equal to the optimiser's convergence flag, with one of two
    fixed messages. *)
Theorem fitters_do_not_validate (RandState W : Type)
    (Math_random : RandState -> R * RandState)
    (energyAxis observedSpectrum : list R) (temperature : R) (fitTemp useGlobal : bool)
    (bounds : IRFBounds) (maxIterations : Z)
    (onProgress : option (nat -> R -> W -> W)) (rs : RandState) (w : W) :
  (forall fuel result w',
     fitFermiEdge energyAxis observedSpectrum temperature fitTemp useGlobal onProgress fuel w
       = Some (result, w') ->
     fe_success result = true /\ fe_errorMessage result = None) /\
  (forall fuel result rs' w',
     estimateIRFParameters Math_random observedSpectrum temperature bounds maxIterations
       onProgress fuel rs w = Some (result, rs', w') ->
     (ir_success result = true /\ ir_message result = "Optimization converged"%string) \/
     (ir_success result = false /\ ir_message result = "Maximum iterations reached"%string)).
Proof.
  split.
  - intros fuel result w'. apply fitFermiEdge_success.
  - intros fuel result rs' w'. apply estimateIRFParameters_message.
Qed.

Lemma fitters_do_not_validate_witness :
  exists result w',
    fitFermiEdge [0; 0.001] [1; 0] 5 false true None 64 tt = Some (result, w') /\
    fe_success result = true.
Proof.
  destruct (fitFermiEdge_returns (W := unit) [0; 0.001] [1; 0] 5 false true None tt)
    as (result & w' & H).
  destruct (fitters_do_not_validate nat unit halfRandom [0; 0.001] [1; 0] 5 false true
              defaultIRFBounds 50 None 0%nat tt) as (Hok & _).
  exists result, w'. split; [exact H|]. exact (proj1 (Hok _ _ _ H)).
Defined.

(** C4 as stated fails: on empty arrays, and on arrays of different lengths,
    [fitFermiEdge] returns a result with [success = true] and no error
    message. *)
Lemma fitFermiEdge_invalid_input_counterexample :
  (exists result,
     fitFermiEdge [] [] 5 false false None 64 tt = Some (result, tt) /\
     fe_success result = true /\ fe_errorMessage result = None) /\
  (exists result,
     fitFermiEdge [-0.001; 0; 0.001] [1; 0.5] 5 true false None 64 tt = Some (result, tt) /\
     fe_success result = true /\ fe_errorMessage result = None).
Proof.
  split.
  - destruct (fitFermiEdge_returns (W := unit) [] [] 5 false false None tt)
      as (result & [] & H).
    exists result. split; [exact H|]. exact (fitFermiEdge_success _ _ _ _ _ _ _ _ _ _ H).
  - destruct (fitFermiEdge_returns (W := unit) [-0.001; 0; 0.001] [1; 0.5] 5 true false None tt)
      as (result & [] & H).
    exists result. split; [exact H|]. exact (fitFermiEdge_success _ _ _ _ _ _ _ _ _ _ H).
Qed.

(** ** Further properties of the physics kernels *)

















(** *** Linear interpolation *)

Lemma interp_search_bracket xOld x fuel lo hi :
  (lo < hi)%nat -> (hi - lo <= S fuel)%nat ->
  get xOld lo <= x -> x < get xOld hi ->
  let r := interp_search fuel xOld x lo hi in
  snd r = S (fst r) /\ (lo <= fst r)%nat /\ (snd r <= hi)%nat /\
  get xOld (fst r) <= x /\ x < get xOld (snd r).
Proof.
  revert lo hi. induction fuel as [|fuel IH]; intros lo hi Hlt Hfuel Hlo Hhi;
    cbn [interp_search].
  - cbn [fst snd]. repeat split; try assumption; lia.
  - destruct (Nat.ltb_spec 1 (hi - lo)) as [Hgap|Hgap].
    + pose proof (Nat.div_mod_eq (lo + hi) 2) as Hdm.
      pose proof (Nat.mod_upper_bound (lo + hi) 2 ltac:(lia)) as Hm.
      set (mid := ((lo + hi) / 2)%nat) in *.
      assert (Hmid : (lo < mid < hi)%nat) by lia.
      destruct (Rle_dec (get xOld mid) x) as [Hle|Hgt].
      * destruct (IH mid hi ltac:(lia) ltac:(lia) Hle Hhi) as (H1 & H2 & H3 & H4 & H5).
        repeat split; try assumption; lia.
      * destruct (IH lo mid ltac:(lia) ltac:(lia) Hlo ltac:(lra)) as (H1 & H2 & H3 & H4 & H5).
        repeat split; try assumption; lia.
    + cbn [fst snd]. repeat split; try assumption; lia.
Qed.

Lemma interp_cases (xOld yOld : list R) (leftVal rightVal : option R) (x : R) :
  let left := match leftVal with Some v => v | None => get yOld 0 end in
  let right := match rightVal with Some v => v | None => get yOld (length yOld - 1) end in
  (x <= get xOld 0 -> interp [x] xOld yOld leftVal rightVal = [left]) /\
  (get xOld 0 < x -> get xOld (length xOld - 1) <= x ->
     interp [x] xOld yOld leftVal rightVal = [right]) /\
  (get xOld 0 < x -> x < get xOld (length xOld - 1) ->
     exists lo, (S lo < length xOld)%nat /\
       get xOld lo <= x /\ x < get xOld (S lo) /\
       interp [x] xOld yOld leftVal rightVal =
         [get yOld lo + (x - get xOld lo) / (get xOld (S lo) - get xOld lo)
                        * (get yOld (S lo) - get yOld lo)]).
Proof.
  intros left right. unfold interp. cbn [map]. fold left right. repeat split.
  - intros H. destruct (Rle_dec x (get xOld 0)); [reflexivity|lra].
  - intros H1 H2. destruct (Rle_dec x (get xOld 0)); [lra|].
    destruct (Rge_dec x (get xOld (length xOld - 1))) as [|Hn]; [reflexivity|].
    exfalso. apply Hn. lra.
  - intros H1 H2. destruct (Rle_dec x (get xOld 0)); [lra|].
    destruct (Rge_dec x (get xOld (length xOld - 1))) as [Hge|_]; [lra|].
    assert (Hlen : (0 < length xOld - 1)%nat).
    { destruct (Nat.eq_dec (length xOld - 1) 0) as [E|E]; [|lia].
      rewrite E in H2. lra. }
    pose proof (interp_search_bracket xOld x (length xOld) 0 (length xOld - 1)
                  Hlen ltac:(lia) ltac:(lra) H2) as Hb.
    cbv zeta in Hb.
    destruct (interp_search (length xOld) xOld x 0 (length xOld - 1)) as [lo hi].
    cbn [fst snd] in Hb. destruct Hb as (-> & _ & Hhi & Hxlo & Hxhi).
    exists lo. repeat split; try assumption. lia.
Qed.

(** X2: For a query strictly between the first and the last abscissa, with
    a sample for every abscissa, [interp] finds two adjacent abscissae
    [xOld[lo] <= x < xOld[lo + 1]] that bracket the query and returns the
    point of the chord between their samples, which lies between these two
    samples. *)
Theorem interp_between_neighbours (xOld yOld : list R) (leftVal rightVal : option R) (x : R) :
  (length xOld <= length yOld)%nat ->
  get xOld 0 < x -> x < get xOld (length xOld - 1) ->
  exists lo v,
    (S lo < length xOld)%nat /\
    get xOld lo <= x < get xOld (S lo) /\
    interp [x] xOld yOld leftVal rightVal = [v] /\
    v = get yOld lo
        + (x - get xOld lo) / (get xOld (S lo) - get xOld lo)
          * (get yOld (S lo) - get yOld lo) /\
    Rmin (get yOld lo) (get yOld (S lo)) <= v <= Rmax (get yOld lo) (get yOld (S lo)).
Proof.
  intros _ H1 H2.
  destruct (proj2 (proj2 (interp_cases xOld yOld leftVal rightVal x)) H1 H2)
    as (lo & Hlo & Ha & Hb & He).
  exists lo. eexists. split; [exact Hlo|]. split; [split; assumption|].
  split; [exact He|]. split; [reflexivity|].
  set (t := (x - get xOld lo) / (get xOld (S lo) - get xOld lo)).
  assert (Ht : 0 <= t < 1).
  { unfold t. split.
    - apply Rmult_le_pos; [lra|]. left. apply Rinv_0_lt_compat. lra.
    - apply quotient_lt; lra. }
  set (y0 := get yOld lo). set (y1 := get yOld (S lo)).
  unfold Rmin, Rmax. destruct (Rle_dec y0 y1); split; nra.
Qed.

Lemma interp_between_neighbours_witness :
  exists lo v,
    (S lo < 3)%nat /\
    get [0; 1; 2] lo <= 0.5 < get [0; 1; 2] (S lo) /\
    interp [0.5] [0; 1; 2] [10; 20; 40] None None = [v] /\
    v = get [10; 20; 40] lo
        + (0.5 - get [0; 1; 2] lo) / (get [0; 1; 2] (S lo) - get [0; 1; 2] lo)
          * (get [10; 20; 40] (S lo) - get [10; 20; 40] lo) /\
    Rmin (get [10; 20; 40] lo) (get [10; 20; 40] (S lo)) <= v
      <= Rmax (get [10; 20; 40] lo) (get [10; 20; 40] (S lo)).
Proof.
  apply (interp_between_neighbours [0; 1; 2] [10; 20; 40] None None 0.5);
    [cbn [length]; lia|unfold get; simpl; lra|unfold get; simpl; lra].
Defined.

(** *** Axes *)

Lemma get_linspace a b n i :
  (i < n)%nat -> get (linspace a b n) i = a + INR i * ((b - a) / (INR n - 1)).
Proof.
  intros Hi. unfold linspace. cbv zeta. unfold get.
  rewrite (nth_map_lt _ _ _ 0%nat) by (now rewrite length_seq).
  now rewrite seq_nth.
Qed.

(** X3: With at least two points, [linspace] starts at [start], ends at [stop]
    and is evenly spaced by [(stop - start) / (num - 1)]. *)
Theorem linspace_endpoints_and_spacing (start stop : R) (num : nat) :
  (2 <= num)%nat ->
  length (linspace start stop num) = num /\
  get (linspace start stop num) 0 = start /\
  get (linspace start stop num) (num - 1) = stop /\
  (forall i, (S i < num)%nat ->
     get (linspace start stop num) (S i) - get (linspace start stop num) i
       = (stop - start) / (INR num - 1)).
Proof.
  intros Hn. split; [apply length_linspace|].
  assert (Hd : INR num - 1 <> 0).
  { assert (2 <= INR num) by (replace 2 with (INR 2) by (simpl; lra); now apply le_INR). lra. }
  split; [rewrite get_linspace by lia; simpl; lra|]. split.
  - rewrite get_linspace by lia. rewrite minus_INR by lia. simpl. field. exact Hd.
  - intros i Hi. rewrite !get_linspace by lia. rewrite S_INR. field. exact Hd.
Qed.

Lemma linspace_endpoints_and_spacing_witness :
  get (linspace (-0.1) 0.1 500) 499 = 0.1.
Proof.
  apply (proj1 (proj2 (proj2 (linspace_endpoints_and_spacing (-0.1) 0.1 500 ltac:(lia))))).
Defined.

(** *** Fermi-Dirac symmetry *)

Lemma fdClamp_opp e temp : fdClamp (- e) temp = - fdClamp e temp.
Proof.
  unfold fdClamp.
  replace ((- e - 0) / (KB * temp)) with (- ((e - 0) / (KB * temp))) by (unfold Rdiv; ring).
  destruct (clamp_cases ((e - 0) / (KB * temp))) as [[? ->]|[[? ->]|[? ->]]];
  destruct (clamp_cases (- ((e - 0) / (KB * temp)))) as [[? ->]|[[? ->]|[? ->]]]; lra.
Qed.

Lemma logistic_symmetry v : 1 / (exp v + 1) + 1 / (exp (- v) + 1) = 1.
Proof.
  rewrite exp_Ropp. pose proof (exp_pos v). field. split; lra.
Qed.

(** X4: From 0.1 K on, the occupations at energies [e] and [-e] add up to 1
    (so the occupation at the Fermi level is one half); the clamp keeps this
    symmetry. *)
Theorem fermiDirac_particle_hole_symmetry (energy : list R) (temp : R) (i j : nat) :
  0.1 <= temp -> (i < length energy)%nat -> (j < length energy)%nat ->
  get energy j = - get energy i ->
  get (fermiDirac energy temp 0) i + get (fermiDirac energy temp 0) j = 1.
Proof.
  intros HT Hi Hj He. rewrite !fermiDirac_warm by assumption.
  rewrite He, fdClamp_opp. apply logistic_symmetry.
Qed.

Lemma fermiDirac_particle_hole_symmetry_witness :
  get (fermiDirac [-0.01; 0; 0.01] 5 0) 0 + get (fermiDirac [-0.01; 0; 0.01] 5 0) 2 = 1.
Proof.
  apply fermiDirac_particle_hole_symmetry; try (simpl; lia); try lra.
  unfold get; simpl; lra.
Defined.

(** *** Skew Gaussians *)













(** *** Numerical gradient *)

Lemma get_affine a b n k :
  (k < n)%nat -> get (map (fun i => a + b * INR i) (seq 0 n)) k = a + b * INR k.
Proof.
  intros Hk. unfold get.
  rewrite (nth_map_lt _ _ _ 0%nat) by (now rewrite length_seq).
  now rewrite seq_nth.
Qed.

(** X7: On equally spaced samples of a straight line, [gradient] returns the
    slope at every point, the two end points included. *)
Theorem gradient_exact_on_affine (a b dx : R) (n : nat) :
  (2 <= n)%nat -> dx <> 0 ->
  gradient (map (fun i => a + b * dx * INR i) (seq 0 n)) dx = repeat b n.
Proof.
  intros Hn Hdx. unfold gradient. cbv zeta. rewrite length_map, length_seq.
  apply (nth_ext _ _ 0 0).
  - now rewrite length_map, length_seq, repeat_length.
  - intros i Hi. rewrite length_map, length_seq in Hi.
    rewrite (nth_map_lt _ _ _ 0%nat) by (now rewrite length_seq).
    rewrite seq_nth by exact Hi. cbn [Nat.add]. rewrite nth_repeat_lt by exact Hi.
    destruct (Nat.eqb_spec i (n - 1)) as [E|E].
    + rewrite !get_affine by lia.
      replace (INR (n - 1)) with (INR (n - 2) + 1)
        by (rewrite <- S_INR; f_equal; lia).
      field. exact Hdx.
    + destruct (Nat.eqb_spec i 0) as [E0|E0].
      * rewrite !get_affine by lia. simpl. field. exact Hdx.
      * rewrite !get_affine by lia.
        replace (INR (i + 1)) with (INR (i - 1) + 2).
        -- field. exact Hdx.
        -- replace (i + 1)%nat with (S (S (i - 1))) by lia. rewrite !S_INR. lra.
Qed.

Lemma gradient_exact_on_affine_witness :
  gradient (map (fun i => 1 + 3 * 0.5 * INR i) (seq 0 4)) 0.5 = repeat 3 4.
Proof.
  apply gradient_exact_on_affine; [lia|lra].
Defined.

(** ** Further properties of the forward simulator *)

Lemma mapi_st_stateless {A B St : Type} (f : A -> nat -> St -> B * St) (g : A -> B) :
  (forall x k st, f x k st = (g x, st)) ->
  forall l k st, mapi_st k f l st = (map g l, st).
Proof.
  intros Hf. induction l as [|x l IH]; intros k st; simpl; [reflexivity|].
  now rewrite Hf, IH.
Qed.

(** With a Poisson level of at most 1e-5 and a Gaussian level of at most 0,
    [addNoise] draws nothing from [Math.random] and only clips negative
    samples to 0. *)
Lemma addNoise_quiet (RandState : Type) (Math_random : RandState -> R * RandState)
    (samples : list R) (poissonLevel gaussianLevel : R) (rs : RandState) :
  poissonLevel <= 1e-5 -> gaussianLevel <= 0 ->
  addNoise Math_random samples poissonLevel gaussianLevel rs = (map (Rmax 0) samples, rs).
Proof.
  intros Hp Hg. unfold addNoise. apply mapi_st_stateless. intros x k st.
  destruct (Rgt_dec poissonLevel 1e-5) as [H|_]; [unfold Rgt in H; lra|].
  destruct (Rgt_dec gaussianLevel 0) as [H|_]; [unfold Rgt in H; lra|].
  reflexivity.
Qed.





Lemma g_E_createGrid a b n c d m :
  g_E (createGrid a b n c d m) = fst (meshgrid (linspace a b n) (linspace c d m)).
Proof. unfold createGrid. destruct (meshgrid _ _). reflexivity. Qed.




(** ** Further properties of Differential Evolution *)

Lemma idxOf_range w n :
  (0 <= w < two32)%Z -> (0 < n)%nat -> (0 <= idxOf w n < Z.of_nat n)%Z.
Proof.
  intros Hw Hn. unfold idxOf, two32 in *. split.
  - apply Z.div_pos; nia.
  - apply Z.div_lt_upper_bound; nia.
Qed.

Lemma existsb_eqb_false idx (l : list Z) :
  existsb (Z.eqb idx) l = false -> ~ In idx l.
Proof.
  intros H Hin. assert (existsb (Z.eqb idx) l = true).
  { apply existsb_exists. exists idx. split; [assumption|apply Z.eqb_refl]. }
  congruence.
Qed.

Lemma selectCandidates_spec fuel populationSize i candidates seed result seed' :
  (0 < populationSize)%nat ->
  (length candidates <= 3)%nat -> NoDup candidates ->
  Forall (fun c => c <> Z.of_nat i /\ (0 <= c < Z.of_nat populationSize)%Z) candidates ->
  selectCandidates fuel populationSize i candidates seed = Some (result, seed') ->
  length result = 3%nat /\ NoDup result /\
  Forall (fun c => c <> Z.of_nat i /\ (0 <= c < Z.of_nat populationSize)%Z) result.
Proof.
  intros Hpop. revert candidates seed.
  induction fuel as [|fuel IH]; intros candidates seed Hlen Hnd Hall;
    cbn [selectCandidates].
  - destruct (Nat.leb_spec 3 (length candidates)) as [Hge|Hlt]; [|discriminate].
    intros Hr; inversion Hr; subst. repeat split; try assumption; lia.
  - destruct (Nat.leb_spec 3 (length candidates)) as [Hge|Hlt].
    + intros Hr; inversion Hr; subst. repeat split; try assumption; lia.
    + rewrite random_eq. rewrite floor_word_idx.
      pose proof (idxOf_range _ populationSize (random_word_range seed) Hpop) as Hr.
      destruct (random_word seed) as [s w]. cbn [fst snd] in *.
      destruct (Z.eqb_spec (idxOf w populationSize) (Z.of_nat i)) as [E|E]; cbn [negb andb].
      * now apply IH.
      * destruct (existsb (Z.eqb (idxOf w populationSize)) candidates) eqn:Ex; cbn [negb].
        -- now apply IH.
        -- apply IH.
           ++ rewrite length_app. simpl. lia.
           ++ apply NoDup_app; [assumption|repeat constructor; intros []| ].
              intros a Ha [<-|[]]. now apply (existsb_eqb_false _ _ Ex).
           ++ apply Forall_app. split; [assumption|]. now repeat constructor.
Qed.

Lemma selectCandidates_three (fuel populationSize i : nat) (seed : Z)
    (result : list Z) (seed' : Z) :
  (0 < populationSize)%nat ->
  selectCandidates fuel populationSize i [] seed = Some (result, seed') ->
  exists a b c, result = [a; b; c] /\
    a <> b /\ a <> c /\ b <> c /\
    a <> Z.of_nat i /\ b <> Z.of_nat i /\ c <> Z.of_nat i /\
    (0 <= a < Z.of_nat populationSize)%Z /\ (0 <= b < Z.of_nat populationSize)%Z /\
    (0 <= c < Z.of_nat populationSize)%Z.
Proof.
  intros Hpop H.
  destruct (selectCandidates_spec fuel populationSize i [] seed result seed' Hpop
              ltac:(simpl; lia) (NoDup_nil Z) (Forall_nil _) H) as (Hlen & Hnd & Hall).
  destruct result as [|a [|b [|c [|d rest]]]]; simpl in Hlen; try lia.
  exists a, b, c. split; [reflexivity|].
  inversion Hnd as [|? ? Ha Hnd']; subst. inversion Hnd' as [|? ? Hb Hnd'']; subst.
  inversion Hall as [|? ? [Ha1 Ha2] Hall']; subst.
  inversion Hall' as [|? ? [Hb1 Hb2] Hall'']; subst.
  inversion Hall'' as [|? ? [Hc1 Hc2] _]; subst.
  simpl in Ha, Hb. repeat split; try assumption; try lia; intros ->; tauto.
Qed.

(** X11: When the candidate search of target [i] returns, it returns exactly
    three indices, pairwise distinct, none of them [i], each a valid index
    into the population. *)
Theorem selectCandidates_distinct (fuel populationSize i : nat) (seed : Z)
    (result : list Z) (seed' : Z) :
  (0 < populationSize)%nat ->
  selectCandidates fuel populationSize i [] seed = Some (result, seed') ->
  exists a b c, result = [a; b; c] /\
    a <> b /\ a <> c /\ b <> c /\
    a <> Z.of_nat i /\ b <> Z.of_nat i /\ c <> Z.of_nat i /\
    (0 <= a < Z.of_nat populationSize)%Z /\ (0 <= b < Z.of_nat populationSize)%Z /\
    (0 <= c < Z.of_nat populationSize)%Z.
Proof. exact (selectCandidates_three fuel populationSize i seed result seed'). Qed.

Lemma selectCandidates_distinct_witness :
  exists a b c seed', selectCandidates 64 15 0 [] 42 = Some ([a; b; c], seed') /\
    a <> b /\ a <> c /\ b <> c.
Proof.
  destruct (selectCandidates 64 15 0 [] 42) as [[result seed']|] eqn:E.
  - destruct (selectCandidates_distinct 64 15 0 42 result seed' ltac:(lia) E)
      as (a & b & c & -> & Hab & Hac & Hbc & _).
    exists a, b, c, seed'. auto.
  - exfalso. rewrite selectCandidates_Z in E. vm_compute in E. discriminate.
Defined.

(** X12: With one, two or three individuals there are not three distinct indices
    other than the target's, so the candidate search of the first sweep
    never ends: [differentialEvolution] does not return, whatever the fuel,
    as soon as one iteration is allowed. *)
Theorem differentialEvolution_small_population_diverges (W : Type)
    (objective : list R -> W -> R * W) (bounds : OptimizationBounds)
    (options : DEOptions W) (fuel : nat) (w : W) :
  (1 <= orDefault (de_populationSize options) 15%nat <= 3)%nat ->
  (1 <= orDefault (de_maxIterations options) 100%Z)%Z ->
  differentialEvolution objective bounds options fuel w = None.
Proof.
  intros Hpop Hmax. unfold differentialEvolution. cbv zeta.
  destruct (Z.to_nat (orDefault (de_maxIterations options) 100%Z)) as [|n] eqn:En; [lia|].
  cbn [deLoop].
  destruct (orDefault (de_populationSize options) 15%nat) as [|p] eqn:Ep; [lia|].
  cbn [seq deSweep]. unfold deStep. cbv zeta. rewrite Ep.
  match goal with |- context [selectCandidates fuel (S p) 0 [] ?s] =>
    destruct (selectCandidates fuel (S p) 0 [] s) as [[result seed']|] eqn:E end;
    [|reflexivity].
  exfalso.
  destruct (selectCandidates_three fuel (S p) 0 _ result seed' ltac:(lia) E)
    as (a & b & c & _ & Hab & Hac & Hbc & Ha & Hb & Hc & Hra & Hrb & Hrc).
  lia.
Qed.

Lemma differentialEvolution_small_population_diverges_witness :
  differentialEvolution countingSquare unitBounds
    {| de_maxIterations := None; de_populationSize := Some 3%nat;
       de_mutationFactor := None; de_crossoverRate := None; de_tolerance := None;
       de_seed := None; de_onProgress := None |} 1000 0%nat = None.
Proof.
  apply differentialEvolution_small_population_diverges; cbn [orDefault de_populationSize
    de_maxIterations]; lia.
Defined.


(** A run that is used as an example below: at most 50 iterations over the eight
    default bounds of the IRF estimation, recording the callback's calls. *)
Lemma recording_run_returns :
  exists r,
    differentialEvolution squareObjective defaultBoundsArray (recordingOptions 50) 64 []
      = Some r.
Proof.
  apply differentialEvolution_succeeds; [reflexivity|exact sweeps_irf_default].
Qed.



(** *** Invariants of a run *)


Section DEInvariant.

Variable W : Type.
Variable objective : list R -> W -> R * W.
Variable bounds : OptimizationBounds.
Variable options : DEOptions W.
Variable Inv : DEState W -> Prop.

Let populationSize : nat := orDefault (de_populationSize options) 15%nat.

Hypothesis step_keeps :
  forall fuel i st st', (i < populationSize)%nat -> Inv st ->
    deStep objective bounds options fuel i st = Some st' -> Inv st'.
Hypothesis progress_keeps :
  forall cb, de_onProgress options = Some cb ->
  forall st i, Inv st -> Inv (withWorld st (cb i (bestFitness st) (world st))).
Hypothesis same_world_keeps : forall st, Inv st -> Inv (withWorld st (world st)).

Lemma deSweep_invariant fuel targets st st' :
  Forall (fun i => (i < populationSize)%nat) targets -> Inv st ->
  deSweep objective bounds options fuel targets st = Some st' -> Inv st'.
Proof.
  revert st. induction targets as [|i rest IH]; intros st Hall Hinv; cbn [deSweep].
  - intros H; inversion H; now subst.
  - inversion Hall as [|? ? Hi Hrest]; subst.
    destruct (deStep objective bounds options fuel i st) as [st1|] eqn:E; [|discriminate].
    apply IH; [assumption|]. exact (step_keeps _ _ _ _ Hi Hinv E).
Qed.

Lemma deLoop_invariant fuel n iteration prev st st' iteration' converged :
  Inv st ->
  deLoop objective bounds options fuel n iteration prev st
    = Some (st', iteration', converged) -> Inv st'.
Proof.
  revert iteration prev st. induction n as [|n IH]; intros iteration prev st Hinv;
    cbn [deLoop].
  - intros H; inversion H; now subst.
  - fold populationSize.
    destruct (deSweep objective bounds options fuel (seq 0 populationSize) st)
      as [st1|] eqn:E; [|discriminate].
    pose proof (deSweep_invariant _ _ _ _ (seq_below populationSize) Hinv E) as H1.
    assert (H2 : Inv (withWorld st1
                        match de_onProgress options with
                        | Some onProgress => onProgress (S iteration) (bestFitness st1) (world st1)
                        | None => world st1
                        end)).
    { destruct (de_onProgress options) as [cb|] eqn:Ecb.
      - now apply progress_keeps.
      - now apply same_world_keeps. }
    unfold withWorld in H2.
    destruct (Rlt_dec _ _).
    + intros H; inversion H; now subst.
    + now apply IH.
Qed.

Lemma differentialEvolution_invariant fuel w result w' :
  Inv (deInit objective bounds options w) ->
  differentialEvolution objective bounds options fuel w = Some (result, w') ->
  exists st, Inv st /\ de_x result = bestIndividual st /\
             de_fitness result = bestFitness st /\ w' = world st.
Proof.
  intros Hinit. unfold differentialEvolution. cbv zeta.
  destruct (deLoop objective bounds options fuel _ 0 _ _) as [[[st' it] conv]|] eqn:E;
    [|discriminate].
  apply (deLoop_invariant _ _ _ _ _ _ _ _ Hinit) in E.
  intros H; inversion H; subst. exists st'. auto.
Qed.

End DEInvariant.

(** *** The result stays within the bounds *)

Lemma mapi_st_nth_in {A B St : Type} (f : A -> nat -> St -> B * St)
    (P : nat -> B -> Prop) (d : A) (d' : B) l :
  forall k st,
  (forall j st, (j < length l)%nat -> P (k + j)%nat (fst (f (nth j l d) (k + j)%nat st))) ->
  forall j, (j < length l)%nat -> P (k + j)%nat (nth j (fst (mapi_st k f l st)) d').
Proof.
  induction l as [|x l IH]; intros k st Hf j Hj; simpl in Hj; [lia|].
  simpl. pose proof (Hf 0%nat st ltac:(simpl; lia)) as Hx. cbn [nth] in Hx.
  rewrite Nat.add_0_r in Hx.
  destruct (f x k st) as [y st1]. 
  assert (IH' := IH (S k) st1).
  destruct (mapi_st (S k) f l st1) as [ys st2]. simpl in *.
  destruct j as [|j].
  - replace (k + 0)%nat with k by lia. exact Hx.
  - replace (k + S j)%nat with (S (k + j)) by lia. apply IH'; [|lia].
    intros j' st' Hj'. specialize (Hf (S j') st' ltac:(lia)).
    now replace (k + S j')%nat with (S (k + j')) in Hf by lia.
Qed.

Lemma get_set_nth t v (l : list R) k :
  (k < length l)%nat -> get (set_nth t v l) k = if (t =? k)%nat then v else get l k.
Proof.
  revert t k. induction l as [|x l IH]; intros t k Hk; simpl in Hk; [lia|].
  destruct t as [|t], k as [|k]; unfold get in *; cbn [set_nth nth Nat.eqb]; try reflexivity.
  apply IH. lia.
Qed.

Lemma fold_set_nth_clamp (f : nat -> R -> R) (targets : list nat) (donor : list R) :
  NoDup targets ->
  let result := fold_left (fun d j => set_nth j (f j (get d j)) d) targets donor in
  length result = length donor /\
  forall j, (j < length donor)%nat ->
    (In j targets -> get result j = f j (get donor j)) /\
    (~ In j targets -> get result j = get donor j).
Proof.
  revert donor. induction targets as [|t rest IH]; intros donor Hnd; cbn [fold_left].
  - split; [reflexivity|]. intros j Hj. split; [intros []|reflexivity].
  - inversion Hnd as [|? ? Ht Hrest]; subst.
    destruct (IH (set_nth t (f t (get donor t)) donor) Hrest) as [Hl Hg].
    rewrite set_nth_length in Hl. split; [exact Hl|].
    intros j Hj. destruct (Hg j ltac:(now rewrite set_nth_length)) as [Hin Hout].
    rewrite get_set_nth in Hin, Hout by exact Hj.
    destruct (Nat.eqb_spec t j) as [E|E].
    + subst j. split; [intros _; now apply Hout|]. intros Hn. exfalso. apply Hn. now left.
    + split.
      * intros [Heq|Hr]; [congruence|now apply Hin].
      * intros Hn. apply Hout. intros Hr. apply Hn. now right.
Qed.

Lemma makeDonor_within bounds F dim pa pb pc :
  orderedBounds bounds -> length pa = dim ->
  length (makeDonor bounds F dim pa pb pc) = dim /\
  withinBounds bounds (makeDonor bounds F dim pa pb pc).
Proof.
  intros Hb Hpa. unfold makeDonor. cbv zeta.
  set (donor0 := mapi (fun val j => val + F * (get pb j - get pc j)) pa).
  assert (Hl0 : length donor0 = dim) by (unfold donor0; now rewrite mapi_length).
  destruct (fold_set_nth_clamp
              (fun j v => Rmax (get (lower bounds) j) (Rmin (get (upper bounds) j) v))
              (seq 0 dim) donor0 (seq_NoDup dim 0)) as [Hl Hg].
  cbv zeta in Hl, Hg. split; [now rewrite Hl|].
  intros j Hj. rewrite Hl, Hl0 in Hj.
  destruct (Hg j ltac:(now rewrite Hl0)) as [Hin _].
  rewrite Hin by (apply in_seq; lia). apply clamp_within. apply Hb.
Qed.

Lemma makeTrial_within bounds CR dim donor target seed :
  length donor = length target ->
  withinBounds bounds donor -> withinBounds bounds target ->
  withinBounds bounds (fst (makeTrial CR dim donor target seed)).
Proof.
  intros Hlen Hd Ht j Hj.
  unfold makeTrial in *. rewrite mapi_st_length in Hj.
  pose proof (Hd j ltac:(lia)) as Hdj. pose proof (Ht j Hj) as Htj.
  pose proof (mapi_st_nth (crossover CR dim donor)
                (fun x k y => y = get donor k \/ y = x) 0 0
                (fun x k st => crossover_cases CR dim donor x k st)
                target 0%nat seed j Hj) as Hc.
  cbn [Nat.add] in Hc. unfold get in *. destruct Hc as [-> | ->]; assumption.
Qed.

Section DEBounds.

Variable W : Type.
Variable objective : list R -> W -> R * W.
Variable bounds : OptimizationBounds.
Variable options : DEOptions W.
Hypothesis ordered : orderedBounds bounds.

Let populationSize : nat := orDefault (de_populationSize options) 15%nat.
Let dim : nat := length (lower bounds).

Lemma initIndividual_within k seed :
  k = 0%nat ->
  withinBounds bounds
    (fst (mapi_st k
            (fun low j seed =>
               let high := get (upper bounds) j in
               let (u, seed) := random seed in (low + u * (high - low), seed))
            (lower bounds) seed)).
Proof.
  intros -> j Hj. rewrite mapi_st_length in Hj. unfold get at 2.
  apply (mapi_st_nth_in _ (fun k y => get (lower bounds) k <= y <= get (upper bounds) k)
           0 0 (lower bounds) 0%nat seed); [|exact Hj].
  intros j' st' Hj'. cbn [Nat.add]. cbv zeta.
  pose proof (random_range st') as Hr. destruct (random st') as [u s]. cbn [fst] in *.
  pose proof (ordered j') as Ho. fold (get (lower bounds) j'). nra.
Qed.

Lemma initPopulation_within n seed w :
  Forall (fun x => length x = dim /\ withinBounds bounds x)
         (fst (fst (fst (initPopulation objective bounds n seed w)))).
Proof.
  revert seed w. induction n as [|n IH]; intros seed w; cbn [initPopulation].
  - constructor.
  - pose proof (initIndividual_within 0 seed eq_refl) as Hw.
    pose proof (mapi_st_length
                  (fun low j seed =>
                     let high := get (upper bounds) j in
                     let (u, seed) := random seed in (low + u * (high - low), seed))
                  (lower bounds) 0 seed) as Hl.
    destruct (mapi_st 0 _ (lower bounds) seed) as [individual seed1]. cbn [fst] in Hw, Hl.
    destruct (objective individual w) as [f w'].
    specialize (IH seed1 w').
    destruct (initPopulation objective bounds n seed1 w') as [[[p fi] s] x].
    cbn [fst] in *. constructor; [split; assumption|assumption].
Qed.

Lemma findBest_index fit : (fst (findBest options fit) < Nat.max 1 populationSize)%nat.
Proof.
  unfold findBest. fold populationSize.
  assert (H : forall l acc, Forall (fun i => (i < Nat.max 1 populationSize)%nat) l ->
              (fst acc < Nat.max 1 populationSize)%nat ->
              (fst (fold_left
                      (fun (acc : nat * R) i =>
                         if Rlt_dec (get fit i) (snd acc) then (i, get fit i) else acc)
                      l acc) < Nat.max 1 populationSize)%nat).
  { induction l as [|i l IH]; intros acc Hall Hacc; cbn [fold_left]; [exact Hacc|].
    inversion Hall; subst. apply IH; [assumption|].
    destruct (Rlt_dec (get fit i) (snd acc)); assumption. }
  apply H; [|cbn [fst]; lia].
  apply Forall_forall. intros i Hi. apply in_seq in Hi. lia.
Qed.

Lemma deInit_bounded w : boundedState bounds options (deInit objective bounds options w).
Proof.
  unfold deInit. cbv zeta. fold populationSize.
  pose proof (initPopulation_within populationSize (orDefault (de_seed options) 42%Z) w) as Hw.
  pose proof (initPopulation_shape W objective bounds populationSize
                (orDefault (de_seed options) 42%Z) w) as Hs.
  cbv zeta in Hs.
  destruct (initPopulation objective bounds populationSize _ w) as [[[p fi] s] x].
  cbn [fst snd] in *. destruct Hs as (Hn & _ & _).
  pose proof (findBest_index fi) as Hb.
  destruct (findBest options fi) as [b f]. cbn [fst] in Hb.
  unfold boundedState. cbn [population bestIndividual].
  split; [exact Hn|]. split; [exact Hw|].
  destruct (Nat.lt_ge_cases b (length p)) as [Hlt|Hge].
  - pose proof (Forall_nth_default _ p b [] Hw Hlt) as [Hl Hin].
    split; [exact Hin|]. intros _. exact Hl.
  - rewrite (nth_overflow p [] Hge). split.
    + intros j Hj. simpl in Hj. lia.
    + intros Hp. fold populationSize in Hb. lia.
Qed.

Lemma deStep_bounded fuel i st st' :
  (i < populationSize)%nat -> boundedState bounds options st ->
  deStep objective bounds options fuel i st = Some st' -> boundedState bounds options st'.
Proof.
  intros Hi (Hn & Hall & Hbest & Hblen). unfold deStep. cbv zeta.
  fold populationSize dim.
  destruct (selectCandidates fuel populationSize i [] (rng st))
    as [[candidates seed]|] eqn:E; [|discriminate].
  destruct (selectCandidates_three fuel populationSize i (rng st) candidates seed
              ltac:(lia) E)
    as (a & b & c & -> & _ & _ & _ & _ & _ & _ & Hra & _ & _).
  cbn [nth].
  assert (Hpa : length (nth (Z.to_nat a) (population st) []) = dim).
  { apply (Forall_nth_default _ _ (Z.to_nat a) [] Hall). lia. }
  assert (Htarget : length (nth i (population st) []) = dim /\
                    withinBounds bounds (nth i (population st) [])).
  { apply (Forall_nth_default _ _ i [] Hall). lia. }
  destruct Htarget as [Htl Htw].
  match goal with |- context [makeDonor ?bd ?F ?d ?pa ?pb ?pc] =>
    destruct (makeDonor_within bd F d pa pb pc ordered Hpa) as [Hdl Hdw];
    set (donor := makeDonor bd F d pa pb pc) in * end.
  match goal with |- context [makeTrial ?cr ?d donor ?tgt ?s] =>
    pose proof (makeTrial_length cr d donor tgt s) as Hl;
    pose proof (makeTrial_within bounds cr d donor tgt s
                  ltac:(now rewrite Hdl, Htl) Hdw Htw) as Htrial;
    destruct (makeTrial cr d donor tgt s) as [trial seed1] end.
  cbn [fst] in Hl, Htrial. rewrite Htl in Hl.
  destruct (objective trial (world st)) as [f w'].
  destruct (Rlt_dec f (get (fitness st) i));
    [destruct (Rlt_dec f (bestFitness st))|];
    intros H; inversion H; subst; unfold boundedState;
    cbn [population bestIndividual]; rewrite ?set_nth_length;
    (split; [exact Hn|]);
    (split; [first [exact Hall | apply set_nth_Forall; [split; assumption|exact Hall]]|]);
    (split; [first [exact Htrial | exact Hbest]
            |first [intros _; exact Hl | exact Hblen]]).
Qed.

Lemma differentialEvolution_bounded fuel w result w' :
  differentialEvolution objective bounds options fuel w = Some (result, w') ->
  withinBounds bounds (de_x result) /\
  ((1 <= populationSize)%nat -> length (de_x result) = dim).
Proof.
  intros H.
  destruct (differentialEvolution_invariant W objective bounds options (boundedState bounds options)
              deStep_bounded
              ltac:(intros cb _ st i0 Hs; exact Hs) ltac:(intros st Hs; exact Hs)
              fuel w result w' (deInit_bounded w) H)
    as (st & (_ & _ & Hb & Hl) & Hx & _).
  rewrite Hx. split; assumption.
Qed.

End DEBounds.



(** *** The reported fitness is the objective at the reported vector *)

Lemma nth_set_nth {A : Type} t (v : A) l k d :
  (k < length l)%nat -> nth k (set_nth t v l) d = if (t =? k)%nat then v else nth k l d.
Proof.
  revert t k. induction l as [|x l IH]; intros t k Hk; simpl in Hk; [lia|].
  destruct t as [|t], k as [|k]; cbn [set_nth nth Nat.eqb]; try reflexivity.
  apply IH. lia.
Qed.

Lemma findBest_value {W : Type} (options : DEOptions W) fit :
  snd (findBest options fit) = get fit (fst (findBest options fit)).
Proof.
  unfold findBest.
  assert (H : forall l acc, snd acc = get fit (fst acc) ->
            snd (fold_left
                   (fun (acc : nat * R) i =>
                      if Rlt_dec (get fit i) (snd acc) then (i, get fit i) else acc) l acc)
            = get fit (fst (fold_left
                   (fun (acc : nat * R) i =>
                      if Rlt_dec (get fit i) (snd acc) then (i, get fit i) else acc) l acc))).
  { induction l as [|i l IH]; intros acc Hacc; cbn [fold_left]; [exact Hacc|].
    apply IH. destruct (Rlt_dec (get fit i) (snd acc)); [reflexivity|exact Hacc]. }
  apply H. reflexivity.
Qed.

Section DEFitness.

Variable W : Type.
Variable objective : list R -> W -> R * W.
Variable bounds : OptimizationBounds.
Variable options : DEOptions W.
Variable f : list R -> R.
Hypothesis objective_value : forall x w, fst (objective x w) = f x.

Let populationSize : nat := orDefault (de_populationSize options) 15%nat.
Hypothesis populated : (1 <= populationSize)%nat.

Lemma initPopulation_evaluated n seed w :
  let r := initPopulation objective bounds n seed w in
  length (fst (fst (fst r))) = n /\ length (snd (fst (fst r))) = n /\
  forall i, (i < n)%nat -> get (snd (fst (fst r))) i = f (nth i (fst (fst (fst r))) []).
Proof.
  revert seed w. induction n as [|n IH]; intros seed w; cbn [initPopulation].
  - cbn [fst snd length]. repeat split; intros; lia.
  - destruct (mapi_st 0 _ (lower bounds) seed) as [individual seed1].
    pose proof (objective_value individual w) as Hv.
    destruct (objective individual w) as [v w']. cbn [fst] in Hv.
    specialize (IH seed1 w'). cbv zeta in IH.
    destruct (initPopulation objective bounds n seed1 w') as [[[p fi] s] x].
    cbn [fst snd] in *. destruct IH as (H1 & H2 & H3).
    split; [simpl; now rewrite H1|]. split; [simpl; now rewrite H2|].
    intros [|i] Hi; unfold get in *; cbn [nth]; [exact Hv|]. apply H3. lia.
Qed.

Lemma deInit_evaluated w : evaluatedState options f (deInit objective bounds options w).
Proof.
  unfold deInit. cbv zeta. fold populationSize.
  pose proof (initPopulation_evaluated populationSize (orDefault (de_seed options) 42%Z) w)
    as H. cbv zeta in H.
  destruct (initPopulation objective bounds populationSize _ w) as [[[p fi] s] x].
  cbn [fst snd] in H. destruct H as (H1 & H2 & H3).
  pose proof (findBest_index W bounds options fi) as Hb. fold populationSize in Hb.
  pose proof (findBest_value options fi) as Hv.
  destruct (findBest options fi) as [b v]. cbn [fst snd] in Hb, Hv.
  unfold evaluatedState. cbn [population fitness bestFitness bestIndividual].
  repeat split; try assumption. rewrite Hv. apply H3. lia.
Qed.

Lemma deStep_evaluated fuel i st st' :
  (i < populationSize)%nat -> evaluatedState options f st ->
  deStep objective bounds options fuel i st = Some st' -> evaluatedState options f st'.
Proof.
  intros Hi (Hp & Hf & Hall & Hbest). unfold deStep. cbv zeta.
  destruct (selectCandidates fuel _ i [] (rng st)) as [[candidates seed]|]; [|discriminate].
  destruct (makeTrial _ _ _ _ seed) as [trial seed1].
  pose proof (objective_value trial (world st)) as Hv.
  destruct (objective trial (world st)) as [v w']. cbn [fst] in Hv.
  assert (Hupd : forall k, (k < populationSize)%nat ->
            get (set_nth i v (fitness st)) k = f (nth k (set_nth i trial (population st)) [])).
  { intros k Hk. unfold get. rewrite !nth_set_nth by lia.
    destruct (i =? k)%nat; [exact Hv|now apply Hall]. }
  destruct (Rlt_dec v (get (fitness st) i));
    [destruct (Rlt_dec v (bestFitness st))|];
    intros H; inversion H; subst; unfold evaluatedState;
    cbn [population fitness bestFitness bestIndividual]; rewrite ?set_nth_length;
    repeat split; assumption.
Qed.

Lemma differentialEvolution_evaluated fuel w result w' :
  differentialEvolution objective bounds options fuel w = Some (result, w') ->
  de_fitness result = f (de_x result).
Proof.
  intros H.
  destruct (differentialEvolution_invariant W objective bounds options (evaluatedState options f)
              deStep_evaluated
              ltac:(intros cb _ st i0 Hs; exact Hs) ltac:(intros st Hs; exact Hs)
              fuel w result w' (deInit_evaluated w) H)
    as (st & (_ & _ & _ & Hb) & Hx & Hfit & _).
  now rewrite Hx, Hfit.
Qed.

End DEFitness.

(** X15: With a population of at least one and an objective whose value is a
    function [f] of its argument alone, the fitness a run reports is [f] at
    the vector it reports. *)
Theorem differentialEvolution_fitness_of_result (W : Type)
    (objective : list R -> W -> R * W) (bounds : OptimizationBounds)
    (options : DEOptions W) (f : list R -> R) (fuel : nat) (w : W)
    (result : DEResult) (w' : W) :
  (forall x w0, fst (objective x w0) = f x) ->
  (1 <= orDefault (de_populationSize options) 15%nat)%nat ->
  differentialEvolution objective bounds options fuel w = Some (result, w') ->
  de_fitness result = f (de_x result).
Proof.
  intros Hf Hp H.
  exact (differentialEvolution_evaluated W objective bounds options f Hf Hp fuel w result w' H).
Qed.

(** *** What a run does to the world *)

Lemma differentialEvolution_fitness_of_result_witness :
  exists result w',
    differentialEvolution squareObjective defaultBoundsArray (recordingOptions 50) 64 []
      = Some (result, w') /\
    de_fitness result = get (de_x result) 0 * get (de_x result) 0.
Proof.
  destruct recording_run_returns as [[result w'] H]. exists result, w'.
  split; [exact H|].
  apply (differentialEvolution_fitness_of_result _ squareObjective defaultBoundsArray
           (recordingOptions 50) (fun x => get x 0 * get x 0) 64 [] result w');
    [reflexivity|cbn [recordingOptions de_populationSize orDefault]; lia|exact H].
Defined.

Section DEWorld.

Variable W : Type.
Variable objective : list R -> W -> R * W.
Variable bounds : OptimizationBounds.
Variable options : DEOptions W.
Variable P : W -> Prop.
Hypothesis objective_keeps : forall x w, P w -> P (snd (objective x w)).
Hypothesis progress_keeps :
  forall cb, de_onProgress options = Some cb -> forall i v w, P w -> P (cb i v w).

Lemma initPopulation_world n seed w :
  P w -> P (snd (initPopulation objective bounds n seed w)).
Proof.
  revert seed w. induction n as [|n IH]; intros seed w Hw; cbn [initPopulation].
  - exact Hw.
  - destruct (mapi_st 0 _ (lower bounds) seed) as [individual seed1].
    pose proof (objective_keeps individual w Hw) as Hk.
    destruct (objective individual w) as [v w1]. cbn [snd] in Hk.
    specialize (IH seed1 w1 Hk).
    destruct (initPopulation objective bounds n seed1 w1) as [[[p fi] s] x]. exact IH.
Qed.

Lemma deStep_world fuel i st st' :
  P (world st) -> deStep objective bounds options fuel i st = Some st' -> P (world st').
Proof.
  intros Hw. unfold deStep. cbv zeta.
  destruct (selectCandidates fuel _ i [] (rng st)) as [[candidates seed]|]; [|discriminate].
  destruct (makeTrial _ _ _ _ seed) as [trial seed1].
  pose proof (objective_keeps trial (world st) Hw) as Hk.
  destruct (objective trial (world st)) as [v w1]. cbn [snd] in Hk.
  destruct (Rlt_dec v (get (fitness st) i));
    [destruct (Rlt_dec v (bestFitness st))|];
    intros H; inversion H; subst; exact Hk.
Qed.

Lemma differentialEvolution_world fuel w result w' :
  P w -> differentialEvolution objective bounds options fuel w = Some (result, w') -> P w'.
Proof.
  intros Hw H.
  destruct (differentialEvolution_invariant W objective bounds options
              (fun st => P (world st))
              ltac:(intros fu i st st' _ Hs Hst; exact (deStep_world fu i st st' Hs Hst))
              ltac:(intros cb Hcb st i0 Hs; cbn [withWorld world];
                    exact (progress_keeps cb Hcb i0 _ _ Hs))
              ltac:(intros st Hs; exact Hs)
              fuel w result w') as (st & Hst & _ & _ & ->); [|exact H|exact Hst].
  unfold deInit. cbv zeta.
  pose proof (initPopulation_world (orDefault (de_populationSize options) 15%nat)
                (orDefault (de_seed options) 42%Z) w Hw) as Hi.
  destruct (initPopulation objective bounds _ _ w) as [[[p fi] s] x].
  destruct (findBest options fi). exact Hi.
Qed.

End DEWorld.

(** ** Noise-free simulation and the IRF objective *)

Lemma simulate_noiseless (RandState : Type) (Math_random : RandState -> R * RandState)
    (params : SimulatorParams) (rs : RandState) :
  orDefault (poissonNoise params) 0 <= 1e-5 ->
  orDefault (gaussianNoise params) 0 <= 0 ->
  snd (simulate Math_random params rs) = rs /\
  spectrum (fst (simulate Math_random params rs))
    = map (Rmax 0) (spectrumClean (fst (simulate Math_random params rs))).
Proof.
  intros Hp Hg. unfold simulate. cbv zeta.
  change (match poissonNoise params with Some v => v | None => 0 end)
    with (orDefault (poissonNoise params) 0).
  change (match gaussianNoise params with Some v => v | None => 0 end)
    with (orDefault (gaussianNoise params) 0).
  rewrite addNoise_quiet by assumption.
  cbn [fst snd spectrum spectrumClean]. split; reflexivity.
Qed.

(** X9: With both noise levels absent or switched off, [simulate] takes no draw
    from [Math.random], and its [spectrum] is [spectrumClean] with negative
    samples clipped to 0. *)
Theorem simulate_quiet (RandState : Type) (Math_random : RandState -> R * RandState)
    (params : SimulatorParams) (rs : RandState) :
  orDefault (poissonNoise params) 0 <= 1e-5 ->
  orDefault (gaussianNoise params) 0 <= 0 ->
  snd (simulate Math_random params rs) = rs /\
  spectrum (fst (simulate Math_random params rs))
    = map (Rmax 0) (spectrumClean (fst (simulate Math_random params rs))).
Proof. exact (simulate_noiseless RandState Math_random params rs). Qed.

Lemma simulate_quiet_witness :
  snd (simulate halfRandom (simParamsOf [0.01; 0.08; 1.5; 0.002; 0.5; 0.5; 0; 0] 5) 4%nat)
    = 4%nat.
Proof.
  apply (simulate_quiet nat halfRandom); unfold simParamsOf;
    cbn [poissonNoise gaussianNoise orDefault]; lra.
Defined.

Lemma simParamsOf_quiet params temp :
  orDefault (poissonNoise (simParamsOf params temp)) 0 <= 1e-5 /\
  orDefault (gaussianNoise (simParamsOf params temp)) 0 <= 0.
Proof. unfold simParamsOf. cbn [poissonNoise gaussianNoise orDefault]. split; lra. Qed.

Lemma irfObjective_world {RandState W : Type} (Math_random : RandState -> R * RandState)
    observedSpectrum temp params (ew : EstWorld RandState W) :
  randState (snd (irfObjective Math_random observedSpectrum temp params ew)) = randState ew /\
  progressState (snd (irfObjective Math_random observedSpectrum temp params ew))
    = progressState ew.
Proof.
  unfold irfObjective. cbv zeta.
  destruct (simParamsOf_quiet params temp) as [Hp Hg].
  pose proof (proj1 (simulate_noiseless RandState Math_random (simParamsOf params temp)
                       (randState ew) Hp Hg)) as Hs.
  destruct (simulate Math_random (simParamsOf params temp) (randState ew)) as [r rs'].
  cbn [snd randState progressState] in *. split; [exact Hs|reflexivity].
Qed.

Lemma estimateIRFParameters_random (RandState W : Type)
    (Math_random : RandState -> R * RandState)
    (observedSpectrum : list R) (temp : R) (bounds : IRFBounds) (maxIterations : Z)
    (onProgress : option (nat -> R -> W -> W)) (fuel : nat) (rs : RandState) (w : W)
    (result : IRFEstimationResult) (rs' : RandState) (w' : W) :
  estimateIRFParameters Math_random observedSpectrum temp bounds maxIterations
    onProgress fuel rs w = Some (result, rs', w') ->
  rs' = rs.
Proof.
  unfold estimateIRFParameters. cbv zeta.
  match goal with |- context [differentialEvolution ?o ?b ?op ?f ?x] =>
    destruct (differentialEvolution o b op f x) as [[deResult ew]|] eqn:E; [|discriminate];
    assert (Hobj : forall x0 ew0, randState ew0 = rs -> randState (snd (o x0 ew0)) = rs)
      by (intros x0 ew0 H0; now rewrite (proj1 (irfObjective_world _ _ _ _ _)));
    assert (Hcb : forall cb, de_onProgress op = Some cb ->
                    forall i v ew0, randState ew0 = rs -> randState (cb i v ew0) = rs)
      by (intros cb Hcb i v ew0 H0; cbn [de_onProgress] in Hcb;
          destruct onProgress as [cb0|]; [|discriminate];
          injection Hcb as <-; exact H0);
    pose proof (differentialEvolution_world _ o b op (fun ew0 => randState ew0 = rs)
                  Hobj Hcb f x deResult ew eq_refl E) as Hrs
  end.
  cbv beta in Hrs.
  destruct (simParamsOf_quiet (de_x deResult) temp) as [Hp Hg].
  pose proof (proj1 (simulate_noiseless RandState Math_random (simParamsOf (de_x deResult) temp)
                       (randState ew) Hp Hg)) as Hs.
  destruct (simulate Math_random _ (randState ew)) as [fitted rs2].
  cbn [snd] in Hs. intros H; inversion H; subst. reflexivity.
Qed.

(** X17: [estimateIRFParameters] takes no draw from [Math.random]: the state of
    the generator it returns is the state it was given. *)
Theorem estimateIRFParameters_leaves_random (RandState W : Type)
    (Math_random : RandState -> R * RandState)
    (observedSpectrum : list R) (temp : R) (bounds : IRFBounds) (maxIterations : Z)
    (onProgress : option (nat -> R -> W -> W)) (fuel : nat) (rs : RandState) (w : W)
    (result : IRFEstimationResult) (rs' : RandState) (w' : W) :
  estimateIRFParameters Math_random observedSpectrum temp bounds maxIterations
    onProgress fuel rs w = Some (result, rs', w') ->
  rs' = rs.
Proof.
  exact (estimateIRFParameters_random RandState W Math_random observedSpectrum temp bounds
           maxIterations onProgress fuel rs w result rs' w').
Qed.

Lemma estimateIRFParameters_returns {RandState W : Type}
    (Math_random : RandState -> R * RandState) observedSpectrum temp bounds maxIterations
    (onProgress : option (nat -> R -> W -> W)) rs w :
  (maxIterations <= 50)%Z ->
  exists result rs' w',
    estimateIRFParameters Math_random observedSpectrum temp bounds maxIterations
      onProgress 64 rs w = Some (result, rs', w').
Proof.
  intros Hmax. unfold estimateIRFParameters. cbv zeta.
  match goal with |- context [differentialEvolution ?o ?b ?op ?f ?x] =>
    pose proof (differentialEvolution_succeeds _ o b op eq_refl f x) as Hex
  end.
  assert (Hs : sweepsSucceed 64 15 8 (Z.to_nat maxIterations) (initSeed 15 8 42) = true)
    by (apply (sweepsSucceed_prefix 64 15 8 50); [lia|exact sweeps_irf_default]).
  destruct (Hex Hs) as [[deResult ew] ->].
  destruct (simulate Math_random _ (randState ew)) as [fitted rs2]. eauto.
Qed.

Lemma estimateIRFParameters_leaves_random_witness :
  exists result w',
    estimateIRFParameters halfRandom [1; 0.5; 0] 5 defaultIRFBounds 2 None 64 9%nat tt
      = Some (result, 9%nat, w').
Proof.
  destruct (estimateIRFParameters_returns halfRandom [1; 0.5; 0] 5
              defaultIRFBounds 2 None 9%nat tt ltac:(lia))
    as (result & rs' & w' & H).
  exists result, w'.
  rewrite (estimateIRFParameters_leaves_random _ _ _ _ _ _ _ _ _ _ _ _ _ _ H) in H.
  exact H.
Defined.

(** *** The progress callback *)

Lemma progressCalls_cons {E : Type} (entry : nat -> R -> E) first v values :
  progressCalls entry first (v :: values)
    = entry first v :: progressCalls entry (S first) values.
Proof. reflexivity. Qed.

Lemma progressCalls_length {E : Type} (entry : nat -> R -> E) first values :
  length (progressCalls entry first values) = length values.
Proof.
  unfold progressCalls. rewrite length_map, length_combine, length_seq. apply Nat.min_id.
Qed.

Lemma last_cons_default {A : Type} (a d : A) l : last (a :: l) d = last l a.
Proof.
  revert a d. induction l as [|b l IH]; intros a d; [reflexivity|].
  change (last (a :: b :: l) d) with (last (b :: l) d). now rewrite !IH.
Qed.

Lemma last_nonempty_default {A : Type} (d d' : A) l : l <> [] -> last l d = last l d'.
Proof.
  destruct l as [|a l]; [congruence|]. intros _. now rewrite !last_cons_default.
Qed.

Section DEProgress.

Variable W : Type.
Variable objective : list R -> W -> R * W.
Variable bounds : OptimizationBounds.
Variable options : DEOptions W.
Variable E : Type.
Variable log : W -> list E.
Variable entry : nat -> R -> E.
Variable cb : nat -> R -> W -> W.

Hypothesis has_callback : de_onProgress options = Some cb.
Hypothesis objective_keeps : forall x w, log (snd (objective x w)) = log w.
Hypothesis callback_logs : forall i v w, log (cb i v w) = log w ++ [entry i v].

Lemma deSweep_log fuel targets st st' :
  deSweep objective bounds options fuel targets st = Some st' ->
  log (world st') = log (world st).
Proof.
  revert st. induction targets as [|i rest IH]; intros st; cbn [deSweep].
  - intros H; inversion H; now subst.
  - destruct (deStep objective bounds options fuel i st) as [st1|] eqn:E1; [|discriminate].
    intros H. rewrite (IH _ H).
    apply (deStep_world W objective bounds options (fun w => log w = log (world st)))
      with (fuel := fuel) (i := i) (st := st); [|reflexivity|exact E1].
    intros x w Hw. now rewrite objective_keeps.
Qed.

Lemma deLoop_progress fuel n iteration prev st st' iteration' converged :
  deLoop objective bounds options fuel n iteration prev st
    = Some (st', iteration', converged) ->
  exists values,
    iteration' = (iteration + length values)%nat /\
    (length values <= n)%nat /\
    log (world st') = log (world st) ++ progressCalls entry (S iteration) values /\
    last values (bestFitness st) = bestFitness st'.
Proof.
  revert iteration prev st. induction n as [|n IH]; intros iteration prev st; cbn [deLoop].
  - intros H; inversion H; subst. exists []. cbn [length last progressCalls].
    rewrite Nat.add_0_r, app_nil_r. auto.
  - destruct (deSweep objective bounds options fuel _ st) as [st1|] eqn:E1; [|discriminate].
    apply deSweep_log in E1. rewrite has_callback. cbn [bestFitness world].
    destruct (Rlt_dec _ _).
    + intros H; inversion H; subst. exists [bestFitness st1].
      cbn [length last world bestFitness]. rewrite progressCalls_cons.
      rewrite callback_logs, E1. repeat split; lia || reflexivity.
    + intros H. destruct (IH _ _ _ H) as (values & Hit & Hlen & Hlog & Hlast).
      cbn [world bestFitness] in Hlog, Hlast.
      exists (bestFitness st1 :: values). cbn [length].
      rewrite progressCalls_cons, last_cons_default.
      rewrite Hlog, callback_logs, E1, <- app_assoc.
      repeat split; first [lia | reflexivity | exact Hlast].
Qed.

Lemma differentialEvolution_progress fuel w result w' :
  differentialEvolution objective bounds options fuel w = Some (result, w') ->
  exists values,
    length values = de_iterations result /\
    (Z.of_nat (de_iterations result) <= Z.max 0 (orDefault (de_maxIterations options) 100))%Z /\
    log w' = log (world (deInit objective bounds options w))
               ++ progressCalls entry 1 values /\
    (values <> [] -> last values 0 = de_fitness result).
Proof.
  unfold differentialEvolution. cbv zeta.
  destruct (deLoop objective bounds options fuel _ 0 _ _) as [[[st' it] conv]|] eqn:E1;
    [|discriminate].
  destruct (deLoop_progress _ _ _ _ _ _ _ _ E1) as (values & Hit & Hlen & Hlog & Hlast).
  intros H; inversion H; subst. exists values. cbn [de_iterations de_fitness].
  split; [reflexivity|]. split; [lia|]. split; [exact Hlog|].
  intros Hne. rewrite <- Hlast. now apply last_nonempty_default.
Qed.

Lemma deInit_log w : log (world (deInit objective bounds options w)) = log w.
Proof.
  unfold deInit.
  assert (Hkeep : forall x w0, log w0 = log w -> log (snd (objective x w0)) = log w)
    by (intros x w0 Hw; now rewrite objective_keeps).
  pose proof (initPopulation_world W objective bounds (fun w0 => log w0 = log w) Hkeep
                (orDefault (de_populationSize options) 15%nat)
                (orDefault (de_seed options) 42%Z) w eq_refl) as Hk.
  destruct (initPopulation objective bounds _ _ w) as [[[pop fit] seed] w1].
  destruct (findBest options fit). exact Hk.
Qed.

End DEProgress.

(** X16: [differentialEvolution] calls [onProgress] once at the end of every
    iteration and nowhere else, with the iteration numbers 1, 2, ... in order:
    a log that only the callback extends, by one entry per call, grows by
    exactly [iterations] entries, the last of them carrying the fitness that
    is returned. *)
Theorem differentialEvolution_progress_calls (W E : Type)
    (objective : list R -> W -> R * W) (bounds : OptimizationBounds)
    (options : DEOptions W) (log : W -> list E) (entry : nat -> R -> E)
    (cb : nat -> R -> W -> W) (fuel : nat) (w : W) (result : DEResult) (w' : W) :
  de_onProgress options = Some cb ->
  (forall x w0, log (snd (objective x w0)) = log w0) ->
  (forall i v w0, log (cb i v w0) = log w0 ++ [entry i v]) ->
  differentialEvolution objective bounds options fuel w = Some (result, w') ->
  exists values,
    length values = de_iterations result /\
    log w' = log w ++ progressCalls entry 1 values /\
    (values <> [] -> last values 0 = de_fitness result).
Proof.
  intros Hcb Hobj Hlog H.
  destruct (differentialEvolution_progress W objective bounds options E log entry cb
              Hcb Hobj Hlog fuel w result w' H) as (values & Hlen & _ & Hl & Hlast).
  exists values. rewrite (deInit_log W objective bounds options E log Hobj) in Hl. auto.
Qed.

Lemma differentialEvolution_progress_calls_witness :
  exists result values,
    differentialEvolution squareObjective defaultBoundsArray (recordingOptions 50) 64 []
      = Some (result, progressCalls (fun i _ => i) 1 values) /\
    length values = de_iterations result.
Proof.
  destruct recording_run_returns as [[result w'] H].
  destruct (differentialEvolution_progress_calls (list nat) nat squareObjective
              defaultBoundsArray (recordingOptions 50) (fun w => w) (fun i _ => i)
              recordIteration 64 [] result w' eq_refl
              (fun _ _ => eq_refl) (fun _ _ _ => eq_refl) H)
    as (values & Hlen & Hlog & _).
  exists result, values. cbn [app] in Hlog. rewrite <- Hlog. auto.
Defined.

(** ** The worker (fitting.worker.ts) *)

Lemma progressCalls_ext {E : Type} (entry1 entry2 : nat -> R -> E) first values :
  (forall i v, (first <= i < first + length values)%nat -> entry1 i v = entry2 i v) ->
  progressCalls entry1 first values = progressCalls entry2 first values.
Proof.
  revert first. induction values as [|v values IH]; intros first H; [reflexivity|].
  rewrite !progressCalls_cons. f_equal.
  - apply H. cbn [length]. lia.
  - apply IH. intros i v0 Hi. apply H. cbn [length]. lia.
Qed.

Lemma progressCalls_Forall {E : Type} (entry : nat -> R -> E) (P : E -> Prop) first values :
  (forall i v, P (entry i v)) -> Forall P (progressCalls entry first values).
Proof.
  intros H. revert first. induction values as [|v values IH]; intros first.
  - constructor.
  - rewrite progressCalls_cons. constructor; [apply H|apply IH].
Qed.

Lemma curveFit_progress {W E : Type} (log : W -> list E) (entry : nat -> R -> E)
    (cb : nat -> R -> W -> W) model xData yData initialParams bounds
    (options : CurveFitOptions W) fuel w result w' :
  de_onProgress (orDefault (deOptions options) (noDEOptions W)) = Some cb ->
  (forall i v w0, log (cb i v w0) = log w0 ++ [entry i v]) ->
  curveFit model xData yData initialParams bounds options fuel w = Some (result, w') ->
  exists values,
    (Z.of_nat (length values)
       <= Z.max 0 (orDefault (de_maxIterations (orDefault (deOptions options) (noDEOptions W)))
                             100))%Z /\
    (orDefault (useGlobalOpt options) true = false -> values = []) /\
    log w' = log w ++ progressCalls entry 1 values.
Proof.
  intros Hcb Hlog. unfold curveFit. cbv zeta.
  destruct (orDefault (useGlobalOpt options) true).
  - match goal with |- context [differentialEvolution ?o ?b ?op ?f ?x] =>
      destruct (differentialEvolution o b op f x) as [[deResult w1]|] eqn:E1; [|discriminate];
      pose proof (differentialEvolution_progress W o b op E log entry cb Hcb
                    (fun _ _ => eq_refl) Hlog f x deResult w1 E1)
        as (values & Hlen & Hmax & Hl & _);
      rewrite (deInit_log W o b op E log (fun _ _ => eq_refl)) in Hl
    end.
    cbn [de_maxIterations orDefault] in Hmax.
    intros H; inversion H; subst. exists values.
    split; [|split; [discriminate|exact Hl]].
    rewrite Hlen. exact Hmax.
  - intros H; inversion H; subst. exists []. cbn [length progressCalls].
    split; [lia|]. split; [reflexivity|]. now rewrite app_nil_r.
Qed.

Lemma fitFermiEdge_progress {W E : Type} (log : W -> list E) (entry : nat -> R -> E)
    (cb : nat -> R -> W -> W) energy observedSpectrum temp fitTemp useGlobal
    fuel w result w' :
  (forall i v w0, log (cb i v w0) = log w0 ++ [entry i v]) ->
  fitFermiEdge energy observedSpectrum temp fitTemp useGlobal (Some cb) fuel w
    = Some (result, w') ->
  exists values,
    (length values <= 100)%nat /\
    (useGlobal = false -> values = []) /\
    log w' = log w ++ progressCalls entry 1 values.
Proof.
  intros Hlog. unfold fitFermiEdge. cbv zeta.
  destruct fitTemp;
    match goal with |- match curveFit ?m ?x ?y ?i ?b ?o ?f ?w0 with _ => _ end = _ -> _ =>
      destruct (curveFit m x y i b o f w0) as [[cf w1]|] eqn:E1; [|discriminate];
      destruct (curveFit_progress log entry cb m x y i b o f w0 cf w1 eq_refl Hlog E1)
        as (values & Hlen & Hoff & Hl)
    end;
    cbn [deOptions de_maxIterations useGlobalOpt orDefault] in Hlen, Hoff;
    intros H; inversion H; subst; exists values;
    (split; [lia|split; [exact Hoff|exact Hl]]).
Qed.

Lemma estimateIRFParameters_progress {RandState W E : Type}
    (Math_random : RandState -> R * RandState) (log : W -> list E) (entry : nat -> R -> E)
    (cb : nat -> R -> W -> W) observedSpectrum temp bounds maxIterations
    fuel rs w result rs' w' :
  (forall i v w0, log (cb i v w0) = log w0 ++ [entry i v]) ->
  estimateIRFParameters Math_random observedSpectrum temp bounds maxIterations
    (Some cb) fuel rs w = Some (result, rs', w') ->
  exists values,
    length values = ir_iterations result /\
    (values <> [] -> last values 0 = ir_finalLoss result) /\
    log w' = log w ++ progressCalls entry 1 values.
Proof.
  intros Hlog. unfold estimateIRFParameters. cbv zeta.
  match goal with |- context [differentialEvolution ?o ?b ?op ?f ?x] =>
    destruct (differentialEvolution o b op f x) as [[deResult ew]|] eqn:E1; [|discriminate];
    assert (Hobj : forall x0 ew0,
              log (progressState (snd (o x0 ew0))) = log (progressState ew0))
      by (intros x0 ew0; now rewrite (proj2 (irfObjective_world _ _ _ _ _)));
    pose proof (differentialEvolution_progress _ o b op E
                  (fun ew0 => log (progressState ew0)) entry _ eq_refl Hobj
                  (fun i v ew0 => Hlog i v (progressState ew0)) f x deResult ew E1)
      as (values & Hlen & _ & Hl & Hlast);
    rewrite (deInit_log _ o b op E (fun ew0 => log (progressState ew0)) Hobj) in Hl
  end.
  cbn [progressState] in Hl.
  destruct (simulate Math_random _ (randState ew)) as [fitted rs2].
  intros H; inversion H; subst. exists values. cbn [ir_iterations ir_finalLoss]. auto.
Qed.

(** X18: [handleEstimateIRF] leaves [Math.random] alone and posts, after what was
    posted before, one progress message per iteration of the search,
    numbered 1, 2, ... in order and each with the request's id, and then
    exactly one result message with that id; the fitness of the last
    progress message is the final loss of the result. *)
Theorem handleEstimateIRF_messages (RandState : Type)
    (Math_random : RandState -> R * RandState) (id : string)
    (observedSpectrum : list R) (temperature : R) (bounds : option IRFBounds)
    (maxIterations : option Z) (fuel : nat) (rs : RandState)
    (outbox outbox' : list WorkerOutgoingMessage) (rs' : RandState) :
  handleEstimateIRF Math_random id observedSpectrum temperature bounds maxIterations
    fuel rs outbox = Some (outbox', rs') ->
  rs' = rs /\
  exists result values,
    length values = ir_iterations result /\
    (values <> [] -> last values 0 = ir_finalLoss result) /\
    outbox' = outbox
                ++ progressCalls (progressOf id (orDefault maxIterations 50%Z)) 1 values
                ++ [IRFResultMessage id result].
Proof.
  unfold handleEstimateIRF. cbv zeta.
  destruct (estimateIRFParameters Math_random observedSpectrum temperature _ _ _ fuel rs outbox)
    as [[[result rs1] outbox1]|] eqn:E1; [|discriminate].
  intros H; inversion H; subst. split.
  - exact (estimateIRFParameters_random _ _ _ _ _ _ _ _ _ _ _ _ _ _ E1).
  - destruct (estimateIRFParameters_progress Math_random (fun o => o)
                (progressOf id (orDefault maxIterations 50%Z)) _ _ _ _ _ _ _ _ _ _ _
                (fun _ _ _ => eq_refl) E1) as (values & Hlen & Hlast & Hl).
    exists result, values. unfold postMessage. rewrite Hl, <- app_assoc. auto.
Qed.

Lemma handleEstimateIRF_returns {RandState : Type} (Math_random : RandState -> R * RandState)
    id observedSpectrum temperature bounds maxIterations rs outbox :
  (orDefault maxIterations 50 <= 50)%Z ->
  exists outbox' rs',
    handleEstimateIRF Math_random id observedSpectrum temperature bounds maxIterations
      64 rs outbox = Some (outbox', rs').
Proof.
  intros Hmax. unfold handleEstimateIRF. cbv zeta.
  destruct (estimateIRFParameters_returns Math_random observedSpectrum temperature
              (orDefault bounds defaultIRFBounds) (orDefault maxIterations 50%Z)
              (Some (reportProgress id (orDefault maxIterations 50%Z))) rs outbox Hmax)
    as (result & rs1 & w1 & ->).
  eauto.
Qed.

Lemma handleEstimateIRF_messages_witness :
  exists outbox' result values,
    handleEstimateIRF halfRandom "a" [1; 0.5; 0] 5 None None 64 3%nat []
      = Some (outbox', 3%nat) /\
    outbox' = [] ++ progressCalls (progressOf "a" 50%Z) 1 values
                 ++ [IRFResultMessage "a" result].
Proof.
  destruct (handleEstimateIRF_returns halfRandom "a" [1; 0.5; 0] 5 None None 3%nat []
              ltac:(cbn [orDefault]; lia)) as (outbox' & rs' & H).
  destruct (handleEstimateIRF_messages nat halfRandom "a" [1; 0.5; 0] 5 None None 64 3%nat
              [] outbox' rs' H) as (Hrs & result & values & _ & _ & Ho).
  exists outbox', result, values. rewrite Hrs in H. split; [exact H|exact Ho].
Defined.

Lemma percent_of_hundred i :
  (1 <= i <= 100)%nat -> Rmin 100 (INR i / IZR 100 * 100) = INR i.
Proof.
  intros Hi. replace (INR i / 100 * 100) with (INR i) by field.
  apply Rmin_right. rewrite INR_IZR_INZ. apply IZR_le. lia.
Qed.

(** X19: [handleFitFermiEdge] posts at most 100 progress messages, none at all
    when the global search is off, numbered 1, 2, ... in order, each with the
    request's id and with a progress equal to its iteration number, and then
    exactly one result message with that id, whose result has
    [success = true]. *)
Theorem handleFitFermiEdge_messages (id : string) (energyAxis observedSpectrum : list R)
    (temperature : R) (fitTemp useGlobal : bool) (fuel : nat)
    (outbox outbox' : list WorkerOutgoingMessage) :
  handleFitFermiEdge id energyAxis observedSpectrum temperature fitTemp useGlobal fuel outbox
    = Some outbox' ->
  exists result values,
    (length values <= 100)%nat /\
    (useGlobal = false -> values = []) /\
    fe_success result = true /\
    outbox' = outbox
                ++ progressCalls (fun i v => ProgressMessage id i v (INR i)) 1 values
                ++ [FermiResultMessage id result].
Proof.
  unfold handleFitFermiEdge. cbv zeta.
  destruct (fitFermiEdge energyAxis observedSpectrum temperature fitTemp useGlobal _ fuel outbox)
    as [[result outbox1]|] eqn:E1; [|discriminate].
  intros H; inversion H; subst.
  destruct (fitFermiEdge_progress (fun o => o) (progressOf id 100%Z) _ _ _ _ _ _ _ _ _ _
              (fun _ _ _ => eq_refl) E1) as (values & Hlen & Hoff & Hl).
  exists result, values. split; [exact Hlen|]. split; [exact Hoff|].
  split; [exact (proj1 (fitFermiEdge_success _ _ _ _ _ _ _ _ _ _ E1))|].
  unfold postMessage. rewrite Hl, <- app_assoc. do 2 f_equal.
  apply progressCalls_ext. intros i v Hi. unfold progressOf. f_equal.
  apply percent_of_hundred. lia.
Qed.

Lemma handleFitFermiEdge_returns id energyAxis observedSpectrum temperature fitTemp useGlobal
    outbox :
  exists outbox',
    handleFitFermiEdge id energyAxis observedSpectrum temperature fitTemp useGlobal 64 outbox
      = Some outbox'.
Proof.
  unfold handleFitFermiEdge. cbv zeta.
  destruct (fitFermiEdge_returns energyAxis observedSpectrum temperature fitTemp useGlobal
              (Some (reportProgress id 100)) outbox) as (result & w1 & ->).
  eauto.
Qed.

Lemma handleFitFermiEdge_messages_witness :
  exists outbox' result values,
    handleFitFermiEdge "a" [0; 0.001] [1; 0] 5 false true 64 [] = Some outbox' /\
    (length values <= 100)%nat /\
    outbox' = [] ++ progressCalls (fun i v => ProgressMessage "a" i v (INR i)) 1 values
                 ++ [FermiResultMessage "a" result].
Proof.
  destruct (handleFitFermiEdge_returns "a" [0; 0.001] [1; 0] 5 false true [])
    as (outbox' & H).
  destruct (handleFitFermiEdge_messages "a" [0; 0.001] [1; 0] 5 false true 64 [] outbox' H)
    as (result & values & Hlen & _ & _ & Ho).
  exists outbox', result, values. split; [exact H|]. split; [exact Hlen|exact Ho].
Defined.

(** X20: Whatever the message, when [onmessage] returns it has left [Math.random]
    alone and has added to the outbox a run of progress messages followed by
    exactly one message that is not a progress message, all of them with the
    id of the request; a message of an unknown type is answered at once by an
    error message. *)
Theorem onmessage_replies (RandState : Type) (Math_random : RandState -> R * RandState)
    (message : WorkerIncomingMessage) (fuel : nat) (rs : RandState)
    (outbox : list WorkerOutgoingMessage) :
  (forall outbox' rs',
     onmessage Math_random message fuel rs outbox = Some (outbox', rs') ->
     rs' = rs /\
     exists progress final,
       outbox' = outbox ++ progress ++ [final] /\
       Forall (fun m => isProgress m = true /\ replyId m = requestId message) progress /\
       isProgress final = false /\ replyId final = requestId message) /\
  (forall id, message = OtherMessage id ->
     onmessage Math_random message fuel rs outbox
       = Some (outbox ++ [ErrorMessage id "Unknown message type"], rs)).
Proof.
  split; [|intros id ->; reflexivity].
  intros outbox' rs'. destruct message as [id e o t ft ug|id o t b mi|id]; cbn [onmessage requestId].
  - destruct (handleFitFermiEdge id e o t ft ug fuel outbox) as [outbox1|] eqn:E1;
      [|discriminate].
    intros H; inversion H; subst. split; [reflexivity|].
    unfold handleFitFermiEdge in E1. cbv zeta in E1.
    destruct (fitFermiEdge e o t ft ug _ fuel outbox) as [[result outbox1]|] eqn:E2;
      [|discriminate].
    inversion E1; subst.
    destruct (fitFermiEdge_progress (fun o => o) (progressOf id 100%Z) _ _ _ _ _ _ _ _ _ _
                (fun _ _ _ => eq_refl) E2) as (values & _ & _ & Hl).
    exists (progressCalls (progressOf id 100%Z) 1 values), (FermiResultMessage id result).
    unfold postMessage. rewrite Hl, <- app_assoc.
    split; [reflexivity|]. split; [|split; reflexivity].
    apply progressCalls_Forall. intros i v. split; reflexivity.
  - unfold handleEstimateIRF. cbv zeta.
    destruct (estimateIRFParameters Math_random o t _ _ _ fuel rs outbox)
      as [[[result rs1] outbox1]|] eqn:E1; [|discriminate].
    intros H; inversion H; subst. split.
    + exact (estimateIRFParameters_random _ _ _ _ _ _ _ _ _ _ _ _ _ _ E1).
    + destruct (estimateIRFParameters_progress Math_random (fun o => o)
                  (progressOf id (orDefault mi 50%Z)) _ _ _ _ _ _ _ _ _ _ _
                  (fun _ _ _ => eq_refl) E1) as (values & _ & _ & Hl).
      exists (progressCalls (progressOf id (orDefault mi 50%Z)) 1 values),
             (IRFResultMessage id result).
      unfold postMessage. rewrite Hl, <- app_assoc.
      split; [reflexivity|]. split; [|split; reflexivity].
      apply progressCalls_Forall. intros i v. split; reflexivity.
  - intros H; inversion H; subst. split; [reflexivity|].
    exists [], (ErrorMessage id "Unknown message type").
    split; [reflexivity|]. split; [constructor|split; reflexivity].
Qed.

(** ** Invariants of Levenberg-Marquardt *)

Section LMInvariants.

Variable func : list R -> list R.
Variable initialParams : list R.
Variable options : LMOptions.

Lemma lmStep_invariant len cost0 st :
  lmInvariant func len cost0 st ->
  lmInvariant func len cost0 (lmStep func initialParams options st) /\
  s_iteration (lmStep func initialParams options st) = S (s_iteration st) /\
  (s_params (lmStep func initialParams options st) <> s_params st ->
     s_cost (lmStep func initialParams options st) < s_cost st).
Proof.
  intros (Hr & Hc & Hj & Hl & Hle). unfold lmStep. cbv zeta.
  match goal with |- context [Rlt_dec ?a (s_cost st)] =>
    destruct (Rlt_dec a (s_cost st)) as [Hlt|Hge] end;
    cbn [s_params s_residuals s_cost s_jacobian s_iteration].
  - split; [|split; [reflexivity|intros _; exact Hlt]].
    unfold lmInvariant. cbn [s_params s_residuals s_cost s_jacobian].
    split; [reflexivity|]. split; [reflexivity|]. split; [reflexivity|].
    split; [now rewrite mapi_length|lra].
  - split; [|split; [reflexivity|intros H; now destruct H]].
    unfold lmInvariant. cbn [s_params s_residuals s_cost s_jacobian]. auto.
Qed.

Lemma lmLoop_invariant len cost0 n st :
  lmInvariant func len cost0 st ->
  let st' := lmLoop func initialParams options n st in
  lmInvariant func len cost0 st' /\
  (s_iteration st <= s_iteration st' <= s_iteration st + n)%nat /\
  (s_converged st' = false -> s_iteration st' = (s_iteration st + n)%nat) /\
  (s_cost st' <= s_cost st) /\
  (s_params st' <> s_params st -> s_cost st' < s_cost st).
Proof.
  revert st. induction n as [|n IH]; intros st Hinv; cbn [lmLoop]; cbv zeta.
  - split; [exact Hinv|]. split; [lia|]. split; [intros _; lia|].
    split; [lra|intros H; now destruct H].
  - destruct (s_converged st) eqn:Ec.
    + split; [exact Hinv|]. split; [lia|]. split; [congruence|].
      split; [lra|intros H; now destruct H].
    + destruct (lmStep_invariant len cost0 st Hinv) as (Hinv1 & Hit1 & Hdec1).
      destruct (IH _ Hinv1) as (Hinv2 & Hit2 & Hconv2 & Hle2 & Hdec2).
      cbv zeta in Hinv2, Hit2, Hconv2, Hle2, Hdec2.
      set (st1 := lmStep func initialParams options st) in *.
      set (st2 := lmLoop func initialParams options n st1) in *.
      assert (Hle1 : s_cost st1 <= s_cost st).
      { destruct (list_eq_dec Req_dec_T (s_params st1) (s_params st)) as [He|Hne].
        - destruct Hinv1 as (Hr1 & Hc1 & _). destruct Hinv as (Hr0 & Hc0 & _).
          rewrite Hc1, Hr1, He, <- Hr0, <- Hc0. lra.
        - left. now apply Hdec1. }
      split; [exact Hinv2|]. split; [lia|].
      split; [intros H; rewrite (Hconv2 H); lia|].
      split; [lra|].
      intros Hne.
      destruct (list_eq_dec Req_dec_T (s_params st1) (s_params st)) as [He|Hne1].
      * assert (Hne2 : s_params st2 <> s_params st1) by congruence.
        specialize (Hdec2 Hne2). lra.
      * specialize (Hdec1 Hne1). lra.
Qed.

End LMInvariants.

(** X21: What [levenbergMarquardt] returns is consistent and never worse than its
    start: the residuals and the Jacobian are those of the returned
    parameters, which are as many as the initial ones; the sum of squared
    residuals is at most that of the initial parameters, and strictly below
    it whenever the parameters moved; the iteration count is at most
    [maxIterations], and equal to it unless the run converged. *)
Theorem levenbergMarquardt_invariants (func : list R -> list R) (initialParams : list R)
    (options : LMOptions) :
  let result := levenbergMarquardt func initialParams options in
  lm_residuals result = func (lm_x result) /\
  lm_jacobian result = computeJacobian func (lm_x result) 1e-7 /\
  length (lm_x result) = length initialParams /\
  sumSquares (lm_residuals result) <= sumSquares (func initialParams) /\
  (lm_x result <> initialParams ->
     sumSquares (lm_residuals result) < sumSquares (func initialParams)) /\
  (lm_iterations result <= Z.to_nat (orDefault (lm_maxIterations options) 100%Z))%nat /\
  (lm_converged result = false ->
     lm_iterations result = Z.to_nat (orDefault (lm_maxIterations options) 100%Z)).
Proof.
  cbv zeta. unfold levenbergMarquardt. cbv zeta.
  cbn [lm_x lm_residuals lm_jacobian lm_iterations lm_converged].
  match goal with |- context [lmLoop func initialParams options ?n ?st0] =>
    assert (Hinv0 : lmInvariant func (length initialParams)
                      (sumSquares (func initialParams)) st0)
      by (unfold lmInvariant; cbn [s_params s_residuals s_cost s_jacobian];
          repeat split; try reflexivity; lra);
    destruct (lmLoop_invariant func initialParams options _ _ n st0 Hinv0)
      as ((Hr & Hc & Hj & Hl & Hle) & Hit & Hconv & _ & Hdec);
    cbn [s_iteration s_params s_cost] in Hit, Hconv, Hdec;
    set (st := lmLoop func initialParams options n st0) in *
  end.
  split; [exact Hr|]. split; [exact Hj|]. split; [exact Hl|].
  rewrite <- Hc. split; [exact Hle|]. split; [exact Hdec|]. split; [lia|].
  intros H. rewrite (Hconv H). lia.
Qed.

(** ** The random generator *)

(** X22: Every call of the generator of [createRandom] yields [w / 2^32] for an
    integer [0 <= w < 2^32], so a number in the interval [0, 1); and as long
    as the seed stays below 2^53 in size, a call adds 0x6D2B79F5 to it
    without any wrap-around to 32 bits. *)
Theorem createRandom_unit_interval (seed : Z) :
  (exists w, (0 <= w < 4294967296)%Z /\ fst (random seed) = IZR w / 4294967296) /\
  0 <= fst (random seed) < 1 /\
  (forall n, Forall (fun u => 0 <= u < 1) (random_stream n seed)) /\
  ((Z.abs (seed + 1831565813) < 9007199254740992)%Z ->
     snd (random seed) = (seed + 1831565813)%Z).
Proof.
  split; [|split; [apply random_range|split]].
  - exists (snd (random_word seed)). split; [apply random_word_range|].
    now rewrite random_eq.
  - intros n. revert seed. induction n as [|n IH]; intros seed; cbn [random_stream].
    + constructor.
    + pose proof (random_range seed) as H1. destruct (random seed) as [u1 s1].
      constructor; [exact H1|apply IH].
  - apply random_seed_exact.
Qed.

(** ** Theoretical resolution *)



(** ** The convolved Fermi edge (fitting.ts) *)










(** ** Bilinear interpolation (simulator.ts) *)





Lemma bilinearInterp_node (yAxis xAxis : list R) (data : list (list R)) (i j : nat) :
  get yAxis 0 < get yAxis (length yAxis - 1) ->
  get xAxis 0 < get xAxis (length xAxis - 1) ->
  (i < length yAxis)%nat -> (j < length xAxis)%nat ->
  let yStep := (get yAxis (length yAxis - 1) - get yAxis 0) / (INR (length yAxis) - 1) in
  let xStep := (get xAxis (length xAxis - 1) - get xAxis 0) / (INR (length xAxis) - 1) in
  bilinearInterp yAxis xAxis data (get yAxis 0 + INR i * yStep) (get xAxis 0 + INR j * xStep)
    = get2 data i j.
Proof.
  intros Hy Hx Hi Hj yStep xStep.
  assert (Hny : (2 <= length yAxis)%nat).
  { destruct (length yAxis) as [|[|n]]; cbn [Nat.sub] in Hy; try lra. lia. }
  assert (Hnx : (2 <= length xAxis)%nat).
  { destruct (length xAxis) as [|[|n]]; cbn [Nat.sub] in Hx; try lra. lia. }
  assert (Hdy : 0 < INR (length yAxis) - 1).
  { apply le_INR in Hny. change (INR 2) with 2 in Hny. simpl in Hny. lra. }
  assert (Hdx : 0 < INR (length xAxis) - 1).
  { apply le_INR in Hnx. simpl in Hnx. lra. }
  assert (Hys : 0 < yStep) by (unfold yStep; apply Rdiv_lt_0_compat; lra).
  assert (Hxs : 0 < xStep) by (unfold xStep; apply Rdiv_lt_0_compat; lra).
  assert (Hiy : INR i <= INR (length yAxis) - 1).
  { assert (H : (i <= length yAxis - 1)%nat) by lia. apply le_INR in H.
    rewrite minus_INR in H by lia. simpl in H. lra. }
  assert (Hjx : INR j <= INR (length xAxis) - 1).
  { assert (H : (j <= length xAxis - 1)%nat) by lia. apply le_INR in H.
    rewrite minus_INR in H by lia. simpl in H. lra. }
  pose proof (pos_INR i) as Hi0. pose proof (pos_INR j) as Hj0.
  assert (Hytop : get yAxis 0 + (INR (length yAxis) - 1) * yStep = get yAxis (length yAxis - 1))
    by (unfold yStep; field; lra).
  assert (Hxtop : get xAxis 0 + (INR (length xAxis) - 1) * xStep = get xAxis (length xAxis - 1))
    by (unfold xStep; field; lra).
  unfold bilinearInterp. cbv zeta. fold yStep xStep.
  destruct (Rlt_dec _ (get yAxis 0)) as [H|_]; [nra|].
  destruct (Rgt_dec _ (get yAxis (length yAxis - 1))) as [H|_]; [unfold Rgt in H; nra|].
  destruct (Rlt_dec _ (get xAxis 0)) as [H|_]; [nra|].
  destruct (Rgt_dec _ (get xAxis (length xAxis - 1))) as [H|_]; [unfold Rgt in H; nra|].
  replace ((get yAxis 0 + INR i * yStep - get yAxis 0) / yStep) with (INR i) by (field; lra).
  replace ((get xAxis 0 + INR j * xStep - get xAxis 0) / xStep) with (INR j) by (field; lra).
  rewrite !INR_IZR_INZ, !Math_floor_IZR.
  replace (IZR (Z.of_nat i) - IZR (Z.of_nat i)) with 0 by ring.
  replace (IZR (Z.of_nat j) - IZR (Z.of_nat j)) with 0 by ring.
  unfold getZ2 at 1.
  destruct (Z.ltb_spec (Z.of_nat i) 0); [lia|].
  destruct (Z.ltb_spec (Z.of_nat j) 0); [lia|].
  cbn [orb]. rewrite !Nat2Z.id. ring.
Qed.

(** ** Emission and projection without distortion (simulator.ts) *)

Lemma get2_map_map (f : nat -> nat -> R) rows cols i j :
  (i < rows)%nat -> (j < cols)%nat ->
  get2 (map (fun i => map (fun j => f i j) (seq 0 cols)) (seq 0 rows)) i j = f i j.
Proof.
  intros Hi Hj. unfold get2, get.
  rewrite (nth_map_lt _ _ _ 0%nat) by (now rewrite length_seq).
  rewrite seq_nth by exact Hi. cbn [Nat.add].
  rewrite (nth_map_lt _ _ _ 0%nat) by (now rewrite length_seq).
  now rewrite seq_nth.
Qed.

Lemma increasing_lt (l : list R) :
  (forall k, (S k < length l)%nat -> get l k < get l (S k)) ->
  forall i j, (i < j)%nat -> (j < length l)%nat -> get l i < get l j.
Proof.
  intros Hinc i j Hij. induction j as [|j IH]; intros Hj; [lia|].
  destruct (Nat.eq_dec i j) as [->|Hne]; [now apply Hinc|].
  apply Rlt_trans with (get l j); [apply IH; lia|now apply Hinc].
Qed.

Lemma interp_get xNew xOld yOld leftVal rightVal j :
  (j < length xNew)%nat ->
  [get (interp xNew xOld yOld leftVal rightVal) j]
    = interp [get xNew j] xOld yOld leftVal rightVal.
Proof.
  intros Hj. unfold interp. cbv zeta. cbn [map]. unfold get at 1.
  now rewrite (nth_map_lt _ _ _ 0) by exact Hj.
Qed.

Lemma interp_at_node xOld yOld leftVal rightVal j :
  (forall k, (S k < length xOld)%nat -> get xOld k < get xOld (S k)) ->
  (j < length xOld)%nat ->
  get (interp xOld xOld yOld leftVal rightVal) j =
    if (j =? 0)%nat then match leftVal with Some v => v | None => get yOld 0 end
    else if (S j =? length xOld)%nat
         then match rightVal with Some v => v | None => get yOld (length yOld - 1) end
         else get yOld j.
Proof.
  intros Hinc Hj.
  pose proof (interp_get xOld xOld yOld leftVal rightVal j Hj) as Hg.
  destruct (interp_cases xOld yOld leftVal rightVal (get xOld j)) as (Hleft & Hright & Hmid).
  cbv zeta in Hleft, Hright.
  destruct (Nat.eqb_spec j 0) as [->|Hj0].
  - rewrite Hleft in Hg by lra. now inversion Hg.
  - assert (H0 : get xOld 0 < get xOld j) by (apply increasing_lt; [assumption|lia|lia]).
    destruct (Nat.eqb_spec (S j) (length xOld)) as [Hlast|Hnl].
    + replace (length xOld - 1)%nat with j in Hright by lia.
      rewrite Hright in Hg by lra. now inversion Hg.
    + assert (H1 : get xOld j < get xOld (length xOld - 1))
        by (apply increasing_lt; [assumption|lia|lia]).
      destruct (Hmid H0 H1) as (lo & Hlo & Ha & Hb & He).
      assert (lo = j).
      { destruct (Nat.lt_trichotomy lo j) as [Hlt|[Heq|Hgt]]; [|exact Heq|].
        - destruct (Nat.eq_dec (S lo) j) as [<-|Hne]; [lra|].
          assert (get xOld (S lo) < get xOld j) by (apply increasing_lt; [assumption|lia|lia]).
          lra.
        - assert (get xOld j < get xOld lo) by (apply increasing_lt; [assumption|lia|lia]).
          lra. }
      subst lo. rewrite He in Hg. inversion Hg as [Hv]. rewrite Hv.
      replace (get xOld j - get xOld j) with 0 by ring. unfold Rdiv. ring.
Qed.

(** X27: Without an energy gradient ([alpha = 0]) and on a strictly increasing
    energy axis, the emission image is the product of the spectrum and the
    spatial profile, except in its last column, which is 0: at the last
    energy [interp] returns its right fill, and [generate2DEmission] passes
    0 for it. *)
Theorem generate2DEmission_without_gradient (grid : Grid) (trueSpectrum : list R)
    (sigmaY gammaY : R) (i j : nat) :
  (forall k, (S k < length (g_eAxis grid))%nat ->
     get (g_eAxis grid) k < get (g_eAxis grid) (S k)) ->
  (i < length (g_yAxis grid))%nat -> (j < length (g_eAxis grid))%nat ->
  get2 (generate2DEmission grid trueSpectrum sigmaY gammaY 0) i j =
    (if ((0 <? j)%nat && (S j =? length (g_eAxis grid))%nat)%bool then 0
     else get trueSpectrum j)
    * get (skewGaussian (g_yAxis grid) sigmaY gammaY) i.
Proof.
  intros Hinc Hi Hj. unfold generate2DEmission. cbv zeta.
  rewrite (get2_map_map
             (fun i j =>
                get (interp (map (fun e => e - 0 * get (g_yAxis grid) i) (g_eAxis grid))
                            (g_eAxis grid) trueSpectrum (Some (get trueSpectrum 0)) (Some 0)) j
                * get (skewGaussian (g_yAxis grid) sigmaY gammaY) i)) by assumption.
  f_equal.
  replace (map (fun e => e - 0 * get (g_yAxis grid) i) (g_eAxis grid)) with (g_eAxis grid).
  - rewrite interp_at_node by assumption.
    destruct (Nat.eqb_spec j 0) as [->|Hj0]; [reflexivity|].
    destruct (Nat.ltb_spec 0 j); [|lia]. cbn [andb].
    now destruct (S j =? length (g_eAxis grid))%nat.
  - rewrite <- (map_id (g_eAxis grid)) at 1. apply map_ext. intros e. ring.
Qed.

Lemma generate2DEmission_without_gradient_witness :
  get2 (generate2DEmission (createGrid 0 2 3 0 1 2) [5; 6; 7] 1 0 0) 1 2 =
    0 * get (skewGaussian (g_yAxis (createGrid 0 2 3 0 1 2)) 1 0) 1.
Proof.
  apply (generate2DEmission_without_gradient (createGrid 0 2 3 0 1 2) [5; 6; 7] 1 0 1 2).
  - rewrite g_eAxis_createGrid. intros k Hk. rewrite length_linspace in Hk.
    rewrite (get_linspace 0 2 3 k), (get_linspace 0 2 3 (S k)) by lia.
    rewrite (S_INR k). replace (INR 3) with 3 by (simpl; lra). lra.
  - rewrite g_yAxis_createGrid, length_linspace. lia.
  - rewrite g_eAxis_createGrid, length_linspace. lia.
Defined.

Lemma linspace_node a b n i :
  (2 <= n)%nat -> (i < n)%nat ->
  get (linspace a b n) i =
    get (linspace a b n) 0
    + INR i * ((get (linspace a b n) (length (linspace a b n) - 1) - get (linspace a b n) 0)
               / (INR (length (linspace a b n)) - 1)).
Proof.
  intros Hn Hi. rewrite length_linspace, !get_linspace by lia.
  assert (Hd : INR n - 1 <> 0).
  { assert (2 <= INR n) by (replace 2 with (INR 2) by (simpl; lra); now apply le_INR). lra. }
  rewrite minus_INR by lia. simpl. field. exact Hd.
Qed.

Lemma linspace_span a b n :
  (2 <= n)%nat -> a < b ->
  get (linspace a b n) 0 < get (linspace a b n) (length (linspace a b n) - 1).
Proof.
  intros Hn Hab. rewrite length_linspace, !get_linspace by lia.
  assert (Hd : INR n - 1 <> 0).
  { assert (2 <= INR n) by (replace 2 with (INR 2) by (simpl; lra); now apply le_INR). lra. }
  rewrite minus_INR by lia. simpl.
  replace (a + (INR n - 1) * ((b - a) / (INR n - 1))) with b by (field; exact Hd). lra.
Qed.

Lemma meshgrid_get xAxis yAxis i j :
  (i < length yAxis)%nat -> (j < length xAxis)%nat ->
  get2 (fst (meshgrid xAxis yAxis)) i j = get xAxis j /\
  get2 (snd (meshgrid xAxis yAxis)) i j = get yAxis i.
Proof.
  intros Hi Hj. unfold meshgrid. cbn [fst snd].
  split; [exact (get2_map_map (fun _ j => get xAxis j) _ _ i j Hi Hj)|
          exact (get2_map_map (fun i _ => get yAxis i) _ _ i j Hi Hj)].
Qed.

Lemma g_Y_createGrid a b n c d m :
  g_Y (createGrid a b n c d m) = snd (meshgrid (linspace a b n) (linspace c d m)).
Proof. unfold createGrid. destruct (meshgrid _ _). reflexivity. Qed.

(** X28: With no curvature, no tilt and no broadening, on a grid made by
    [createGrid] from two proper ranges, the detector changes nothing:
    [projectTo1D] returns, for every energy, the sum of the image over the
    spatial axis. *)
Theorem projectTo1D_undistorted (eStart eEnd : R) (eSteps : nat) (yStart yEnd : R)
    (ySteps : nat) (image2D : list (list R)) (sigmaSource sigmaDetector : R) :
  (2 <= eSteps)%nat -> (2 <= ySteps)%nat -> eStart < eEnd -> yStart < yEnd ->
  sigmaSource <= 0 -> sigmaDetector <= 0 ->
  projectTo1D (createGrid eStart eEnd eSteps yStart yEnd ySteps) image2D 0 0
              sigmaSource sigmaDetector
    = map (fun j => Rsum (map (fun i => get2 image2D i j) (seq 0 ySteps))) (seq 0 eSteps).
Proof.
  intros He Hy Hes Hys Hs Hd. unfold projectTo1D. cbv zeta.
  destruct (Rgt_dec sigmaSource 0) as [H|_]; [unfold Rgt in H; lra|].
  destruct (Rgt_dec sigmaDetector 0) as [H|_]; [unfold Rgt in H; lra|].
  rewrite g_eAxis_createGrid, g_yAxis_createGrid, g_E_createGrid, g_Y_createGrid,
    !length_linspace.
  apply map_ext_in. intros j Hj. apply in_seq in Hj. f_equal.
  apply map_ext_in. intros i Hi. apply in_seq in Hi.
  rewrite (get2_map_map
             (fun i j =>
                bilinearInterp (linspace yStart yEnd ySteps) (linspace eStart eEnd eSteps) image2D
                  (- get2 (fst (meshgrid (linspace eStart eEnd eSteps)
                                         (linspace yStart yEnd ySteps))) i j
                     * sin (0 * PI / 180)
                   + get2 (snd (meshgrid (linspace eStart eEnd eSteps)
                                         (linspace yStart yEnd ySteps))) i j
                     * cos (0 * PI / 180))
                  (get2 (fst (meshgrid (linspace eStart eEnd eSteps)
                                       (linspace yStart yEnd ySteps))) i j
                     * cos (0 * PI / 180)
                   + get2 (snd (meshgrid (linspace eStart eEnd eSteps)
                                         (linspace yStart yEnd ySteps))) i j
                     * sin (0 * PI / 180)
                   - 0 * (get2 (snd (meshgrid (linspace eStart eEnd eSteps)
                                              (linspace yStart yEnd ySteps))) i j
                            / Math_max_list (map Rabs (linspace yStart yEnd ySteps))
                          * (get2 (snd (meshgrid (linspace eStart eEnd eSteps)
                                                 (linspace yStart yEnd ySteps))) i j
                             / Math_max_list (map Rabs (linspace yStart yEnd ySteps)))))))
    by lia.
  destruct (meshgrid_get (linspace eStart eEnd eSteps) (linspace yStart yEnd ySteps) i j)
    as [HE HY]; [rewrite length_linspace; lia|rewrite length_linspace; lia|].
  rewrite HE, HY.
  replace (0 * PI / 180) with 0 by lra. rewrite sin_0, cos_0.
  match goal with |- bilinearInterp _ _ _ ?y ?x = _ =>
    replace y with (get (linspace yStart yEnd ySteps) i) by ring;
    replace x with (get (linspace eStart eEnd eSteps) j) by ring
  end.
  rewrite (linspace_node yStart yEnd ySteps i) at 1 by lia.
  rewrite (linspace_node eStart eEnd eSteps j) at 1 by lia.
  apply bilinearInterp_node.
  - now apply linspace_span.
  - now apply linspace_span.
  - rewrite length_linspace. lia.
  - rewrite length_linspace. lia.
Qed.

Lemma projectTo1D_undistorted_witness :
  projectTo1D (createGrid 0 1 2 0 1 2) [[1; 2]; [3; 4]] 0 0 0 0
    = map (fun j => Rsum (map (fun i => get2 [[1; 2]; [3; 4]] i j) (seq 0 2))) (seq 0 2).
Proof.
  apply (projectTo1D_undistorted 0 1 2 0 1 2 [[1; 2]; [3; 4]] 0 0); lia || lra.
Defined.

(** ** The fitted values stay within the bounds *)

Lemma levenbergMarquardt_x_length func initialParams options :
  length (lm_x (levenbergMarquardt func initialParams options)) = length initialParams.
Proof.
  unfold levenbergMarquardt. cbv zeta. cbn [lm_x].
  match goal with |- context [lmLoop func initialParams options ?n ?st0] =>
    assert (Hinv0 : lmInvariant func (length initialParams)
                      (sumSquares (func initialParams)) st0)
      by (unfold lmInvariant; cbn [s_params s_residuals s_cost s_jacobian];
          repeat split; try reflexivity; lra);
    destruct (lmLoop_invariant func initialParams options _ _ n st0 Hinv0)
      as ((_ & _ & _ & Hl & _) & _)
  end.
  exact Hl.
Qed.

Lemma curveFit_params {W : Type} model xData yData initialParams bounds
    (options : CurveFitOptions W) fuel w result w' :
  orderedBounds bounds ->
  length initialParams = length (lower bounds) ->
  (1 <= orDefault (de_populationSize (orDefault (deOptions options) (noDEOptions W)))
                  15%nat)%nat ->
  curveFit model xData yData initialParams bounds options fuel w = Some (result, w') ->
  length (cf_params result) = length (lower bounds) /\
  forall i, (i < length (lower bounds))%nat ->
    get (lower bounds) i <= get (cf_params result) i <= get (upper bounds) i.
Proof.
  intros Hord Hlen Hpop. unfold curveFit. cbv zeta.
  match goal with |- match ?g with _ => _ end = _ -> _ =>
    assert (Hstart : forall start w0, g = Some (start, w0) ->
                       length start = length (lower bounds));
    [|destruct g as [[start w0]|]; [|discriminate]] end.
  { destruct (orDefault (useGlobalOpt options) true).
    - match goal with |- context [differentialEvolution ?o ?b ?op ?f ?x] =>
        destruct (differentialEvolution o b op f x) as [[deResult w1]|] eqn:E1;
        [|discriminate];
        destruct (differentialEvolution_bounded W o b op Hord f x deResult w1 E1)
          as [_ Hl]
      end.
      intros start w0 H; inversion H; subst. apply Hl.
      cbn [de_populationSize orDefault]. exact Hpop.
    - intros start w0 H; inversion H; subst. exact Hlen. }
  specialize (Hstart start w0 eq_refl).
  match goal with |- context [levenbergMarquardt ?f start ?o] =>
    pose proof (levenbergMarquardt_x_length f start o) as Hlm;
    set (lmResult := levenbergMarquardt f start o) in *; clearbody lmResult
  end.
  intros H. injection H as Hr _. rewrite <- Hr. cbn [cf_params].
  rewrite mapi_length, Hlm, Hstart.
  split; [reflexivity|].
  intros i Hi. unfold get at 2 5.
  rewrite (mapi_nth _ _ _ 0) by (now rewrite Hlm, Hstart).
  apply clamp_within. apply Hord.
Qed.

Lemma orderedBounds_of_Forall2 (lo hi : list R) :
  Forall2 Rle lo hi -> orderedBounds {| lower := lo; upper := hi |}.
Proof.
  intros H j. cbn [lower upper]. unfold get. revert j.
  induction H as [|x y l l' Hxy _ IH]; intros [|j]; cbn [nth]; try lra; apply IH.
Qed.

(** X29: Whatever the data, the values [fitFermiEdge] reports lie within the
    bounds written into it: the edge shift within 50 meV of zero, the total
    width between 0.1 and 50 meV, the amplitude between 0.5 and 2, the offset
    within 0.5 of zero, and the temperature, when fitted, between 0.1 and
    300 K (when not fitted it is the temperature given). *)
Theorem fitFermiEdge_within_bounds (W : Type) (energyAxis observedSpectrum : list R)
    (temperature : R) (fitTemp useGlobal : bool) (onProgress : option (nat -> R -> W -> W))
    (fuel : nat) (w : W) (result : FermiEdgeFitResult) (w' : W) :
  fitFermiEdge energyAxis observedSpectrum temperature fitTemp useGlobal onProgress fuel w
    = Some (result, w') ->
  -0.05 <= fe_efShift result <= 0.05 /\
  0.0001 <= fe_sigmaTotal result <= 0.05 /\
  0.5 <= fe_amplitude result <= 2 /\
  -0.5 <= fe_offset result <= 0.5 /\
  (if fitTemp then 0.1 <= fe_tempFit result <= 300 else fe_tempFit result = temperature).
Proof.
  unfold fitFermiEdge. cbv zeta. destruct fitTemp.
  - match goal with |- match curveFit ?m ?x ?y ?i ?b ?o ?f ?w0 with _ => _ end = _ -> _ =>
      destruct (curveFit m x y i b o f w0) as [[cf w1]|] eqn:E1; [|discriminate];
      destruct (curveFit_params m x y i b o f w0 cf w1) as [_ Hin];
      [apply orderedBounds_of_Forall2; repeat (apply Forall2_cons; [lra|]); apply Forall2_nil
      |reflexivity
      |cbn [deOptions de_populationSize orDefault]; lia
      |exact E1|]
    end.
    cbn [lower upper length] in Hin.
    pose proof (Hin 0%nat ltac:(lia)) as H0. pose proof (Hin 1%nat ltac:(lia)) as H1.
    pose proof (Hin 2%nat ltac:(lia)) as H2. pose proof (Hin 3%nat ltac:(lia)) as H3.
    pose proof (Hin 4%nat ltac:(lia)) as H4.
    unfold get in H0, H1, H2, H3, H4. cbn [nth] in H0, H1, H2, H3, H4.
    intros H; inversion H; subst.
    cbn [fe_efShift fe_sigmaTotal fe_amplitude fe_offset fe_tempFit]. unfold get.
    repeat split; lra.
  - match goal with |- match curveFit ?m ?x ?y ?i ?b ?o ?f ?w0 with _ => _ end = _ -> _ =>
      destruct (curveFit m x y i b o f w0) as [[cf w1]|] eqn:E1; [|discriminate];
      destruct (curveFit_params m x y i b o f w0 cf w1) as [_ Hin];
      [apply orderedBounds_of_Forall2; repeat (apply Forall2_cons; [lra|]); apply Forall2_nil
      |reflexivity
      |cbn [deOptions de_populationSize orDefault]; lia
      |exact E1|]
    end.
    cbn [lower upper length] in Hin.
    pose proof (Hin 0%nat ltac:(lia)) as H0. pose proof (Hin 1%nat ltac:(lia)) as H1.
    pose proof (Hin 2%nat ltac:(lia)) as H2. pose proof (Hin 3%nat ltac:(lia)) as H3.
    unfold get in H0, H1, H2, H3. cbn [nth] in H0, H1, H2, H3.
    intros H; inversion H; subst.
    cbn [fe_efShift fe_sigmaTotal fe_amplitude fe_offset fe_tempFit]. unfold get.
    repeat split; lra.
Qed.

Lemma fitFermiEdge_within_bounds_witness :
  exists result w',
    fitFermiEdge [0; 0.001] [1; 0] 5 true true None 64 tt = Some (result, w') /\
    0.1 <= fe_tempFit result <= 300.
Proof.
  destruct (fitFermiEdge_returns (W := unit) [0; 0.001] [1; 0] 5 true true None tt)
    as (result & w' & H).
  exists result, w'. split; [exact H|].
  exact (proj2 (proj2 (proj2 (proj2
           (fitFermiEdge_within_bounds unit _ _ _ true _ _ _ _ _ _ H))))).
Defined.



(** ** Noise (simulator.ts) *)

Lemma mapi_st_fold {A B St : Type} (f : A -> nat -> St -> B * St)
    (P : B -> Prop) (m : St -> nat) (d : nat) :
  (forall x k st, P (fst (f x k st)) /\ m (snd (f x k st)) = (m st + d)%nat) ->
  forall l k st,
    Forall P (fst (mapi_st k f l st)) /\
    m (snd (mapi_st k f l st)) = (m st + d * length l)%nat.
Proof.
  intros Hf. induction l as [|x l IH]; intros k st; cbn [mapi_st length].
  - split; [constructor|]. cbn [snd]. lia.
  - destruct (Hf x k st) as [Hp Hm]. destruct (f x k st) as [y st1].
    destruct (IH (S k) st1) as [Hps Hms]. destruct (mapi_st (S k) f l st1) as [ys st2].
    cbn [fst snd] in *. split; [constructor; assumption|]. rewrite Hms, Hm. lia.
Qed.

(** X10: [addNoise] never returns a negative sample, and for every sample it
    takes two draws from [Math.random] for each kind of noise that is
    switched on (a Poisson level above 1e-5, a Gaussian level above 0), in
    that order: with a generator whose state counts its calls, the count
    grows by that number times the length of the spectrum. *)
Theorem addNoise_draws_and_clips (RandState : Type)
    (Math_random : RandState -> R * RandState) (calls : RandState -> nat)
    (samples : list R) (poissonLevel gaussianLevel : R) (rs : RandState) :
  (forall s, calls (snd (Math_random s)) = S (calls s)) ->
  Forall (fun v => 0 <= v) (fst (addNoise Math_random samples poissonLevel gaussianLevel rs)) /\
  calls (snd (addNoise Math_random samples poissonLevel gaussianLevel rs)) =
    (calls rs
     + ((if Rgt_dec poissonLevel 1e-5 then 2 else 0)
        + (if Rgt_dec gaussianLevel 0 then 2 else 0)) * length samples)%nat.
Proof.
  intros Hc. unfold addNoise. apply mapi_st_fold. intros x k st.
  destruct (Rgt_dec poissonLevel 1e-5).
  - pose proof (Hc st) as H1. destruct (Math_random st) as [u1 s1].
    pose proof (Hc s1) as H2. destruct (Math_random s1) as [u2 s2].
    destruct (Rgt_dec gaussianLevel 0).
    + pose proof (Hc s2) as H3. destruct (Math_random s2) as [u3 s3].
      pose proof (Hc s3) as H4. destruct (Math_random s3) as [u4 s4].
      cbn [fst snd] in *. split; [apply Rmax_l|lia].
    + cbn [fst snd] in *. split; [apply Rmax_l|lia].
  - destruct (Rgt_dec gaussianLevel 0).
    + pose proof (Hc st) as H1. destruct (Math_random st) as [u1 s1].
      pose proof (Hc s1) as H2. destruct (Math_random s1) as [u2 s2].
      cbn [fst snd] in *. split; [apply Rmax_l|lia].
    + cbn [fst snd] in *. split; [apply Rmax_l|lia].
Qed.

Lemma addNoise_draws_and_clips_witness :
  snd (addNoise halfRandom [0.5; 0.25; 0] 2 0 0%nat) = 6%nat.
Proof.
  destruct (addNoise_draws_and_clips nat halfRandom (fun n => n) [0.5; 0.25; 0] 2 0 0%nat
              (fun s => eq_refl)) as [_ H].
  rewrite H. destruct (Rgt_dec 2 1e-5) as [_|Hn]; [|exfalso; apply Hn; unfold Rgt; lra].
  destruct (Rgt_dec 0 0) as [Hp|_]; [unfold Rgt in Hp; lra|]. reflexivity.
Defined.
